(** * Design-token resolution engine of [src/theme/plugin.js]

    A shallow embedding of the four engine functions of the plugin,

      - [resolveColorReference]  (plugin.js, lines 30-71),
      - [processShadowValue]     (lines 74-102),
      - [flattenTokens]          (lines 105-125),
      - [resolveCSSReferences]   (lines 128-182),

    over a model of the JavaScript values that [JSON.parse] produces, and the
    properties of the specification that concern them.

    Conventions of the model.
      - A JavaScript value is a [js] tree.  Numbers are the integer-valued
        ones ([Z]); strings are sequences of one-byte characters.
      - An object is the list of its own properties in the order in which
        [Object.entries] enumerates them.  Property reads ([getProp]) see own
        properties only; names inherited from the built-in prototypes
        ([constructor], [toString], ...) are outside the model, and so are
        the assignment to [__proto__], the printing of an object that has a
        [toString] of its own and the printing of a number beyond 2^53.  A
        property whose truth depends on one of these carries the hypothesis
        that excludes it ([inheritedName], [plainDocument], [printable]), or
        is stated on the own properties of the store ([nodeAt]).
      - [console.warn] is a writer: every function returns the diagnostics it
        emitted, in order, next to its result.
      - A [TypeError] is an outcome, not a value.
      - [resolveCSSReferences] recurses without a bound in the source; the
        model takes fuel, and the call stack of an engine is not modelled.
      - Module [Mem] transcribes the same functions over a heap of mutable
        objects, to state which objects a call writes to.

    The functions that drive the engine follow: [generateCSSVariables]
    (lines 185-193), [loadAllTokens] (405-447), the section generators
    (196-402 and 480-522) and [generateCSS] (450-477).  The file system is
    their environment: the token directory is a function from a file name to
    the parsed document, and a read that throws is a failure of the run.
    Texts are sequences of bytes, so a character outside ASCII is the
    sequence of the bytes of its UTF-8 encoding. *)

From Stdlib Require Import ZArith String Ascii List Bool Lia DecimalString Sorted.
From stdpp Require Import base list strings gmap.

Open Scope string_scope.
Open Scope list_scope.

(** ** JavaScript values *)

#[warnings="-register-all"]
Inductive js : Type :=
| JUndefined
| JNull
| JBool (b : bool)
| JNum (n : Z)
| JStr (s : string)
| JArr (elements : list js)
| JObj (fields : list (string * js)).

(** Structural induction that reaches the elements of arrays and the fields
    of objects. *)
Section js_induction.
Variable P : js -> Prop.
Hypothesis Hundef : P JUndefined.
Hypothesis Hnull : P JNull.
Hypothesis Hbool : forall b, P (JBool b).
Hypothesis Hnum : forall n, P (JNum n).
Hypothesis Hstr : forall s, P (JStr s).
Hypothesis Harr : forall xs, Forall P xs -> P (JArr xs).
Hypothesis Hobj : forall fs, Forall (fun kv => P (snd kv)) fs -> P (JObj fs).

Fixpoint js_deep_ind (v : js) : P v :=
  match v with
  | JUndefined => Hundef
  | JNull => Hnull
  | JBool b => Hbool b
  | JNum n => Hnum n
  | JStr s => Hstr s
  | JArr xs =>
      Harr xs ((fix go (l : list js) : Forall P l :=
                  match l with
                  | [] => List.Forall_nil P
                  | x :: l' => List.Forall_cons P x l' (js_deep_ind x) (go l')
                  end) xs)
  | JObj fs =>
      Hobj fs ((fix go (l : list (string * js)) : Forall (fun kv => P (snd kv)) l :=
                  match l with
                  | [] => List.Forall_nil _
                  | kv :: l' => List.Forall_cons _ kv l' (js_deep_ind (snd kv)) (go l')
                  end) fs)
  end.
End js_induction.

(** ** Strings: the methods of [String.prototype] that the plugin calls *)

Module Str.

(** [s.startsWith(p)] *)
Definition startsWith (p s : string) : bool := String.prefix p s.

(** [s.endsWith(p)] *)
Definition endsWith (p s : string) : bool :=
  let n := String.length s in
  let m := String.length p in
  (m <=? n)%nat && String.eqb (substring (n - m) m s) p.

(** [s.slice(from, to)], with the negative positions counted from the end. *)
Definition slice (from to : Z) (s : string) : string :=
  let len := Z.of_nat (String.length s) in
  let clamp (i : Z) := if (i <? 0)%Z then Z.max (len + i) 0 else Z.min i len in
  let a := clamp from in
  let b := clamp to in
  substring (Z.to_nat a) (Z.to_nat (b - a)) s.

(** [s.split(sep)] for a separator of one character (["."] and ["-"] in
    the plugin).  The result is never empty. *)
Fixpoint split (sep : ascii) (s : string) : list string :=
  match s with
  | "" => [""]
  | String c s' =>
      if Ascii.eqb c sep then "" :: split sep s'
      else match split sep s' with
           | h :: t => String c h :: t
           | [] => [String c ""]
           end
  end.

(** [s.includes(c)] for one character. *)
Fixpoint includes (c : ascii) (s : string) : bool :=
  match s with
  | "" => false
  | String c' s' => Ascii.eqb c' c || includes c s'
  end.

(** [l.join(sep)] on an array of strings. *)
Definition join (sep : string) (l : list string) : string := String.concat sep l.

(** Decimal rendering of an integer, as [String(n)] prints it. *)
Definition ofZ (n : Z) : string := NilEmpty.string_of_int (Z.to_int n).
Definition ofN (n : N) : string := NilEmpty.string_of_uint (N.to_uint n).

(** A property key is an array index when it is the canonical decimal
    rendering of an integer below [2^32 - 1]. *)
Definition arrayIndex (k : string) : option N :=
  match NilEmpty.uint_of_string k with
  | Some d =>
      let n := N.of_uint d in
      if String.eqb (ofN n) k && (n <? 4294967295)%N then Some n else None
  | None => None
  end.

End Str.

(** ** The operators of the language *)

(** [typeof v] *)
Definition typeof (v : js) : string :=
  match v with
  | JUndefined => "undefined"
  | JNull => "object"
  | JBool _ => "boolean"
  | JNum _ => "number"
  | JStr _ => "string"
  | JArr _ => "object"
  | JObj _ => "object"
  end.

(** Truthiness: what [if (v)], [!v], [v && w] and [v || w] test. *)
Definition truthy (v : js) : bool :=
  match v with
  | JUndefined | JNull => false
  | JBool b => b
  | JNum n => negb (n =? 0)%Z
  | JStr s => negb (String.eqb s "")
  | JArr _ | JObj _ => true
  end.

(** [v || d] *)
Definition orElse (v d : js) : js := if truthy v then v else d.

(** [v === "s"] against a string literal. *)
Definition isString (s : string) (v : js) : bool :=
  match v with
  | JStr s' => String.eqb s' s
  | _ => false
  end.

Definition isNullish (v : js) : bool :=
  match v with
  | JUndefined | JNull => true
  | _ => false
  end.

(** First binding of a key in a property list. *)
Fixpoint assoc (k : string) (fields : list (string * js)) : option js :=
  match fields with
  | [] => None
  | (k', v) :: rest => if String.eqb k' k then Some v else assoc k rest
  end.

(** [v[k]] on a value that is neither [null] nor [undefined] (on those the
    read throws; every call site below guards it).  Objects answer with
    their own properties; arrays and strings with [length] and their
    indices.  What a value owns, the source reads as [getProp] does; what it
    does not own, the source looks up in the prototype, which [getProp] does
    not: its [undefined] is the source's answer for every name but those of
    [inheritedNames] below. *)
Definition getProp (v : js) (k : string) : js :=
  match v with
  | JObj fields => default JUndefined (assoc k fields)
  | JArr xs =>
      if String.eqb k "length" then JNum (Z.of_nat (List.length xs))
      else match Str.arrayIndex k with
           | Some i => if (i <? N.of_nat (List.length xs))%N
                       then nth (N.to_nat i) xs JUndefined else JUndefined
           | None => JUndefined
           end
  | JStr s =>
      if String.eqb k "length" then JNum (Z.of_nat (String.length s))
      else match Str.arrayIndex k with
           | Some i => if (i <? N.of_nat (String.length s))%N
                       then match String.get (N.to_nat i) s with
                            | Some c => JStr (String c "")
                            | None => JUndefined
                            end
                       else JUndefined
           | None => JUndefined
           end
  | _ => JUndefined
  end.

(** [String(v)], the conversion that template literals and the replacement
    callback of [String.prototype.replace] apply.  A number is printed with
    all its digits, as the source prints the integers that a double holds
    exactly; an object is printed by the inherited method, which the source
    calls unless the object has a [toString] of its own ([printable] below
    names the values within these limits). *)
Fixpoint toString (v : js) : string :=
  match v with
  | JUndefined => "undefined"
  | JNull => "null"
  | JBool true => "true"
  | JBool false => "false"
  | JNum n => Str.ofZ n
  | JStr s => s
  | JArr xs =>
      Str.join ","
        ((fix each (l : list js) : list string :=
            match l with
            | [] => []
            | x :: l' => (if isNullish x then "" else toString x) :: each l'
            end) xs)
  | JObj _ => "[object Object]"
  end.

(** ** Diagnostics and outcomes *)

(** One constructor per [console.warn] of the engine. *)
Inductive diag : Type :=
| DepthExceeded (value : js)
| RefNotFound (reference : string) (path : list string)
| RefMalformed (reference : string) (type : string)
| CssRefNotFound (reference : string)
| CssRefMalformed (reference : string).

(** ** Reference Resolver: [resolveColorReference] *)

(** The [{...}] test of lines 37 and 156-158. *)
Definition isReference (v : js) : bool :=
  match v with
  | JStr s => Str.startsWith "{" s && Str.endsWith "}" s
  | _ => false
  end.

(** The [for (const part of parts)] loop of lines 47-54: [inl path] when a
    segment is missing ([path] is the part of the path walked so far),
    [inr current] at the end of the path. *)
Fixpoint walkPath (current : js) (path : list string) (parts : list string)
  : list string + js :=
  match parts with
  | [] => inr current
  | part :: rest =>
      let path := path ++ [part] in
      if negb (truthy current) || negb (truthy (getProp current part))
      then inl path
      else walkPath (getProp current part) path rest
  end.

(** The body of the function, by recursion on the number of calls that the
    depth ceiling still allows: a call at [depth] has [11 - depth] left. *)
Fixpoint resolveWithin (budget : nat) (value allTokens : js) : js * list diag :=
  match budget with
  | O => (value, [DepthExceeded value])
  | S budget =>
      match value with
      | JStr s =>
          if negb (Str.startsWith "{" s) || negb (Str.endsWith "}" s)
          then (value, [])
          else
            let reference := Str.slice 1 (-1) s in
            let parts := Str.split "." reference in
            match walkPath allTokens [] parts with
            | inl path => (value, [RefNotFound reference path])
            | inr current =>
                if truthy current && truthy (getProp current "$value")
                then resolveWithin budget (getProp current "$value") allTokens
                else if truthy current && isString "color" (getProp current "$type")
                then (getProp current "$value", [])
                else if String.eqb (typeof current) "string"
                then resolveWithin budget current allTokens
                else (value, [RefMalformed reference (typeof current)])
            end
      | _ => (value, [])
      end
  end.

Definition resolveColorReference (value allTokens : js) (depth : nat) : js * list diag :=
  resolveWithin (11 - depth) value allTokens.

(** ** Shadow values: [processShadowValue] *)

(** The callback of [value.map] (lines 82-100). *)
Definition shadowToString (shadow : js) : string :=
  if String.eqb (typeof shadow) "string" then toString shadow
  else if String.eqb (typeof shadow) "object" && negb (isNullish shadow) then
    let offsetX := orElse (getProp shadow "offsetX") (JStr "0px") in
    let offsetY := orElse (getProp shadow "offsetY") (JStr "0px") in
    let blur := orElse (getProp shadow "blur") (JStr "0px") in
    let spread := orElse (getProp shadow "spread") (JStr "0px") in
    let color := orElse (getProp shadow "color") (JStr "transparent") in
    toString offsetX +:+ " " +:+ toString offsetY +:+ " " +:+ toString blur
      +:+ " " +:+ toString spread +:+ " " +:+ toString color
  else "none".

Definition processShadowValue (value : js) : js :=
  match value with
  | JArr shadows => JStr (Str.join ", " (map shadowToString shadows))
  | _ => value
  end.

(** ** Effects: diagnostics and exceptions *)

Inductive outcome (A : Type) : Type :=
| Returned (a : A)
| TypeError
| OutOfFuel.
Arguments Returned {A} a.
Arguments TypeError {A}.
Arguments OutOfFuel {A}.

(** A computation yields an outcome and the diagnostics emitted on the way.
    [OutOfFuel] belongs to the model only: it marks a recursion that the
    given fuel did not let finish. *)
Definition Eff (A : Type) : Type := outcome A * list diag.

Definition ret {A} (a : A) : Eff A := (Returned a, []).
Definition throw {A} : Eff A := (TypeError, []).
Definition warn (d : diag) : Eff unit := (Returned tt, [d]).
Definition lift {A} (p : A * list diag) : Eff A := (Returned (fst p), snd p).
Definition bind {A B} (m : Eff A) (f : A -> Eff B) : Eff B :=
  match m with
  | (Returned a, w) => let '(r, w') := f a in (r, w ++ w')
  | (TypeError, w) => (TypeError, w)
  | (OutOfFuel, w) => (OutOfFuel, w)
  end.

Notation "'let!' x := m 'in' k" := (bind m (fun x => k))
  (at level 10, x name, m at level 100, k at level 200).

(** ** Objects under construction: property assignment *)

(** An object is the list of its own properties in enumeration order: the
    array-index keys in ascending numeric order first, then the other keys
    in the order of their creation. *)
Definition obj : Type := list (string * js).

Definition keys (o : obj) : list string := map fst o.

Definition hasKey (k : string) (o : obj) : bool :=
  existsb (fun kv => String.eqb (fst kv) k) o.

(** Overwrite the value of a property that exists; its place is kept. *)
Fixpoint overwrite (k : string) (v : js) (o : obj) : obj :=
  match o with
  | [] => []
  | (k', v') :: rest =>
      if String.eqb k' k then (k, v) :: rest else (k', v') :: overwrite k v rest
  end.

(** Create an array-index property: it goes before the first property that
    is not an array index or is a greater one. *)
Fixpoint insertIndex (i : N) (k : string) (v : js) (o : obj) : obj :=
  match o with
  | [] => [(k, v)]
  | (k', v') :: rest =>
      match Str.arrayIndex k' with
      | Some j => if (j <? i)%N then (k', v') :: insertIndex i k v rest
                  else (k, v) :: o
      | None => (k, v) :: o
      end
  end.

(** [o[k] = v] on a plain object, for every key but [__proto__], which is
    not owned: the source hands that assignment to the inherited setter, and
    no property is created. *)
Definition setProp (o : obj) (k : string) (v : js) : obj :=
  if hasKey k o then overwrite k v o
  else match Str.arrayIndex k with
       | Some i => insertIndex i k v o
       | None => o ++ [(k, v)]
       end.

(** ** Value Materializer and Flattener: [flattenTokens] *)

(** Lines 111-117: the emitted value of a node that passed the leaf test. *)
Definition materialize (value allTokens : js) : js * list diag :=
  if isString "color" (getProp value "$type")
  then resolveColorReference (getProp value "$value") allTokens 0
  else if isString "shadow" (getProp value "$type")
  then (processShadowValue (getProp value "$value"), [])
  else (getProp value "$value", []).

(** Line 107: the key under which an entry is emitted. *)
Definition newKey (prefix key : string) : string :=
  if negb (String.eqb prefix "") then prefix +:+ "-" +:+ key else key.

(** The body of the loop (lines 107-121) for one entry; [recur] is the
    recursive call of line 120 on this entry's value.  Reading [value.$type]
    throws when the value is [null]. *)
Definition flattenEntry (recur : string -> obj -> Eff obj) (allTokens : js)
    (prefix key : string) (value : js) (result : obj) : Eff obj :=
  let newKey := newKey prefix key in
  if isNullish value then throw
  else if truthy (getProp value "$type") && truthy (getProp value "$value") then
    let! v := lift (materialize value allTokens) in
    ret (setProp result newKey v)
  else if String.eqb (typeof value) "object" then recur newKey result
  else ret result.

(** The [for ... of Object.entries(tokens)] loop, over the fields of an
    object and over the elements of an array (whose keys are the indices). *)
Section loops.
Context {A : Type} (body : string -> A -> obj -> Eff obj).

Fixpoint forEntries (entries : list (string * A)) (result : obj) : Eff obj :=
  match entries with
  | [] => ret result
  | (key, value) :: rest =>
      let! result := body key value result in forEntries rest result
  end.

Fixpoint forElements (i : N) (elements : list A) (result : obj) : Eff obj :=
  match elements with
  | [] => ret result
  | value :: rest =>
      let! result := body (Str.ofN i) value result in
      forElements (N.succ i) rest result
  end.
End loops.

(** [flattenTokens(tokens, prefix, result, allTokens)].  [Object.entries]
    throws on [null] and [undefined], lists the fields of an object and the
    indexed elements of an array; the entries of a string are its
    characters, which the loop body skips, and the other primitives have
    none. *)
Fixpoint flattenTokens (tokens : js) (prefix : string) (result : obj) (allTokens : js)
  {struct tokens} : Eff obj :=
  match tokens with
  | JUndefined | JNull => throw
  | JBool _ | JNum _ | JStr _ => ret result
  | JArr elements =>
      forElements
        (fun key value result =>
           flattenEntry (fun p r => flattenTokens value p r allTokens)
             allTokens prefix key value result)
        0%N elements result
  | JObj fields =>
      forEntries
        (fun key value result =>
           flattenEntry (fun p r => flattenTokens value p r allTokens)
             allTokens prefix key value result)
        fields result
  end.

(** ** Text-Reference Rewriter: [resolveCSSReferences] *)

(** The walk of lines 135-150, with the retry on a hyphenated segment.
    [Missing] is the [return match] of line 147; [Thrown] is the [TypeError]
    of reading [value[parent]] on [null] or [undefined]. *)
Inductive lookup : Type :=
| Found (value : js)
| Missing
| Thrown.

Fixpoint lookupPath (value : js) (parts : list string) : lookup :=
  match parts with
  | [] => Found value
  | part :: rest =>
      if negb (truthy value) || negb (truthy (getProp value part)) then
        if Str.includes "-" part then
          let pieces := Str.split "-" part in
          let parent := nth 0 pieces "undefined" in
          let child := nth 1 pieces "undefined" in
          if isNullish value then Thrown
          else if truthy (getProp value parent)
                  && truthy (getProp (getProp value parent) child)
          then lookupPath (getProp (getProp value parent) child) rest
          else Missing
        else Missing
      else lookupPath (getProp value part) rest
  end.

(** The text of a value that is a string of the form [{...}]. *)
Definition asReference (v : js) : option string :=
  match v with
  | JStr s => if Str.startsWith "{" s && Str.endsWith "}" s then Some s else None
  | _ => None
  end.

(** What the replacement callback (lines 130-181) does with the match
    [{reference}]: it finishes with a replacement, or it calls
    [resolveCSSReferences] again on a text found in the store (lines 160
    and 174). *)
Inductive action : Type :=
| Finish (result : Eff string)
| Recurse (text : string).

Definition actionFor (allTokens : js) (reference : string) : action :=
  let matched := "{" +:+ reference +:+ "}" in
  let parts := Str.split "." reference in
  match lookupPath allTokens parts with
  | Thrown => Finish throw
  | Missing => Finish (let! _ := warn (CssRefNotFound reference) in ret matched)
  | Found value =>
      if truthy value && negb (String.eqb (typeof (getProp value "$value")) "undefined")
      then
        match asReference (getProp value "$value") with
        | Some text => Recurse text
        | None => Finish (ret (toString (getProp value "$value")))
        end
      else if Str.startsWith "--" reference
      then Finish (ret ("var(" +:+ reference +:+ ")"))
      else if String.eqb (typeof value) "string"
      then
        match asReference value with
        | Some text => Recurse text
        | None => Finish (ret (toString value))
        end
      else Finish (let! _ := warn (CssRefMalformed reference) in ret matched)
  end.

(** The callback; [self] is the function itself. *)
Definition replaceMatch (self : string -> Eff string) (allTokens : js)
    (reference : string) : Eff string :=
  match actionFor allTokens reference with
  | Finish result => result
  | Recurse text => self text
  end.

(** [css.replace(/\{([^{}]+)\}/g, callback)]: the text is scanned from
    left to right; at every position that is not inside the previous match
    the pattern is tried, and a match is replaced by what the callback
    returns for its group. *)
Definition isBrace (c : ascii) : bool := Ascii.eqb c "{" || Ascii.eqb c "}".

(** The longest run of characters other than braces at the head of a text. *)
Fixpoint braceFree (s : string) : string :=
  match s with
  | "" => ""
  | String c s' => if isBrace c then "" else String c (braceFree s')
  end.

(** What follows that run. *)
Fixpoint afterBraceFree (s : string) : string :=
  match s with
  | "" => ""
  | String c s' => if isBrace c then s else afterBraceFree s'
  end.

(** The group of the match that starts at the head of [css], if there is
    one: an opening brace, a non-empty run without braces, a closing brace. *)
Definition matchAt (css : string) : option string :=
  match css with
  | String c rest =>
      if Ascii.eqb c "{" then
        let body := braceFree rest in
        if negb (String.eqb body "") && Str.startsWith "}" (afterBraceFree rest)
        then Some body else None
      else None
  | "" => None
  end.

Section replace.
Variable callback : string -> Eff string.

(** [skip] counts the characters that still belong to the previous match. *)
Fixpoint replaceAll (skip : nat) (css : string) : Eff string :=
  match css with
  | "" => ret ""
  | String c rest =>
      match skip with
      | S skip => replaceAll skip rest
      | O =>
          match matchAt css with
          | Some reference =>
              let! replacement := callback reference in
              let! out := replaceAll (String.length reference + 1) rest in
              ret (replacement +:+ out)
          | None =>
              let! out := replaceAll 0 rest in
              ret (String c out)
          end
      end
  end.
End replace.

(** [resolveCSSReferences(css, allTokens)].  The source recurses without a
    bound; [fuel] bounds the depth of the nested calls of the model. *)
Fixpoint resolveCSSReferences (fuel : nat) (css : string) (allTokens : js) : Eff string :=
  match fuel with
  | O => (OutOfFuel, [])
  | S fuel =>
      replaceAll
        (replaceMatch (fun text => resolveCSSReferences fuel text allTokens) allTokens)
        0 css
  end.

(** ** The engine over a heap

    The tree model above cannot tell an object from a copy of it.  To state
    which objects a call writes to, the four functions are transcribed once
    more over a heap of mutable cells, with objects passed by reference.
    Diagnostics are left out here, and so are the arrays that are local to a
    call ([path], [parts], the array that [map] returns): they never escape.
    [String(v)], which only reads, is a parameter [toString] of the
    transcription. *)
Module Mem.

Definition loc : Type := nat.

Inductive ref : Type :=
| Undefined
| Null
| Bool (b : bool)
| Num (n : Z)
| Str (s : string)
| Ptr (l : loc).

(** An object or an array: its own properties in enumeration order (for an
    array the elements are the properties named by the indices). *)
Record cell : Type := Cell { isArray : bool; props : list (string * ref) }.

Abbreviation heap := (gmap loc cell).

Definition M (A : Type) : Type := heap -> outcome A * heap.

Definition ret {A} (a : A) : M A := fun h => (Returned a, h).
Definition throw {A} : M A := fun h => (TypeError, h).
Definition outOfFuel {A} : M A := fun h => (OutOfFuel, h).
Definition bind {A B} (m : M A) (f : A -> M B) : M B :=
  fun h =>
    match m h with
    | (Returned a, h') => f a h'
    | (TypeError, h') => (TypeError, h')
    | (OutOfFuel, h') => (OutOfFuel, h')
    end.

Notation "'do!' x := m 'in' k" := (bind m (fun x => k))
  (at level 10, x name, m at level 100, k at level 200).

(** The three accesses to the heap. *)
Definition load (l : loc) : M cell :=
  fun h => match h !! l with
           | Some c => (Returned c, h)
           | None => (TypeError, h)
           end.

Definition store (l : loc) (c : cell) : M unit :=
  fun h => (Returned tt, <[l:=c]> h).

Definition alloc (c : cell) : M loc :=
  fun h => let l := fresh (dom h) in (Returned l, <[l:=c]> h).

Definition truthy (v : ref) : bool :=
  match v with
  | Undefined | Null => false
  | Bool b => b
  | Num n => negb (n =? 0)%Z
  | Str s => negb (String.eqb s "")
  | Ptr _ => true
  end.

Definition typeof (v : ref) : string :=
  match v with
  | Undefined => "undefined"
  | Null => "object"
  | Bool _ => "boolean"
  | Num _ => "number"
  | Str _ => "string"
  | Ptr _ => "object"
  end.

Definition isString (s : string) (v : ref) : bool :=
  match v with
  | Str s' => String.eqb s' s
  | _ => false
  end.

(** The text of a value that is a string of the form [{...}]. *)
Definition asReference (v : ref) : option string :=
  match v with
  | Str s => if Str.startsWith "{" s && Str.endsWith "}" s then Some s else None
  | _ => None
  end.

Fixpoint assoc (k : string) (fields : list (string * ref)) : option ref :=
  match fields with
  | [] => None
  | (k', v) :: rest => if String.eqb k' k then Some v else assoc k rest
  end.

(** The [length] of an array: one more than its greatest index. *)
Definition arrayLength (fields : list (string * ref)) : N :=
  fold_right
    (fun kv n => match Str.arrayIndex (fst kv) with
                 | Some i => N.max (N.succ i) n
                 | None => n
                 end) 0%N fields.

(** [v[k]] *)
Definition getProp (v : ref) (k : string) : M ref :=
  match v with
  | Undefined | Null => throw
  | Bool _ | Num _ => ret Undefined
  | Str s =>
      if String.eqb k "length" then ret (Num (Z.of_nat (String.length s)))
      else match Str.arrayIndex k with
           | Some i => if (i <? N.of_nat (String.length s))%N
                       then match String.get (N.to_nat i) s with
                            | Some c => ret (Str (String c ""))
                            | None => ret Undefined
                            end
                       else ret Undefined
           | None => ret Undefined
           end
  | Ptr l =>
      do! c := load l in
      if isArray c && String.eqb k "length"
      then ret (Num (Z.of_N (arrayLength (props c))))
      else ret (default Undefined (assoc k (props c)))
  end.

(** [v && v[k]] *)
Definition andProp (v : ref) (k : string) : M ref :=
  if truthy v then getProp v k else ret v.

Definition hasKey (k : string) (o : list (string * ref)) : bool :=
  existsb (fun kv => String.eqb (fst kv) k) o.

Fixpoint overwrite (k : string) (v : ref) (o : list (string * ref)) :=
  match o with
  | [] => []
  | (k', v') :: rest =>
      if String.eqb k' k then (k, v) :: rest else (k', v') :: overwrite k v rest
  end.

Fixpoint insertIndex (i : N) (k : string) (v : ref) (o : list (string * ref)) :=
  match o with
  | [] => [(k, v)]
  | (k', v') :: rest =>
      match Str.arrayIndex k' with
      | Some j => if (j <? i)%N then (k', v') :: insertIndex i k v rest
                  else (k, v) :: o
      | None => (k, v) :: o
      end
  end.

Definition assign (o : list (string * ref)) (k : string) (v : ref) :=
  if hasKey k o then overwrite k v o
  else match Str.arrayIndex k with
       | Some i => insertIndex i k v o
       | None => o ++ [(k, v)]
       end.

(** [target[k] = v].  The plugin is a module, hence strict code: the
    assignment throws on a primitive. *)
Definition setProp (target : ref) (k : string) (v : ref) : M unit :=
  match target with
  | Ptr l =>
      do! c := load l in
      store l (Cell (isArray c) (assign (props c) k v))
  | _ => throw
  end.

(** [Object.entries(v)]: a snapshot of the properties. *)
Definition objectEntries (v : ref) : M (list (string * ref)) :=
  match v with
  | Undefined | Null => throw
  | Bool _ | Num _ => ret []
  | Str s =>
      ret (imap (fun i c => (Str.ofN (N.of_nat i), Str (String c "")))
             (list_ascii_of_string s))
  | Ptr l => do! c := load l in ret (props c)
  end.

Fixpoint forEach {A} (body : A -> M unit) (l : list A) : M unit :=
  match l with
  | [] => ret tt
  | x :: l' => do! _ := body x in forEach body l'
  end.

Fixpoint mapM {A B} (f : A -> M B) (l : list A) : M (list B) :=
  match l with
  | [] => ret []
  | x :: l' => do! y := f x in do! ys := mapM f l' in ret (y :: ys)
  end.

Section engine.
Variable toString : heap -> ref -> string.

Definition stringOf (v : ref) : M string :=
  fun h => (Returned (toString h v), h).

(** [resolveColorReference]: lines 47-54, then the body by recursion on
    the calls that the depth ceiling still allows. *)
Fixpoint walkPath (current : ref) (parts : list string) : M (option ref) :=
  match parts with
  | [] => ret (Some current)
  | part :: rest =>
      if negb (truthy current) then ret None
      else
        do! next := getProp current part in
        if negb (truthy next) then ret None else walkPath next rest
  end.

Fixpoint resolveWithin (budget : nat) (value allTokens : ref) : M ref :=
  match budget with
  | O => ret value
  | S budget =>
      match asReference value with
      | None => ret value
      | Some text =>
          do! found := walkPath allTokens (Str.split "." (Str.slice 1 (-1) text)) in
          match found with
          | None => ret value
          | Some current =>
              do! v := andProp current "$value" in
              if truthy v then
                do! v := getProp current "$value" in
                resolveWithin budget v allTokens
              else
                do! t := andProp current "$type" in
                if isString "color" t then getProp current "$value"
                else if String.eqb (typeof current) "string"
                then resolveWithin budget current allTokens
                else ret value
          end
      end
  end.

Definition resolveColorReference (value allTokens : ref) (depth : nat) : M ref :=
  resolveWithin (11 - depth) value allTokens.

(** [processShadowValue] *)
Definition orElse (v : ref) (d : string) : M string :=
  if truthy v then stringOf v else ret d.

Definition shadowToString (shadow : ref) : M string :=
  match shadow with
  | Str s => ret s
  | Ptr _ =>
      do! x := getProp shadow "offsetX" in do! offsetX := orElse x "0px" in
      do! y := getProp shadow "offsetY" in do! offsetY := orElse y "0px" in
      do! b := getProp shadow "blur" in do! blur := orElse b "0px" in
      do! s := getProp shadow "spread" in do! spread := orElse s "0px" in
      do! c := getProp shadow "color" in do! color := orElse c "transparent" in
      ret (offsetX +:+ " " +:+ offsetY +:+ " " +:+ blur +:+ " " +:+ spread
             +:+ " " +:+ color)
  | _ => ret "none"
  end.

Definition elementsOf (c : cell) : list ref :=
  map snd (filter (fun kv => is_Some (Str.arrayIndex (fst kv))) (props c)).

Definition processShadowValue (value : ref) : M ref :=
  match value with
  | Ptr l =>
      do! c := load l in
      if isArray c then
        do! rendered := mapM shadowToString (elementsOf c) in
        ret (Str (Str.join ", " rendered))
      else ret value
  | _ => ret value
  end.

(** [flattenTokens]; [fuel] bounds the depth of the recursion, which
    follows the pointers of the heap. *)
Fixpoint flattenTokens (fuel : nat) (tokens : ref) (prefix : string)
    (result allTokens : ref) : M ref :=
  match fuel with
  | O => outOfFuel
  | S fuel =>
      do! entries := objectEntries tokens in
      do! _ := forEach
        (fun entry : string * ref =>
           let key := fst entry in
           let value := snd entry in
           let newKey :=
             if negb (String.eqb prefix "") then prefix +:+ "-" +:+ key else key in
           do! t := getProp value "$type" in
           do! v := (if truthy t then getProp value "$value" else ret t) in
           if truthy v then
             if isString "color" t then
               do! v := getProp value "$value" in
               do! r := resolveColorReference v allTokens 0 in
               setProp result newKey r
             else if isString "shadow" t then
               do! v := getProp value "$value" in
               do! r := processShadowValue v in
               setProp result newKey r
             else
               do! v := getProp value "$value" in
               setProp result newKey v
           else if String.eqb (typeof value) "object" then
             do! _ := flattenTokens fuel value newKey result allTokens in ret tt
           else ret tt)
        entries in
      ret result
  end.

(** The call with the default [result = {}]. *)
Definition flattenTokensFresh (fuel : nat) (tokens : ref) (prefix : string)
    (allTokens : ref) : M ref :=
  do! l := alloc (Cell false []) in
  flattenTokens fuel tokens prefix (Ptr l) allTokens.

(** [resolveCSSReferences] *)
Fixpoint lookupPath (value : ref) (parts : list string) : M (option ref) :=
  match parts with
  | [] => ret (Some value)
  | part :: rest =>
      do! next := andProp value part in
      if negb (truthy next) then
        if Str.includes "-" part then
          let pieces := Str.split "-" part in
          let parent := nth 0 pieces "undefined" in
          let child := nth 1 pieces "undefined" in
          do! p := getProp value parent in
          do! c := andProp p child in
          if truthy c then
            do! p := getProp value parent in
            do! c := getProp p child in
            lookupPath c rest
          else ret None
        else ret None
      else
        do! next := getProp value part in
        lookupPath next rest
  end.

Definition replaceMatch (self : string -> M string) (allTokens : ref)
    (reference : string) : M string :=
  let matched := "{" +:+ reference +:+ "}" in
  do! found := lookupPath allTokens (Str.split "." reference) in
  match found with
  | None => ret matched
  | Some value =>
      do! v := andProp value "$value" in
      if truthy value && negb (String.eqb (typeof v) "undefined") then
        match asReference v with
        | Some text => self text
        | None => stringOf v
        end
      else if Str.startsWith "--" reference
      then ret ("var(" +:+ reference +:+ ")")
      else if String.eqb (typeof value) "string" then
        match asReference value with
        | Some text => self text
        | None => stringOf value
        end
      else ret matched
  end.

Fixpoint replaceAll (callback : string -> M string) (skip : nat) (css : string)
  : M string :=
  match css with
  | "" => ret ""
  | String c rest =>
      match skip with
      | S skip => replaceAll callback skip rest
      | O =>
          match matchAt css with
          | Some reference =>
              do! replacement := callback reference in
              do! out := replaceAll callback (String.length reference + 1) rest in
              ret (replacement +:+ out)
          | None =>
              do! out := replaceAll callback 0 rest in
              ret (String c out)
          end
      end
  end.

Fixpoint resolveCSSReferences (fuel : nat) (css : string) (allTokens : ref)
  : M string :=
  match fuel with
  | O => outOfFuel
  | S fuel =>
      replaceAll
        (replaceMatch (fun text => resolveCSSReferences fuel text allTokens) allTokens)
        0 css
  end.
End engine.

End Mem.

(** ** Vocabulary of the specification *)

(** A token leaf as the documents write it. *)
Definition token (type : string) (value : js) : js :=
  JObj [("$type", JStr type); ("$value", value)].

(** A link of a reference chain: the value that the reference [value] names
    in the store, when the resolver goes on from it (lines 57-58 and
    65-66).  This is the step of the code; [linkOf] below is the link of the
    store, which the code follows ([linkOf_follow]). *)
Definition follow (allTokens value : js) : option js :=
  match value with
  | JStr s =>
      if Str.startsWith "{" s && Str.endsWith "}" s then
        match walkPath allTokens [] (Str.split "." (Str.slice 1 (-1) s)) with
        | inl _ => None
        | inr current =>
            if truthy current && truthy (getProp current "$value")
            then Some (getProp current "$value")
            else if truthy current && isString "color" (getProp current "$type")
            then None
            else if String.eqb (typeof current) "string" then Some current
            else None
        end
      else None
  | _ => None
  end.

(** A chain of [n] links from [value]. *)
Fixpoint followN (allTokens : js) (n : nat) (value : js) : option js :=
  match n with
  | O => Some value
  | S n =>
      match follow allTokens value with
      | Some next => followN allTokens n next
      | None => None
      end
  end.

(** The store [{t0: {t1}, t1: {t2}, ..., tn: #fff}] of color tokens: the
    reference [{t0}] heads a chain of [n + 1] links. *)
Fixpoint chainEntries (i : N) (n : nat) : list (string * js) :=
  match n with
  | O => [("t" +:+ Str.ofN i, token "color" (JStr "#fff"))]
  | S n =>
      ("t" +:+ Str.ofN i, token "color" (JStr ("{t" +:+ Str.ofN (N.succ i) +:+ "}")))
        :: chainEntries (N.succ i) n
  end.

Definition chainStore (n : nat) : js := JObj (chainEntries 0 n).




(** The leaf test of line 109. *)
Definition isLeaf (value : js) : bool :=
  truthy (getProp value "$type") && truthy (getProp value "$value").

(** No [null] (or [undefined]) anywhere in a value. *)
Fixpoint nullFree (v : js) : bool :=
  match v with
  | JUndefined | JNull => false
  | JBool _ | JNum _ | JStr _ => true
  | JArr elements => forallb nullFree elements
  | JObj fields => forallb (fun kv => nullFree (snd kv)) fields
  end.

(** The keys of the leaves of a namespace in the order of the depth-first
    traversal, each as often as it is met. *)
Definition entryKeys (recur : string -> list string) (prefix key : string)
    (value : js) : list string :=
  if isLeaf value then [newKey prefix key]
  else if String.eqb (typeof value) "object" then recur (newKey prefix key)
  else [].

Section keyLoops.
Context {A : Type} (body : string -> A -> list string).

Fixpoint keysOfEntries (entries : list (string * A)) : list string :=
  match entries with
  | [] => []
  | (key, value) :: rest => body key value ++ keysOfEntries rest
  end.

Fixpoint keysOfElements (i : N) (elements : list A) : list string :=
  match elements with
  | [] => []
  | value :: rest => body (Str.ofN i) value ++ keysOfElements (N.succ i) rest
  end.
End keyLoops.

Fixpoint emittedKeys (tokens : js) (prefix : string) : list string :=
  match tokens with
  | JObj fields =>
      keysOfEntries
        (fun key value => entryKeys (emittedKeys value) prefix key value) fields
  | JArr elements =>
      keysOfElements
        (fun key value => entryKeys (emittedKeys value) prefix key value) 0%N elements
  | _ => []
  end.

(** A list of keys without its repetitions, each key at the place of its
    first occurrence. *)
Definition addKey (seen : list string) (k : string) : list string :=
  if existsb (String.eqb k) seen then seen else seen ++ [k].

Definition firstOccurrences (l : list string) : list string :=
  fold_left addKey l [].

(** The enumeration order of an object, on its keys alone: what
    [Object.keys] lists after the keys have been assigned one by one. *)
Fixpoint insertKey (i : N) (k : string) (ks : list string) : list string :=
  match ks with
  | [] => [k]
  | k' :: rest =>
      match Str.arrayIndex k' with
      | Some j => if (j <? i)%N then k' :: insertKey i k rest else k :: ks
      | None => k :: ks
      end
  end.

Definition setKey (ks : list string) (k : string) : list string :=
  if existsb (String.eqb k) ks then ks
  else match Str.arrayIndex k with
       | Some i => insertKey i k ks
       | None => ks ++ [k]
       end.

(** The order in which an object enumerates two of its keys: array indices
    by their numeric value, and before every other key. *)
Definition keyBefore (a b : string) : Prop :=
  match Str.arrayIndex a, Str.arrayIndex b with
  | Some i, Some j => (i < j)%N
  | Some _, None => True
  | None, Some _ => False
  | None, None => True
  end.

Definition enumerationOrder (ks : list string) : Prop := StronglySorted keyBefore ks.

(** The namespace [{1: {a: red}, 2: blue}] and the shadow component
    [{offsetX: 0, offsetY: 4, color: red}]. *)
Definition indexKeyNamespace : js :=
  JObj [("1", JObj [("a", token "color" (JStr "red"))]);
        ("2", token "color" (JStr "blue"))].


(** ** Vocabulary of the Text-Reference Rewriter *)

Fixpoint noBraces (s : string) : bool :=
  match s with
  | "" => true
  | String c s' => negb (isBrace c) && noBraces s'
  end.

(** The groups of the matches of the pattern in a text, from left to right
    ([skip] as in [replaceAll]). *)
Fixpoint matches (skip : nat) (css : string) : list string :=
  match css with
  | "" => []
  | String c rest =>
      match skip with
      | S skip => matches skip rest
      | O =>
          match matchAt css with
          | Some reference => reference :: matches (String.length reference + 1) rest
          | None => matches 0 rest
          end
      end
  end.

(** The reference graph of a store: [reference] refers to [next] when the
    rewriter, on [{reference}], goes on with a text in which [{next}]
    occurs. *)
Definition refersTo (allTokens : js) (reference next : string) : Prop :=
  exists text, actionFor allTokens reference = Recurse text /\ In next (matches 0 text).

(** The graph is acyclic below [reference]: no chain of references from it
    goes on for ever. *)
Definition acyclicFrom (allTokens : js) (reference : string) : Prop :=
  Acc (fun next reference => refersTo allTokens reference next) reference.

(** A chain of [n + 1] steps of the callback from [{reference}] to the text
    [final]: [n] steps that go on with the reference to the next one, then
    a step that finishes with [final].  The chains of tokens of the store
    ([storeChain] below) are such chains ([storeChain_cssChain]). *)
Fixpoint cssChain (allTokens : js) (n : nat) (reference final : string) : Prop :=
  match n with
  | O => actionFor allTokens reference = Finish (ret final)
  | S n =>
      exists next,
        actionFor allTokens reference = Recurse ("{" +:+ next +:+ "}")
        /\ next <> "" /\ noBraces next = true
        /\ cssChain allTokens n next final
  end.

(** No string of the form [{...}] anywhere in a value. *)
Fixpoint inert (v : js) : bool :=
  match v with
  | JStr s => negb (Str.startsWith "{" s && Str.endsWith "}" s)
  | JArr elements => forallb inert elements
  | JObj fields => forallb (fun kv => inert (snd kv)) fields
  | _ => true
  end.

(** The store of the fourth testable property of the specification. *)
Definition fooBarStore : js :=
  JObj [("foo", JObj [("bar", token "color" (JStr "#fff"))])].

(** [settled n text]: with [n] units of fuel the rewriting of [text]
    finishes, and more fuel does not change its result. *)
Definition settled (allTokens : js) (n : nat) (text : string) : Prop :=
  fst (resolveCSSReferences n text allTokens) <> OutOfFuel
  /\ forall fuel, (n <= fuel)%nat ->
       resolveCSSReferences fuel text allTokens = resolveCSSReferences n text allTokens.

Definition settledMatch (allTokens : js) (n : nat) (reference : string) : Prop :=
  fst (replaceMatch (fun text => resolveCSSReferences n text allTokens)
         allTokens reference) <> OutOfFuel
  /\ forall fuel, (n <= fuel)%nat ->
       replaceMatch (fun text => resolveCSSReferences fuel text allTokens)
         allTokens reference
       = replaceMatch (fun text => resolveCSSReferences n text allTokens)
           allTokens reference.

(** ** Vocabulary of the heap model *)

(** A computation that leaves the heap as it found it. *)
Definition readsOnly {A} (m : Mem.M A) : Prop := forall h, snd (m h) = h.

(** A computation that leaves the cell at [l] as it found it. *)
Definition keeps {A} (l : Mem.loc) (m : Mem.M A) : Prop :=
  forall h, snd (m h) !! l = h !! l.

(** The store [{a: #fff, b: {a}}] as a tree, and as a heap: the store is
    the object at 0, its tokens are the objects at 1 and 2, and the object
    at 3 is empty. *)
Definition sampleStore : js :=
  JObj [("a", token "color" (JStr "#fff")); ("b", token "color" (JStr "{a}"))].

Definition sampleHeap : Mem.heap :=
  {[ 0%nat := Mem.Cell false [("a", Mem.Ptr 1); ("b", Mem.Ptr 2)];
     1%nat := Mem.Cell false [("$type", Mem.Str "color"); ("$value", Mem.Str "#fff")];
     2%nat := Mem.Cell false [("$type", Mem.Str "color"); ("$value", Mem.Str "{a}")];
     3%nat := Mem.Cell false [] ]}.

(** [String(v)] on the values of the sample heap. *)
Definition sampleToString (h : Mem.heap) (v : Mem.ref) : string :=
  match v with
  | Mem.Str s => s
  | Mem.Num n => Str.ofZ n
  | _ => "[object Object]"
  end.

(** ** Declarations: [generateCSSVariables] *)

Definition newline : string := String "010"%char "".

(** Line 189: the declaration that one entry of the flattened object
    contributes. *)
Definition declaration (key : string) (value : js) : string :=
  "  --" +:+ key +:+ ": " +:+ toString value +:+ ";" +:+ newline.

(** [generateCSSVariables(tokens)] (lines 185-193), on the object that
    [flattenTokens] returned. *)
Definition generateCSSVariables (tokens : obj) : string :=
  fold_left (fun css kv => css +:+ declaration (fst kv) (snd kv)) tokens "".

(** ** The store: [Object.assign] and [loadAllTokens] *)

Fixpoint indexed (i : N) (elements : list js) : list (string * js) :=
  match elements with
  | [] => []
  | value :: rest => (Str.ofN i, value) :: indexed (N.succ i) rest
  end.

Fixpoint characters (s : string) : list js :=
  match s with
  | "" => []
  | String c s' => JStr (String c "") :: characters s'
  end.

(** The own enumerable properties of a parsed document, in enumeration
    order: the fields of an object, the indexed elements of an array, the
    characters of a string; the other values have none. *)
Definition ownEntries (source : js) : list (string * js) :=
  match source with
  | JObj fields => fields
  | JArr elements => indexed 0 elements
  | JStr s => indexed 0 (characters s)
  | _ => []
  end.

(** [Object.assign(target, source)]: the own properties of the source are
    assigned to the target one by one, by [setProp] and within its limit: a
    source with a key [__proto__] is outside the model. *)
Definition objectAssign (target : obj) (source : js) : obj :=
  fold_left (fun o kv => setProp o (fst kv) (snd kv)) (ownEntries source) target.

(** What a call of the generator can end with besides a value: a
    [TypeError], the error of a file that cannot be read or parsed, or the
    error of a directory that cannot be listed. *)
Inductive failure : Type :=
| TypeFailure
| ReadFailure (file : string)
| ListFailure.

Definition Load (A : Type) : Type := failure + A.

Definition bindLoad {A B} (m : Load A) (f : A -> Load B) : Load B :=
  match m with
  | inl e => inl e
  | inr a => f a
  end.

Notation "'let?' x := m 'in' k" := (bindLoad m (fun x => k))
  (at level 10, x name, m at level 100, k at level 200).

(** [v.k]: the read throws on [null] and [undefined]. *)
Definition member (v : js) (k : string) : Load js :=
  if isNullish v then inl TypeFailure else inr (getProp v k).

(** [Object.keys(v)] *)
Definition objectKeys (v : js) : Load (list string) :=
  if isNullish v then inl TypeFailure else inr (map fst (ownEntries v)).

(** What [for (const x of v)] iterates over: the elements of an array, the
    characters of a string; no other value of a parsed document is
    iterable. *)
Definition iterate (v : js) : Load (list js) :=
  match v with
  | JArr elements => inr elements
  | JStr s => inr (characters s)
  | _ => inl TypeFailure
  end.

Section loading.
(** The token directory: [directory name] is the document that the file
    [name] parses to, [None] when reading or parsing it throws. *)
Variable directory : string -> option js.

(** [readTokenFile(filePath)] (lines 24-27); [path.join] rejects a path
    that is not a string. *)
Definition readTokenFile (filePath : js) : Load js :=
  match filePath with
  | JStr name =>
      match directory name with
      | Some tokens => inr tokens
      | None => inl (ReadFailure name)
      end
  | _ => inl TypeFailure
  end.

(** The inner loop of lines 411-414 (and 420-423, 429-432, 439-442). *)
Fixpoint loadFiles (fileList : list js) (allTokens : obj) : Load obj :=
  match fileList with
  | [] => inr allTokens
  | file :: rest =>
      let? tokens := readTokenFile file in
      loadFiles rest (objectAssign allTokens tokens)
  end.

(** The outer loop of lines 409-415 over the names of the modes. *)
Fixpoint loadModes (modes : js) (names : list string) (allTokens : obj) : Load obj :=
  match names with
  | [] => inr allTokens
  | name :: rest =>
      let? fileList := iterate (getProp modes name) in
      let? allTokens := loadFiles fileList allTokens in
      loadModes modes rest allTokens
  end.

(** One of the four blocks of [loadAllTokens], on a collection of the
    manifest. *)
Definition loadCollection (collection : js) (allTokens : obj) : Load obj :=
  let? modes := member collection "modes" in
  let? names := objectKeys modes in
  loadModes modes names allTokens.

(** [loadAllTokens(manifest)] (lines 405-447). *)
Definition loadAllTokens (manifest : js) : Load obj :=
  let? collections := member manifest "collections" in
  let? palette := member collections "palette" in
  let? allTokens := loadCollection palette [] in
  let? theme := member collections "theme" in
  let? allTokens := loadCollection theme allTokens in
  let? token := member collections "token" in
  let? allTokens := loadCollection token allTokens in
  let? effect := member collections "effect" in
  if negb (isNullish effect) && truthy (getProp effect "modes")
  then loadCollection effect allTokens
  else inr allTokens.
End loading.

(** ** Generation: effects *)

(** A section generator reads files, flattens and prints: it ends with a
    text, with a failure, or (in the model only) without fuel, and emits the
    diagnostics of the engine on the way. *)
Inductive ended (A : Type) : Type :=
| Completed (a : A)
| Failed (e : failure)
| Unfinished.
Arguments Completed {A} a.
Arguments Failed {A} e.
Arguments Unfinished {A}.

Definition Gen (A : Type) : Type := ended A * list diag.

Definition retGen {A} (a : A) : Gen A := (Completed a, []).

Definition bindGen {A B} (m : Gen A) (f : A -> Gen B) : Gen B :=
  match m with
  | (Completed a, w) => let '(r, w') := f a in (r, w ++ w')
  | (Failed e, w) => (Failed e, w)
  | (Unfinished, w) => (Unfinished, w)
  end.

Notation "'let+' x := m 'in' k" := (bindGen m (fun x => k))
  (at level 10, x name, m at level 100, k at level 200).

Definition ofLoad {A} (m : Load A) : Gen A :=
  match m with
  | inr a => (Completed a, [])
  | inl e => (Failed e, [])
  end.

Definition ofEff {A} (m : Eff A) : Gen A :=
  match m with
  | (Returned a, w) => (Completed a, w)
  | (TypeError, w) => (Failed TypeFailure, w)
  | (OutOfFuel, w) => (Unfinished, w)
  end.

(** ** Generation: the palette loops *)

Definition quote : string := String "034"%char "".

(** The body of the loop of lines 216-220, and of the other loops of that
    shape (lines 225-288 and 492-515): a color entry adds a declaration of
    its [$value], as it is. *)
Definition paletteEntry (name : string) (css shade : string) (value : js) : Eff string :=
  if isNullish value then throw
  else if isString "color" (getProp value "$type")
  then ret (css +:+ "  --" +:+ name +:+ "-" +:+ shade +:+ ": "
              +:+ toString (getProp value "$value") +:+ ";" +:+ newline)
  else ret css.

Fixpoint paletteEntries (name : string) (entries : list (string * js)) (css : string)
  : Eff string :=
  match entries with
  | [] => ret css
  | (shade, value) :: rest =>
      let! css := paletteEntry name css shade value in
      paletteEntries name rest css
  end.

(** [if (group) { for (const [shade, value] of Object.entries(group)) ... }] *)
Definition paletteDeclarations (name : string) (group : js) (css : string) : Eff string :=
  if truthy group then paletteEntries name (ownEntries group) css else ret css.

(** Lines 280-290: the loop over the four alpha groups. *)
Fixpoint alphaDeclarations (alpha : js) (colorNames : list string) (css : string)
  : Eff string :=
  match colorNames with
  | [] => ret css
  | colorName :: rest =>
      let! css := paletteDeclarations ("alpha-" +:+ colorName) (getProp alpha colorName) css in
      alphaDeclarations alpha rest css
  end.

(** [s.includes(sub)] *)
Fixpoint includesText (sub s : string) : bool :=
  String.prefix sub s
  || match s with
     | "" => false
     | String _ s' => includesText sub s'
     end.

(** Lines 303-311. *)
Definition themeKey (themeName : string) : string :=
  if includesText "💙" themeName then "blue"
  else if includesText "💜" themeName then "purple"
  else if includesText "🧡" themeName then "orange"
  else if includesText "🩵" themeName then "sky"
  else "blue".

(** ** Size sets: the file names of [generateSizeSetCSS] *)

(** [s.replace(pattern, "")] with a string pattern: the first occurrence of
    the pattern is removed. *)
Fixpoint removeFirst (pattern s : string) : string :=
  if String.prefix pattern s
  then substring (String.length pattern) (String.length s - String.length pattern) s
  else match s with
       | "" => ""
       | String c s' => String c (removeFirst pattern s')
       end.

(** The filter of line 381. *)
Definition isSizeSetFile (file : string) : bool :=
  Str.startsWith "set." file && Str.endsWith ".tokens.json" file.

(** Line 386, and the prefix of line 392. *)
Definition setName (file : string) : string :=
  removeFirst ".tokens.json" (removeFirst "set." file).

Definition sizeSetPrefix (file : string) : string := "set-" +:+ setName file.

(** ** Generation: the sections and [generateCSS] *)

Section generation.
(** The environment of a run: the token directory, its listing
    ([fs.readdirSync], [None] when it throws) and the manifest
    ([readManifest], [None] when it throws). *)
Variable directory : string -> option js.
Variable listing : option (list string).
Variable manifestFile : option js.

Definition readIn (filePath : js) : Gen js := ofLoad (readTokenFile directory filePath).

Definition get (v : js) (k : string) : Gen js := ofLoad (member v k).

(** [generateCSSVariables(flattenTokens(tokens, prefix, {}, allTokens))] *)
Definition declarations (tokens : js) (prefix : string) (allTokens : obj) : Gen string :=
  let+ flattened := ofEff (flattenTokens tokens prefix [] (JObj allTokens)) in
  retGen (generateCSSVariables flattened).

(** The loop of lines 296-320 over the themes of the manifest. *)
Fixpoint themeBlocks (themes : list (string * js)) (allTokens : obj) (css : string)
  : Gen string :=
  match themes with
  | [] => retGen css
  | (themeName, files) :: rest =>
      let+ themeFile := get files "0" in
      let+ theme := readIn themeFile in
      let css := css +:+ "/* " +:+ themeName +:+ " */" +:+ newline in
      let css := css +:+ "[data-theme-color=" +:+ quote +:+ themeKey themeName +:+ quote
                   +:+ "] {" +:+ newline in
      let+ flattenedTheme := declarations theme "" allTokens in
      let css := css +:+ flattenedTheme in
      themeBlocks rest allTokens (css +:+ "}" +:+ newline +:+ newline)
  end.

(** [generateThemeColorCSS(manifest)] (lines 196-323). *)
Definition generateThemeColorCSS (manifest : js) : Gen string :=
  let css := "/* 主题色变量 */" +:+ newline +:+ ":root {" +:+ newline in
  let+ collections := get manifest "collections" in
  let+ theme := get collections "theme" in
  let+ modes := get theme "modes" in
  let+ blue := get modes "💙 Blue" in
  let+ blueThemeFile := get blue "0" in
  let+ blueTheme := readIn blueThemeFile in
  let+ allTokens := ofLoad (loadAllTokens directory manifest) in
  let+ flattenedTokens := declarations blueTheme "" allTokens in
  let css := css +:+ flattenedTokens in
  let css := css +:+ newline
               +:+ "  /* 状态颜色 - 这些颜色在所有主题中保持一致 */" +:+ newline in
  let+ palette := get collections "palette" in
  let+ paletteModes := get palette "modes" in
  let+ brand := get paletteModes "brand" in
  let+ brandPaletteFile := get brand "0" in
  let+ brandPalette := readIn brandPaletteFile in
  let+ red := get brandPalette "red" in
  let+ css := ofEff (paletteDeclarations "red" red css) in
  let+ css := ofEff (paletteDeclarations "green" (getProp brandPalette "green") css) in
  let+ css := ofEff (paletteDeclarations "yellow" (getProp brandPalette "yellow") css) in
  let+ css := ofEff (paletteDeclarations "blue" (getProp brandPalette "blue") css) in
  let+ css := ofEff (paletteDeclarations "sky" (getProp brandPalette "sky") css) in
  let+ css := ofEff (paletteDeclarations "purple" (getProp brandPalette "purple") css) in
  let+ css := ofEff (paletteDeclarations "orange" (getProp brandPalette "orange") css) in
  let+ css :=
    if truthy (getProp brandPalette "alpha") then
      ofEff (alphaDeclarations (getProp brandPalette "alpha")
               ["blue"; "purple"; "orange"; "sky"]
               (css +:+ newline +:+ "  /* 透明色 */" +:+ newline))
    else retGen css in
  let css := css +:+ "}" +:+ newline +:+ newline in
  themeBlocks (ownEntries modes) allTokens css.

(** [generateLightModeCSS(manifest)] (lines 326-339). *)
Definition generateLightModeCSS (manifest : js) : Gen string :=
  let css := "/* 亮色模式变量 */" +:+ newline +:+ ":root {" +:+ newline in
  let+ collections := get manifest "collections" in
  let+ token := get collections "token" in
  let+ modes := get token "modes" in
  let+ light := get modes "light" in
  let+ lightTokenFile := get light "0" in
  let+ lightTokens := readIn lightTokenFile in
  let+ allTokens := ofLoad (loadAllTokens directory manifest) in
  let+ flattenedTokens := declarations lightTokens "" allTokens in
  retGen (css +:+ flattenedTokens +:+ "}" +:+ newline).

(** [generateDarkModeCSS(manifest)] (lines 342-355). *)
Definition generateDarkModeCSS (manifest : js) : Gen string :=
  let css := "/* 暗色模式变量 */" +:+ newline
               +:+ "[data-theme-mode=" +:+ quote +:+ "dark" +:+ quote +:+ "] {" +:+ newline in
  let+ collections := get manifest "collections" in
  let+ token := get collections "token" in
  let+ modes := get token "modes" in
  let+ dark := get modes "dark" in
  let+ darkTokenFile := get dark "0" in
  let+ darkTokens := readIn darkTokenFile in
  let+ allTokens := ofLoad (loadAllTokens directory manifest) in
  let+ flattenedTokens := declarations darkTokens "" allTokens in
  retGen (css +:+ flattenedTokens +:+ "}" +:+ newline).

(** [generateEffectStylesCSS(manifest)] (lines 358-372). *)
Definition generateEffectStylesCSS (manifest : js) : Gen string :=
  let css := "/* 效果样式变量 */" +:+ newline +:+ ":root {" +:+ newline in
  let+ effectStyles := readIn (JStr "effect.styles.tokens.json") in
  let+ allTokens := ofLoad (loadAllTokens directory manifest) in
  let+ flattenedTokens := declarations effectStyles "effect" allTokens in
  retGen (css +:+ flattenedTokens +:+ "}" +:+ newline).

(** The loop of lines 385-398 over the size-set files. *)
Fixpoint sizeSets (sizeSetFiles : list string) (allTokens : obj) (css : string)
  : Gen string :=
  match sizeSetFiles with
  | [] => retGen css
  | file :: rest =>
      let+ setTokens := readIn (JStr file) in
      let+ flattenedTokens := declarations setTokens (sizeSetPrefix file) allTokens in
      sizeSets rest allTokens (css +:+ flattenedTokens +:+ newline)
  end.

(** [generateSizeSetCSS(manifest)] (lines 375-402). *)
Definition generateSizeSetCSS (manifest : js) : Gen string :=
  let css := "/* 尺寸集合变量 */" +:+ newline +:+ ":root {" +:+ newline in
  match listing with
  | None => (Failed ListFailure, [])
  | Some names =>
      let sizeSetFiles := List.filter isSizeSetFile names in
      let+ allTokens := ofLoad (loadAllTokens directory manifest) in
      let+ css := sizeSets sizeSetFiles allTokens css in
      retGen (css +:+ "}" +:+ newline)
  end.

(** [generatePaletteCSS(manifest)] (lines 480-522). *)
Definition generatePaletteCSS (manifest : js) : Gen string :=
  let+ collections := get manifest "collections" in
  let+ palette := get collections "palette" in
  let+ modes := get palette "modes" in
  let+ brand := get modes "brand" in
  let+ brandPaletteFile := get brand "0" in
  let+ brandPalette := readIn brandPaletteFile in
  let css := "/* 品牌色 */" +:+ newline in
  let css := css +:+ "[data-palette-type=" +:+ quote +:+ "brand" +:+ quote +:+ "] {"
               +:+ newline in
  let+ neutral := get brandPalette "neutral" in
  let+ css := ofEff (paletteDeclarations "neutral" neutral css) in
  let css := css +:+ newline +:+ "  /* 其他品牌色... */" +:+ newline in
  let css := css +:+ "}" +:+ newline +:+ newline in
  let+ neutralModes := get modes "neutral" in
  let+ neutralPaletteFile := get neutralModes "0" in
  let+ neutralPalette := readIn neutralPaletteFile in
  let css := css +:+ "/* 中性色 */" +:+ newline in
  let css := css +:+ "[data-palette-type=" +:+ quote +:+ "neutral" +:+ quote +:+ "] {"
               +:+ newline in
  let+ neutral := get neutralPalette "neutral" in
  let+ css := ofEff (paletteDeclarations "neutral" neutral css) in
  let css := css +:+ newline +:+ "  /* 其他中性色... */" +:+ newline in
  retGen (css +:+ "}" +:+ newline).

(** [generateCSS()] (lines 450-477); [fuel] is that of the final pass. *)
Definition generateCSS (fuel : nat) : Gen string :=
  match manifestFile with
  | None => (Failed (ReadFailure "manifest.json"), [])
  | Some manifest =>
      let+ themeColor := generateThemeColorCSS manifest in
      let+ lightMode := generateLightModeCSS manifest in
      let+ darkMode := generateDarkModeCSS manifest in
      let+ palette := generatePaletteCSS manifest in
      let+ effectStyles := generateEffectStylesCSS manifest in
      let+ sizeSet := generateSizeSetCSS manifest in
      let css := "" +:+ themeColor +:+ lightMode +:+ darkMode +:+ palette
                   +:+ effectStyles +:+ sizeSet in
      let+ allTokens := ofLoad (loadAllTokens directory manifest) in
      ofEff (resolveCSSReferences fuel css (JObj allTokens))
  end.
End generation.

(** ** Vocabulary of the store *)

(** Every property of the store is a top-level property of a document of
    the directory, with the value that the document gives it. *)
Definition fromDocuments (directory : string -> option js) (store : obj) : Prop :=
  forall k v,
    assoc k store = Some v ->
    exists name tokens, directory name = Some tokens /\ In (k, v) (ownEntries tokens).

(** What a run of the loader may end with: a store made of the documents,
    the failure of a file that cannot be read, or a [TypeError]. *)
Definition loadedWell (directory : string -> option js) (result : Load obj) : Prop :=
  match result with
  | inr store => fromDocuments directory store
  | inl (ReadFailure name) => directory name = None
  | inl _ => True
  end.

(** The first file of a list of files of the manifest names a document
    that can be read. *)
Definition firstFileReadable (directory : string -> option js) (files : js) : Prop :=
  exists name tokens, getProp files "0" = JStr name /\ directory name = Some tokens.

(** No key of the store begins with a line feed. *)
Definition plainKeys (fields : list (string * js)) : Prop :=
  Forall (fun kv => Str.startsWith newline (fst kv) = false) fields.

(** The leaves of a namespace with the keys under which they are emitted,
    in the order of the depth-first traversal. *)
Definition entryLeaves (recur : string -> list (string * js)) (prefix key : string)
    (value : js) : list (string * js) :=
  if isLeaf value then [(newKey prefix key, value)]
  else if String.eqb (typeof value) "object" then recur (newKey prefix key)
  else [].

Section leafLoops.
Context {A : Type} (body : string -> A -> list (string * js)).

Fixpoint leavesOfEntries (entries : list (string * A)) : list (string * js) :=
  match entries with
  | [] => []
  | (key, value) :: rest => body key value ++ leavesOfEntries rest
  end.

Fixpoint leavesOfElements (i : N) (elements : list A) : list (string * js) :=
  match elements with
  | [] => []
  | value :: rest => body (Str.ofN i) value ++ leavesOfElements (N.succ i) rest
  end.
End leafLoops.

Fixpoint emittedLeaves (tokens : js) (prefix : string) : list (string * js) :=
  match tokens with
  | JObj fields =>
      leavesOfEntries
        (fun key value => entryLeaves (emittedLeaves value) prefix key value) fields
  | JArr elements =>
      leavesOfElements
        (fun key value => entryLeaves (emittedLeaves value) prefix key value) 0%N elements
  | _ => []
  end.

(** The assignment that a leaf causes, and the diagnostics of a list of
    leaves. *)
Definition assignLeaf (allTokens : js) (result : obj) (leaf : string * js) : obj :=
  setProp result (fst leaf) (fst (materialize (snd leaf) allTokens)).

Definition leafDiagnostics (allTokens : js) (leaves : list (string * js)) : list diag :=
  flat_map (fun leaf => snd (materialize (snd leaf) allTokens)) leaves.




(** The strings of the form [{...}] that a value holds. *)
Fixpoint referenceTexts (v : js) : list string :=
  match v with
  | JStr s => if Str.startsWith "{" s && Str.endsWith "}" s then [s] else []
  | JArr elements => flat_map referenceTexts elements
  | JObj fields => flat_map (fun kv => referenceTexts (snd kv)) fields
  | _ => []
  end.

(** A section of the style sheet, as the sample directory gives it. *)
Definition sampleLightSection : string :=
  "/* 亮色模式变量 */" +:+ newline +:+ ":root {" +:+ newline
    +:+ "  --surface: #fff;" +:+ newline +:+ "}" +:+ newline.

(** A small token directory, its manifest and its listing. *)
Definition sampleDirectory (name : string) : option js :=
  if String.eqb name "brand.json" then
    Some (JObj [("blue", JObj [("500", token "color" (JStr "#00f"))]);
                ("neutral", JObj [("100", token "color" (JStr "#eee"))])])
  else if String.eqb name "neutral.json" then
    Some (JObj [("neutral", JObj [("900", token "color" (JStr "#111"))]);
                ("gray", JStr "#888")])
  else if String.eqb name "blue.json" then
    Some (JObj [("primary", token "color" (JStr "{blue.500}"))])
  else if String.eqb name "light.json" then
    Some (JObj [("surface", token "color" (JStr "#fff"))])
  else if String.eqb name "dark.json" then
    Some (JObj [("surface", token "color" (JStr "#000"))])
  else if String.eqb name "effect.styles.tokens.json" then
    Some (JObj [("blur", token "dimension" (JStr "4px"))])
  else if String.eqb name "set.size.tokens.json" then
    Some (JObj [("sm", token "dimension" (JStr "{gray}"))])
  else None.

Definition sampleManifest : js :=
  JObj [("collections",
         JObj [("palette",
                JObj [("modes", JObj [("brand", JArr [JStr "brand.json"]);
                                      ("neutral", JArr [JStr "neutral.json"])])]);
               ("theme", JObj [("modes", JObj [("💙 Blue", JArr [JStr "blue.json"])])]);
               ("token",
                JObj [("modes", JObj [("light", JArr [JStr "light.json"]);
                                      ("dark", JArr [JStr "dark.json"])])])])].

Definition sampleListing : option (list string) :=
  Some ["manifest.json"; "set.size.tokens.json"].

(** ** Vocabulary of the traversal and of the two resolution paths *)

(** What the loop body of [flattenTokens] needs of an entry in order not to
    throw: the value is not [null], and when the body descends into it, the
    descent does not throw either. *)
Definition entryTraversable (nested : bool) (value : js) : bool :=
  negb (isNullish value)
  && (isLeaf value || negb (String.eqb (typeof value) "object") || nested).

Fixpoint traversable (tokens : js) : bool :=
  match tokens with
  | JUndefined | JNull => false
  | JBool _ | JNum _ | JStr _ => true
  | JArr elements =>
      forallb (fun value => entryTraversable (traversable value) value) elements
  | JObj fields =>
      forallb (fun kv => entryTraversable (traversable (snd kv)) (snd kv)) fields
  end.

(** A reference text on which the resolver and the rewriter read the same
    path: not empty, without braces, and not the name of a custom property. *)
Definition plainReference (reference : string) : bool :=
  negb (String.eqb reference "") && noBraces reference
  && negb (Str.startsWith "--" reference).

(** [linked n reference final]: from [{reference}] the resolver goes through
    [n] references to other tokens and then reaches the string [final],
    which is not a reference. *)
Fixpoint linked (allTokens : js) (n : nat) (reference final : string) : Prop :=
  match n with
  | O =>
      follow allTokens (JStr ("{" +:+ reference +:+ "}")) = Some (JStr final)
      /\ isReference (JStr final) = false
  | S n =>
      exists next,
        follow allTokens (JStr ("{" +:+ reference +:+ "}"))
        = Some (JStr ("{" +:+ next +:+ "}"))
        /\ plainReference next = true
        /\ linked allTokens n next final
  end.

(** ** The limits of the model of property reads *)

(** The names that the built-in prototypes of the values of a parsed
    document define (ECMAScript 2025 with its Annex B): those of
    [Object.prototype], [Array.prototype], [String.prototype],
    [Number.prototype] and [Boolean.prototype].  [length] is left out: a
    string and an array own it, and no other value has it.  When a value
    does not own such a name, the source reads the inherited property (a
    function, an accessor that may throw) where [getProp] answers
    [undefined]; and the assignment [o["__proto__"] = v] goes to the
    inherited setter where [setProp] creates a property.  The properties
    below that depend on such a read or assignment exclude these names. *)
Definition inheritedNames : list string :=
  ["__proto__"; "__defineGetter__"; "__defineSetter__"; "__lookupGetter__";
   "__lookupSetter__"; "constructor"; "hasOwnProperty"; "isPrototypeOf";
   "propertyIsEnumerable"; "toLocaleString"; "toString"; "valueOf";
   "at"; "concat"; "copyWithin"; "entries"; "every"; "fill"; "filter"; "find";
   "findIndex"; "findLast"; "findLastIndex"; "flat"; "flatMap"; "forEach";
   "includes"; "indexOf"; "join"; "keys"; "lastIndexOf"; "map"; "pop"; "push";
   "reduce"; "reduceRight"; "reverse"; "shift"; "slice"; "some"; "sort"; "splice";
   "toReversed"; "toSorted"; "toSpliced"; "unshift"; "values"; "with";
   "anchor"; "big"; "blink"; "bold"; "charAt"; "charCodeAt"; "codePointAt";
   "endsWith"; "fixed"; "fontcolor"; "fontsize"; "isWellFormed"; "italics"; "link";
   "localeCompare"; "match"; "matchAll"; "normalize"; "padEnd"; "padStart";
   "repeat"; "replace"; "replaceAll"; "search"; "small"; "split"; "startsWith";
   "strike"; "sub"; "substr"; "substring"; "sup"; "toLocaleLowerCase";
   "toLocaleUpperCase"; "toLowerCase"; "toUpperCase"; "toWellFormed"; "trim";
   "trimEnd"; "trimLeft"; "trimRight"; "trimStart";
   "toExponential"; "toFixed"; "toPrecision"].

Definition inheritedName (k : string) : bool := existsb (String.eqb k) inheritedNames.

(** No object of the value has a key that is such a name (in particular no
    own [toString] or [valueOf], so that [String(v)] is what [toString]
    gives, and no own [__proto__]). *)
Fixpoint plainNames (v : js) : bool :=
  match v with
  | JArr elements => forallb plainNames elements
  | JObj fields =>
      forallb (fun kv => negb (inheritedName (fst kv)) && plainNames (snd kv)) fields
  | _ => true
  end.

(** No segment of the dotted path is such a name: what the Reference
    Resolver reads on the way is an own property or nothing.  Nor is a
    segment [length] or an index, which on a string count the code units of
    the source and the bytes of the model. *)
Definition safePath (reference : string) : bool :=
  forallb
    (fun part =>
       negb (inheritedName part) && negb (String.eqb part "length")
       && match Str.arrayIndex part with
          | Some _ => false
          | None => true
          end)
    (Str.split "." reference).

(** The references that a value holds are paths of that kind. *)
Definition safeValue (v : js) : bool :=
  forallb (fun s => safePath (Str.slice 1 (-1) s)) (referenceTexts v).

(** The same for the Text-Reference Rewriter, which also reads the two
    pieces of a hyphenated segment. *)
Definition safeSegment (part : string) : bool :=
  let pieces := Str.split "-" part in
  negb (inheritedName part)
  && negb (inheritedName (nth 0 pieces "undefined"))
  && negb (inheritedName (nth 1 pieces "undefined")).

Definition safeMatch (reference : string) : bool :=
  forallb safeSegment (Str.split "." reference).

Definition safeText (text : string) : bool := forallb safeMatch (matches 0 text).

Definition safeStore (allTokens : js) : bool :=
  forallb safeText (referenceTexts allTokens).

(** Every number of the value is an integer that a double holds exactly:
    [toString] prints it as the source does. *)
Fixpoint plainNumbers (v : js) : bool :=
  match v with
  | JNum n => (Z.abs n <=? 2 ^ 53)%Z
  | JArr elements => forallb plainNumbers elements
  | JObj fields => forallb (fun kv => plainNumbers (snd kv)) fields
  | _ => true
  end.

(** A document on which the model of the reads, of the assignments and of
    the printing is what the source does. *)
Definition plainDocument (v : js) : bool :=
  plainNames v && plainNumbers v && safeValue v.

(** ** Vocabulary of the Token Store: chains of references *)

(** The node that a dotted path names in the store: each segment names an
    entry of the namespace reached so far. *)
Fixpoint nodeAt (store : js) (path : list string) : option js :=
  match path with
  | [] => Some store
  | name :: rest =>
      match store with
      | JObj fields =>
          match assoc name fields with
          | Some node => nodeAt node rest
          | None => None
          end
      | _ => None
      end
  end.

(** The value field of a node that has one. *)
Definition valueField (node : js) : option js :=
  match node with
  | JObj fields => assoc "$value" fields
  | _ => None
  end.





(** A value that [toString] prints as [String(v)] does: a number is an
    integer that a double holds exactly, and no object on the way has a
    [toString] entry of its own, which would take the place of the method. *)
Fixpoint printable (v : js) : bool :=
  match v with
  | JNum n => (Z.abs n <=? 2 ^ 53)%Z
  | JArr elements => forallb printable elements
  | JObj fields =>
      match assoc "toString" fields with
      | Some _ => false
      | None => true
      end
  | _ => true
  end.

(** [storeChain store n reference final]: the path [reference] names a
    token; through [n] tokens whose value is the reference to the next one,
    the chain arrives at a token whose value is [final], which is present,
    is no reference and can be printed. *)
Fixpoint storeChain (store : js) (n : nat) (reference : string) (final : js) : Prop :=
  match n with
  | O =>
      exists node,
        nodeAt store (Str.split "." reference) = Some node
        /\ valueField node = Some final
        /\ final <> JUndefined /\ isReference final = false
        /\ printable final = true
  | S n =>
      exists node next,
        nodeAt store (Str.split "." reference) = Some node
        /\ valueField node = Some (JStr ("{" +:+ next +:+ "}"))
        /\ next <> "" /\ noBraces next = true
        /\ storeChain store n next final
  end.

(** * Properties *)

(** ** Reference Resolver *)

(** The recursion equation of the source, on [depth]. *)
Lemma resolveColorReference_eq (value allTokens : js) (depth : nat) :
  resolveColorReference value allTokens depth =
    if (10 <? depth)%nat then (value, [DepthExceeded value])
    else if negb (isReference value) then (value, [])
    else
      let reference := Str.slice 1 (-1) (toString value) in
      match walkPath allTokens [] (Str.split "." reference) with
      | inl path => (value, [RefNotFound reference path])
      | inr current =>
          if truthy current && truthy (getProp current "$value")
          then resolveColorReference (getProp current "$value") allTokens (depth + 1)
          else if truthy current && isString "color" (getProp current "$type")
          then (getProp current "$value", [])
          else if String.eqb (typeof current) "string"
          then resolveColorReference current allTokens (depth + 1)
          else (value, [RefMalformed reference (typeof current)])
      end.
Proof.
  unfold resolveColorReference.
  destruct (Nat.ltb_spec 10 depth) as [Hgt | Hle].
  - replace (11 - depth)%nat with 0%nat by lia. reflexivity.
  - replace (11 - depth)%nat with (S (11 - (depth + 1)))%nat by lia.
    destruct value; try reflexivity.
    cbn [resolveWithin isReference toString].
    destruct (Str.startsWith "{" s), (Str.endsWith "}" s); reflexivity.
Qed.

Lemma resolveWithin_literal (budget : nat) (value allTokens : js) :
  isReference value = false ->
  resolveWithin (S budget) value allTokens = (value, []).
Proof.
  intros Hlit. destruct value; try reflexivity.
  cbn in *. apply andb_false_iff in Hlit as [-> | ->]; cbn; trivial.
  destruct (Str.startsWith "{" s); reflexivity.
Qed.

Lemma resolveWithin_follow (budget : nat) (value next allTokens : js) :
  follow allTokens value = Some next ->
  resolveWithin (S budget) value allTokens = resolveWithin budget next allTokens.
Proof.
  unfold follow. destruct value; try discriminate.
  cbn [resolveWithin].
  destruct (Str.startsWith "{" s), (Str.endsWith "}" s); cbn; try discriminate.
  destruct (walkPath _ _ _) as [path | current]; try discriminate.
  destruct (truthy current && truthy (getProp current "$value")).
  { intros [= <-]. reflexivity. }
  destruct (truthy current && isString "color" (getProp current "$type"));
    try discriminate.
  destruct (String.eqb (typeof current) "string"); try discriminate.
  intros [= <-]. reflexivity.
Qed.

(** A chain shorter than the budget is followed to its end. *)
Lemma resolveWithin_chain (allTokens : js) (n : nat) :
  forall budget value final,
    followN allTokens n value = Some final ->
    isReference final = false ->
    (n < budget)%nat ->
    resolveWithin budget value allTokens = (final, []).
Proof.
  induction n as [| n IH]; intros budget value final Hchain Hlit Hlt.
  - injection Hchain as ->. destruct budget; [lia |].
    now apply resolveWithin_literal.
  - cbn in Hchain. destruct (follow allTokens value) as [next |] eqn:Hf; [| discriminate].
    destruct budget; [lia |].
    rewrite (resolveWithin_follow _ _ _ _ Hf). apply IH; trivial. lia.
Qed.


Lemma followN_prefix (allTokens : js) (m : nat) :
  forall n value final,
    followN allTokens n value = Some final -> (m <= n)%nat ->
    exists reached, followN allTokens m value = Some reached.
Proof.
  induction m as [| m IH]; intros n value final Hchain Hle.
  - now exists value.
  - destruct n; [lia |]. cbn in *.
    destruct (follow allTokens value) as [next |]; [| discriminate].
    apply (IH n next final); trivial. lia.
Qed.

(** *** Chains in the store *)

Lemma getProp_own (fields : list (string * js)) (k : string) (v : js) :
  assoc k fields = Some v -> getProp (JObj fields) k = v.
Proof. intro H. cbn [getProp]. now rewrite H. Qed.

Lemma nodeAt_truthy (child : js) (rest : list string) (node : js) :
  nodeAt child rest = Some node -> truthy node = true -> truthy child = true.
Proof.
  destruct rest as [| part rest]; cbn [nodeAt]; [now intros [= ->] |].
  now destruct child.
Qed.













(** C8.  The resolver is the identity on every value that is not a string of
    the form [{...}]; hence a color leaf whose value is such a literal is
    materialized to that literal, and the Flattener emits it unchanged. *)
Theorem literal_color_unchanged (allTokens : js) :
  (forall value, isReference value = false ->
     resolveColorReference value allTokens 0 = (value, []))
  /\ (forall node s,
        getProp node "$type" = JStr "color" ->
        getProp node "$value" = JStr s ->
        isReference (JStr s) = false ->
        materialize node allTokens = (JStr s, [])
        /\ (s <> "" ->
            forall prefix key result,
              flattenTokens (JObj [(key, node)]) prefix result allTokens
              = ret (setProp result (newKey prefix key) (JStr s)))).
Proof.
  split.
  - intros value Hlit. now apply resolveWithin_literal.
  - intros node s Htype Hvalue Hlit.
    assert (Hm : materialize node allTokens = (JStr s, [])).
    { unfold materialize. rewrite Htype, Hvalue.
      change (isString "color" (JStr "color")) with true. cbv beta iota.
      now apply resolveWithin_literal. }
    split; [exact Hm |].
    intros Hne prefix key result. cbn [flattenTokens forEntries].
    unfold flattenEntry. rewrite Htype, Hvalue, Hm.
    destruct node; try (vm_compute in Htype; discriminate).
    cbn [isNullish truthy negb andb]. cbv beta iota.
    destruct (String.eqb_spec s ""); [contradiction |]. reflexivity.
Qed.

Lemma literal_color_unchanged_witness :
  materialize (token "color" (JStr "#112233")) (JObj []) = (JStr "#112233", []).
Proof.
  apply (literal_color_unchanged (JObj [])); reflexivity.
Defined.

(** ** Shadow values *)






(** ** Effects and strings: the laws the proofs below use *)

Lemma bind_ret_l {A B} (a : A) (f : A -> Eff B) : bind (ret a) f = f a.
Proof. unfold bind, ret. now destruct (f a). Qed.

Lemma bind_ret_r {A} (m : Eff A) : bind m ret = m.
Proof. destruct m as [[a | |] w]; cbn; now rewrite ?app_nil_r. Qed.

Lemma bind_assoc {A B C} (m : Eff A) (f : A -> Eff B) (g : B -> Eff C) :
  bind (bind m f) g = bind m (fun a => bind (f a) g).
Proof.
  destruct m as [[a | |] w]; cbn; trivial.
  destruct (f a) as [[b | |] w']; cbn; trivial.
  destruct (g b) as [r w'']. now rewrite app_assoc.
Qed.

Lemma bind_ext {A B} (m : Eff A) (f g : A -> Eff B) :
  (forall a, f a = g a) -> bind m f = bind m g.
Proof. intros H. destruct m as [[a | |] w]; cbn; trivial. now rewrite H. Qed.

(** Both sides of an equation between computations, bind by bind. *)
Ltac monad_norm :=
  repeat (rewrite ?bind_assoc, ?bind_ret_l;
          try reflexivity;
          first [apply bind_ext; intro | idtac]).

Lemma bind_returned {A B} (m : Eff A) (f : A -> Eff B) (b : B) (w : list diag) :
  bind m f = (Returned b, w) ->
  exists a w1 w2, m = (Returned a, w1) /\ f a = (Returned b, w2) /\ w = w1 ++ w2.
Proof.
  destruct m as [[a | |] w1]; cbn; try discriminate.
  destruct (f a) as [r w2] eqn:Hf. intros [= -> <-]. now exists a, w1, w2.
Qed.

Lemma append_cons (x : ascii) (a b : string) : String x a +:+ b = String x (a +:+ b).
Proof. reflexivity. Qed.

Lemma append_assoc (a b c : string) : (a +:+ b) +:+ c = a +:+ (b +:+ c).
Proof.
  induction a as [| x a IH]; [reflexivity |].
  now rewrite !append_cons, IH.
Qed.

Lemma append_nil_r (a : string) : a +:+ "" = a.
Proof.
  induction a as [| x a IH]; [reflexivity |].
  now rewrite append_cons, IH.
Qed.

Lemma prefix_append (a b : string) : String.prefix a (a +:+ b) = true.
Proof.
  induction a as [| x a IH]; [now destruct b |].
  rewrite append_cons. cbn [String.prefix].
  destruct (ascii_dec x x); [exact IH | contradiction].
Qed.

Lemma prefix_weaken (a b k : string) :
  String.prefix (a +:+ b) k = true -> String.prefix a k = true.
Proof.
  revert k. induction a as [| x a IH]; intros k; [now destruct k |].
  rewrite append_cons.
  destruct k as [| y k]; [discriminate |]. cbn [String.prefix].
  destruct (ascii_dec x y); [apply IH | discriminate].
Qed.


Lemma newKey_prefixed (prefix key : string) :
  prefix <> "" -> newKey prefix key = prefix +:+ "-" +:+ key.
Proof.
  intros Hne. unfold newKey. now destruct (String.eqb_spec prefix "").
Qed.

(** ** Property assignment *)

Lemma assoc_overwrite_ne (k k' : string) (v : js) (o : obj) :
  k <> k' -> assoc k (overwrite k' v o) = assoc k o.
Proof.
  intros Hne. induction o as [| [k2 v2] o IH]; cbn; [reflexivity |].
  destruct (String.eqb_spec k2 k') as [-> | Hk2]; cbn.
  - destruct (String.eqb_spec k' k); [congruence | reflexivity].
  - now rewrite IH.
Qed.

Lemma assoc_insertIndex_ne (k k' : string) (i : N) (v : js) (o : obj) :
  k <> k' -> assoc k (insertIndex i k' v o) = assoc k o.
Proof.
  intros Hne.
  assert (Hhead : forall o', assoc k ((k', v) :: o') = assoc k o').
  { intros o'. cbn. destruct (String.eqb_spec k' k); [congruence | reflexivity]. }
  induction o as [| [k2 v2] o IH]; [apply Hhead |].
  cbn [insertIndex]. destruct (Str.arrayIndex k2) as [j |]; [| apply Hhead].
  destruct (j <? i)%N; [| apply Hhead].
  cbn. now rewrite IH.
Qed.

Lemma assoc_app_ne (k k' : string) (v : js) (o : obj) :
  k <> k' -> assoc k (o ++ [(k', v)]) = assoc k o.
Proof.
  intros Hne. induction o as [| [k2 v2] o IH]; cbn.
  - destruct (String.eqb_spec k' k); [congruence | reflexivity].
  - now rewrite IH.
Qed.

(** An assignment leaves every other property as it was. *)
Lemma assoc_setProp_ne (k k' : string) (v : js) (o : obj) :
  k <> k' -> assoc k (setProp o k' v) = assoc k o.
Proof.
  intros Hne. unfold setProp. destruct (hasKey k' o).
  - now apply assoc_overwrite_ne.
  - destruct (Str.arrayIndex k').
    + now apply assoc_insertIndex_ne.
    + now apply assoc_app_ne.
Qed.

(** ** Flattener *)

Lemma flattenTokens_obj (allTokens : js) (fields : list (string * js))
    (prefix : string) (result : obj) :
  flattenTokens (JObj fields) prefix result allTokens
  = forEntries
      (fun key value result =>
         flattenEntry (fun p r => flattenTokens value p r allTokens)
           allTokens prefix key value result)
      fields result.
Proof. reflexivity. Qed.

Lemma forEntries_app {A} (body : string -> A -> obj -> Eff obj)
    (before after : list (string * A)) (result : obj) :
  forEntries body (before ++ after) result
  = (let! r := forEntries body before result in forEntries body after r).
Proof.
  revert result. induction before as [| [key value] before IH]; intros result.
  - cbn [app forEntries]. now rewrite bind_ret_l.
  - cbn [app forEntries]. rewrite bind_assoc. apply bind_ext. intros r. apply IH.
Qed.

(** A property that every pass of the loop preserves holds at its end. *)
Lemma forEntries_preserves {A} (body : string -> A -> obj -> Eff obj)
    (I : obj -> Prop) (entries : list (string * A)) :
  Forall (fun kv => forall r r' w,
            I r -> body (fst kv) (snd kv) r = (Returned r', w) -> I r') entries ->
  forall r r' w, I r -> forEntries body entries r = (Returned r', w) -> I r'.
Proof.
  induction 1 as [| [key value] entries Hbody _ IH]; intros r r' w Hr Hrun.
  - now injection Hrun as <- _.
  - cbn [forEntries] in Hrun.
    apply bind_returned in Hrun as (r1 & w1 & w2 & Hstep & Hrest & _).
    eapply IH; [| exact Hrest]. eapply Hbody; [exact Hr | exact Hstep].
Qed.

Lemma forElements_preserves {A} (body : string -> A -> obj -> Eff obj)
    (I : obj -> Prop) (elements : list A) :
  Forall (fun value => forall key r r' w,
            I r -> body key value r = (Returned r', w) -> I r') elements ->
  forall i r r' w, I r -> forElements body i elements r = (Returned r', w) -> I r'.
Proof.
  induction 1 as [| value elements Hbody _ IH]; intros i r r' w Hr Hrun.
  - now injection Hrun as <- _.
  - cbn [forElements] in Hrun.
    apply bind_returned in Hrun as (r1 & w1 & w2 & Hstep & Hrest & _).
    eapply IH; [| exact Hrest]. eapply Hbody; [exact Hr | exact Hstep].
Qed.

(** The three ways of an entry through the loop body. *)
Lemma flattenEntry_leaf (recur : string -> obj -> Eff obj) (allTokens : js)
    (prefix key : string) (value : js) (result : obj) :
  isLeaf value = true ->
  flattenEntry recur allTokens prefix key value result
  = (Returned (setProp result (newKey prefix key) (fst (materialize value allTokens))),
     snd (materialize value allTokens)).
Proof.
  intros Hleaf. unfold flattenEntry. unfold isLeaf in Hleaf. rewrite Hleaf.
  destruct value; try discriminate; cbn [isNullish]; cbv beta iota zeta;
    unfold bind, lift, ret; now rewrite app_nil_r.
Qed.

Lemma flattenEntry_nested (recur : string -> obj -> Eff obj) (allTokens : js)
    (prefix key : string) (value : js) (result : obj) :
  isNullish value = false -> isLeaf value = false ->
  String.eqb (typeof value) "object" = true ->
  flattenEntry recur allTokens prefix key value result = recur (newKey prefix key) result.
Proof.
  intros Hnn Hleaf Hobj. unfold flattenEntry. unfold isLeaf in Hleaf.
  now rewrite Hnn, Hleaf, Hobj.
Qed.

Lemma flattenEntry_skipped (recur : string -> obj -> Eff obj) (allTokens : js)
    (prefix key : string) (value : js) (result : obj) :
  isNullish value = false -> isLeaf value = false ->
  String.eqb (typeof value) "object" = false ->
  flattenEntry recur allTokens prefix key value result = ret result.
Proof.
  intros Hnn Hleaf Hobj. unfold flattenEntry. unfold isLeaf in Hleaf.
  now rewrite Hnn, Hleaf, Hobj.
Qed.

Lemma newKey_extends (prefix key : string) :
  prefix <> "" -> String.prefix (prefix +:+ "-") (newKey prefix key) = true.
Proof.
  intros Hne. rewrite newKey_prefixed by trivial.
  rewrite <- append_assoc. apply prefix_append.
Qed.

Lemma newKey_nonempty (prefix key : string) : prefix <> "" -> newKey prefix key <> "".
Proof.
  intros Hne. rewrite newKey_prefixed by trivial. now destruct prefix.
Qed.

Lemma newKey_nested (prefix key k : string) :
  prefix <> "" ->
  String.prefix (prefix +:+ "-") k = false ->
  String.prefix (newKey prefix key +:+ "-") k = false.
Proof.
  intros Hne Hk. rewrite newKey_prefixed by trivial.
  destruct (String.prefix ((prefix +:+ "-" +:+ key) +:+ "-") k) eqn:Hp; [| reflexivity].
  rewrite <- append_assoc, append_assoc in Hp.
  apply prefix_weaken in Hp. congruence.
Qed.

(** Under a non-empty prefix the Flattener assigns only keys that extend the
    prefix by a hyphen: every other property of the accumulator is kept. *)
Lemma flattenEntry_frame (allTokens : js) (k : string) (value : js) :
  (forall prefix result r w,
     prefix <> "" ->
     String.prefix (prefix +:+ "-") k = false ->
     flattenTokens value prefix result allTokens = (Returned r, w) ->
     assoc k r = assoc k result) ->
  forall prefix key result r w,
    prefix <> "" ->
    String.prefix (prefix +:+ "-") k = false ->
    flattenEntry (fun p r => flattenTokens value p r allTokens)
      allTokens prefix key value result = (Returned r, w) ->
    assoc k r = assoc k result.
Proof.
  intros IH prefix key result r w Hne Hk Hrun.
  destruct (isLeaf value) eqn:Hleaf.
  - rewrite flattenEntry_leaf in Hrun by trivial. injection Hrun as <- _.
    apply assoc_setProp_ne. intros ->.
    rewrite newKey_extends in Hk by trivial. discriminate.
  - destruct (isNullish value) eqn:Hnn.
    { unfold flattenEntry in Hrun. rewrite Hnn in Hrun. discriminate. }
    destruct (String.eqb (typeof value) "object") eqn:Hobj.
    + rewrite flattenEntry_nested in Hrun by trivial.
      eapply IH; [| | exact Hrun].
      * now apply newKey_nonempty.
      * now apply newKey_nested.
    + rewrite flattenEntry_skipped in Hrun by trivial. now injection Hrun as <- _.
Qed.

Lemma flattenTokens_frame (allTokens : js) (k : string) (tokens : js) :
  forall prefix result r w,
    prefix <> "" ->
    String.prefix (prefix +:+ "-") k = false ->
    flattenTokens tokens prefix result allTokens = (Returned r, w) ->
    assoc k r = assoc k result.
Proof.
  induction tokens as [| | b | n | s | elements IH | fields IH] using js_deep_ind;
    intros prefix result r w Hne Hk Hrun;
    try discriminate; try (now injection Hrun as <- _).
  - cbn [flattenTokens] in Hrun.
    eapply (forElements_preserves _ (fun r => assoc k r = assoc k result));
      [| reflexivity | exact Hrun].
    eapply Forall_impl; [exact IH |]. cbv beta.
    intros value Hvalue key r0 r1 w1 Hr0 Hstep. rewrite <- Hr0.
    now apply (flattenEntry_frame allTokens k value Hvalue prefix key r0 r1 w1).
  - cbn [flattenTokens] in Hrun.
    eapply (forEntries_preserves _ (fun r => assoc k r = assoc k result));
      [| reflexivity | exact Hrun].
    eapply Forall_impl; [exact IH |]. cbv beta.
    intros [key value] Hvalue r0 r1 w1 Hr0 Hstep. rewrite <- Hr0.
    now apply (flattenEntry_frame allTokens k value Hvalue prefix key r0 r1 w1).
Qed.


(** C3 fails on the code: an entry whose value is [null] is neither a leaf
    nor a namespace, and the Flattener throws on it instead of passing over
    it (line 109 reads [value.$type]).  Wherever the entry stands in a
    namespace, the call ends with a [TypeError] as soon as the entries
    before it are done. *)
Theorem flatten_null_entry_throws (allTokens : js) (before after : list (string * js))
    (key prefix : string) (result r : obj) (w : list diag) :
  flattenTokens (JObj before) prefix result allTokens = (Returned r, w) ->
  flattenTokens (JObj (before ++ (key, JNull) :: after)) prefix result allTokens
  = (TypeError, w).
Proof.
  intros Hbefore. rewrite flattenTokens_obj in *. rewrite forEntries_app, Hbefore.
  cbn [forEntries bind]. unfold flattenEntry. cbn [isNullish bind throw].
  now rewrite app_nil_r.
Qed.

Lemma flatten_null_entry_throws_witness :
  flattenTokens (JObj [("foo", JNull)]) "" [] (JObj []) = (TypeError, []).
Proof.
  apply (flatten_null_entry_throws (JObj []) [] [] "foo" "" [] [] []). reflexivity.
Defined.

(** The entry [foo: 42] of the specification is passed over in silence. *)
Lemma flatten_number_entry_skipped (allTokens : js) (prefix : string) (result : obj) :
  flattenTokens (JObj [("foo", JNum 42)]) prefix result allTokens = (Returned result, []).
Proof. reflexivity. Qed.

(** *** The order of the flattened keys *)

Lemma hasKey_keys (k : string) (o : obj) : hasKey k o = existsb (String.eqb k) (keys o).
Proof.
  unfold hasKey. induction o as [| [k' v] o IH]; [reflexivity |].
  cbn. now rewrite IH, String.eqb_sym.
Qed.

Lemma keys_overwrite (k : string) (v : js) (o : obj) : keys (overwrite k v o) = keys o.
Proof.
  induction o as [| [k' v'] o IH]; [reflexivity |].
  cbn [overwrite]. destruct (String.eqb_spec k' k) as [-> | Hne]; cbn; [reflexivity |].
  now f_equal.
Qed.

Lemma keys_insertIndex (i : N) (k : string) (v : js) (o : obj) :
  keys (insertIndex i k v o) = insertKey i k (keys o).
Proof.
  induction o as [| [k' v'] o IH]; [reflexivity |].
  cbn [insertIndex keys map fst insertKey].
  destruct (Str.arrayIndex k') as [j |]; [| reflexivity].
  destruct (j <? i)%N; [| reflexivity]. cbn. now f_equal.
Qed.

(** An assignment acts on the keys as [setKey] does. *)
Lemma keys_setProp (o : obj) (k : string) (v : js) :
  keys (setProp o k v) = setKey (keys o) k.
Proof.
  unfold setProp, setKey. rewrite hasKey_keys.
  destruct (existsb (String.eqb k) (keys o)); [apply keys_overwrite |].
  destruct (Str.arrayIndex k); [apply keys_insertIndex |].
  unfold keys. now rewrite map_app.
Qed.

Lemma setKey_addKey (ks : list string) (k : string) :
  Str.arrayIndex k = None -> setKey ks k = addKey ks k.
Proof. intros Hk. unfold setKey, addKey. now rewrite Hk. Qed.

Lemma fold_setKey_addKey (l : list string) :
  Forall (fun k => Str.arrayIndex k = None) l ->
  forall ks, fold_left setKey l ks = fold_left addKey l ks.
Proof.
  induction 1 as [| k l Hk _ IH]; intros ks; [reflexivity |].
  cbn. now rewrite setKey_addKey, IH.
Qed.

Lemma fold_addKey_NoDup (l : list string) :
  forall ks, NoDup (ks ++ l) -> fold_left addKey l ks = ks ++ l.
Proof.
  induction l as [| k l IH]; intros ks Hnd; [now rewrite app_nil_r |].
  cbn [fold_left]. unfold addKey at 2.
  assert (Hfresh : existsb (String.eqb k) ks = false).
  { apply not_true_is_false. intros Hin. apply existsb_exists in Hin as (k' & Hin & Heq).
    apply String.eqb_eq in Heq as <-.
    apply NoDup_app in Hnd as (_ & Hdisj & _).
    apply (Hdisj k); [now apply list_elem_of_In | left]. }
  rewrite Hfresh, IH; rewrite <- app_assoc; [reflexivity | exact Hnd].
Qed.

Lemma nullFree_not_nullish (value : js) : nullFree value = true -> isNullish value = false.
Proof. now destruct value. Qed.

(** The keys of the result are the keys that were there and the emitted
    keys, assigned one by one. *)
Lemma flattenEntry_keys (allTokens : js) (value : js) :
  (forall prefix result r w,
     flattenTokens value prefix result allTokens = (Returned r, w) ->
     keys r = fold_left setKey (emittedKeys value prefix) (keys result)) ->
  forall prefix key result r w,
    flattenEntry (fun p r => flattenTokens value p r allTokens)
      allTokens prefix key value result = (Returned r, w) ->
    keys r = fold_left setKey (entryKeys (emittedKeys value) prefix key value) (keys result).
Proof.
  intros IH prefix key result r w Hrun. unfold entryKeys.
  destruct (isLeaf value) eqn:Hleaf.
  - rewrite flattenEntry_leaf in Hrun by trivial. injection Hrun as <- _.
    apply keys_setProp.
  - destruct (isNullish value) eqn:Hnn.
    { unfold flattenEntry in Hrun. rewrite Hnn in Hrun. discriminate. }
    destruct (String.eqb (typeof value) "object") eqn:Hobj.
    + rewrite flattenEntry_nested in Hrun by trivial. now apply IH in Hrun.
    + rewrite flattenEntry_skipped in Hrun by trivial. now injection Hrun as <- _.
Qed.

Lemma flattenTokens_keys (allTokens : js) (tokens : js) :
  forall prefix result r w,
    flattenTokens tokens prefix result allTokens = (Returned r, w) ->
    keys r = fold_left setKey (emittedKeys tokens prefix) (keys result).
Proof.
  induction tokens as [| | b | n | s | elements IH | fields IH] using js_deep_ind;
    intros prefix result r w Hrun; try discriminate;
    try (now injection Hrun as <- _).
  - cbn [flattenTokens emittedKeys] in *.
    revert result r w Hrun. generalize 0%N.
    induction IH as [| value elements Hvalue _ IHl]; intros i result r w Hrun.
    + now injection Hrun as <- _.
    + cbn [forElements keysOfElements] in *.
      apply bind_returned in Hrun as (r1 & w1 & w2 & Hstep & Hrest & _).
      apply (flattenEntry_keys allTokens value Hvalue) in Hstep.
      apply IHl in Hrest. now rewrite fold_left_app, <- Hstep.
  - cbn [flattenTokens emittedKeys] in *.
    revert result r w Hrun.
    induction IH as [| [key value] fields Hvalue _ IHl]; intros result r w Hrun.
    + now injection Hrun as <- _.
    + cbn [forEntries keysOfEntries] in *.
      apply bind_returned in Hrun as (r1 & w1 & w2 & Hstep & Hrest & _).
      apply (flattenEntry_keys allTokens value Hvalue) in Hstep.
      apply IHl in Hrest. now rewrite fold_left_app, <- Hstep.
Qed.

(** On a namespace without [null] the Flattener returns. *)
Lemma flattenEntry_returns (allTokens : js) (value : js) :
  nullFree value = true ->
  (forall prefix result,
     exists r w, flattenTokens value prefix result allTokens = (Returned r, w)) ->
  forall prefix key result,
    exists r w,
      flattenEntry (fun p r => flattenTokens value p r allTokens)
        allTokens prefix key value result = (Returned r, w).
Proof.
  intros Hnf IH prefix key result.
  destruct (isLeaf value) eqn:Hleaf.
  - rewrite flattenEntry_leaf by trivial. eauto.
  - destruct (String.eqb (typeof value) "object") eqn:Hobj.
    + rewrite flattenEntry_nested by auto using nullFree_not_nullish. apply IH.
    + rewrite flattenEntry_skipped by auto using nullFree_not_nullish.
      now exists result, [].
Qed.

Lemma flattenTokens_returns (allTokens : js) (tokens : js) :
  nullFree tokens = true ->
  forall prefix result,
    exists r w, flattenTokens tokens prefix result allTokens = (Returned r, w).
Proof.
  induction tokens as [| | b | n | s | elements IH | fields IH] using js_deep_ind;
    intros Hnf prefix result; try discriminate;
    try (now exists result, []).
  - cbn [flattenTokens nullFree] in *.
    generalize 0%N. revert result.
    induction IH as [| value elements Hvalue _ IHl]; intros result i.
    + now exists result, [].
    + cbn [forallb] in Hnf. apply andb_true_iff in Hnf as [Hv Hl].
      cbn [forElements].
      destruct (flattenEntry_returns allTokens value Hv (Hvalue Hv) prefix (Str.ofN i) result)
        as (r1 & w1 & ->).
      destruct (IHl Hl r1 (N.succ i)) as (r2 & w2 & Hrun).
      exists r2, (w1 ++ w2). cbn [bind]. now rewrite Hrun.
  - cbn [flattenTokens nullFree] in *.
    revert result.
    induction IH as [| [key value] fields Hvalue _ IHl]; intros result.
    + now exists result, [].
    + cbn [forallb snd] in Hnf. apply andb_true_iff in Hnf as [Hv Hl].
      cbn [forEntries].
      destruct (flattenEntry_returns allTokens value Hv (Hvalue Hv) prefix key result)
        as (r1 & w1 & ->).
      destruct (IHl Hl r1) as (r2 & w2 & Hrun).
      exists r2, (w1 ++ w2). cbn [bind]. now rewrite Hrun.
Qed.

(** The enumeration order is kept by every assignment. *)
Lemma arrayIndex_canonical (k : string) (i : N) :
  Str.arrayIndex k = Some i -> k = Str.ofN i.
Proof.
  unfold Str.arrayIndex. destruct (NilEmpty.uint_of_string k) as [d |]; [| discriminate].
  destruct (String.eqb_spec (Str.ofN (N.of_uint d)) k) as [Heq | Hne]; [| discriminate].
  destruct (_ <? _)%N; [| discriminate]. intros [= <-]. now symmetry.
Qed.

Lemma keyBefore_plain (a b : string) : Str.arrayIndex b = None -> keyBefore a b.
Proof. intros Hb. unfold keyBefore. rewrite Hb. now destruct (Str.arrayIndex a). Qed.

Lemma keyBefore_trans (a b c : string) : keyBefore a b -> keyBefore b c -> keyBefore a c.
Proof.
  unfold keyBefore.
  destruct (Str.arrayIndex a), (Str.arrayIndex b), (Str.arrayIndex c); try easy. lia.
Qed.

Lemma In_insertKey (i : N) (k x : string) (ks : list string) :
  In x (insertKey i k ks) <-> x = k \/ In x ks.
Proof.
  induction ks as [| k' ks IH]; cbn [insertKey]; [cbn; intuition |].
  destruct (Str.arrayIndex k') as [j |]; [| cbn; intuition].
  destruct (j <? i)%N; cbn in *; intuition.
Qed.

Lemma In_setKey (ks : list string) (k x : string) :
  In x (setKey ks k) <-> In x ks \/ x = k.
Proof.
  unfold setKey. destruct (existsb (String.eqb k) ks) eqn:Hex.
  - apply existsb_exists in Hex as (k' & Hin & ->%String.eqb_eq). intuition congruence.
  - destruct (Str.arrayIndex k).
    + rewrite In_insertKey. intuition.
    + rewrite in_app_iff. cbn. intuition.
Qed.

Lemma insertKey_ordered (i : N) (k : string) (ks : list string) :
  Str.arrayIndex k = Some i ->
  existsb (String.eqb k) ks = false ->
  enumerationOrder ks -> enumerationOrder (insertKey i k ks).
Proof.
  intros Hk. unfold enumerationOrder.
  induction ks as [| k' ks IH]; intros Hfresh Hsorted.
  { repeat constructor. }
  cbn [existsb] in Hfresh. apply orb_false_iff in Hfresh as [Hne Hfresh].
  apply String.eqb_neq in Hne.
  apply StronglySorted_inv in Hsorted as [Hsorted Hhead].
  assert (Hfront : keyBefore k k' ->
                   StronglySorted keyBefore (k :: k' :: ks)).
  { intros Hkk'. constructor; [now constructor |].
    constructor; [exact Hkk' |].
    eapply Forall_impl; [exact Hhead |]. intros x. now apply keyBefore_trans. }
  cbn [insertKey]. destruct (Str.arrayIndex k') as [j |] eqn:Hk'.
  - destruct (N.ltb_spec j i) as [Hlt | Hge].
    + constructor; [now apply IH |].
      apply List.Forall_forall. intros x [-> | Hx]%In_insertKey.
      * unfold keyBefore. now rewrite Hk', Hk.
      * now apply (proj1 (List.Forall_forall _ _) Hhead).
    + apply Hfront. unfold keyBefore. rewrite Hk, Hk'.
      assert (i <> j); [| lia].
      intros ->. apply Hne.
      now rewrite (arrayIndex_canonical _ _ Hk), (arrayIndex_canonical _ _ Hk').
  - apply Hfront. now apply keyBefore_plain.
Qed.

Lemma setKey_ordered (ks : list string) (k : string) :
  enumerationOrder ks -> enumerationOrder (setKey ks k).
Proof.
  intros Hsorted. unfold setKey.
  destruct (existsb (String.eqb k) ks) eqn:Hex; [exact Hsorted |].
  destruct (Str.arrayIndex k) as [i |] eqn:Hk; [now apply insertKey_ordered |].
  unfold enumerationOrder in *. clear Hex.
  induction Hsorted as [| k' ks Hsorted IH Hhead]; [repeat constructor |].
  cbn. constructor; [exact IH |].
  apply Forall_app. split; [exact Hhead |].
  constructor; [now apply keyBefore_plain | constructor].
Qed.

Lemma fold_setKey_ordered (l : list string) :
  forall ks, enumerationOrder ks -> enumerationOrder (fold_left setKey l ks).
Proof.
  induction l as [| k l IH]; intros ks Hks; [exact Hks |].
  cbn. now apply IH, setKey_ordered.
Qed.

Lemma In_fold_setKey (l : list string) (x : string) :
  forall ks, In x (fold_left setKey l ks) <-> In x ks \/ In x l.
Proof.
  induction l as [| k l IH]; intros ks; cbn; [intuition |].
  rewrite IH, In_setKey. intuition.
Qed.



(** C6, as the code has it.  When the Flattener returns, and no leaf is
    emitted under the key [__proto__], the returned object has exactly the
    keys of the leaves met by the depth-first traversal, assigned in the
    order of the traversal.  An object enumerates its array-index keys
    first, in ascending numeric order; so when no emitted key is an array
    index, the keys come out in the order of their first emission, and in
    the very order of the traversal when none repeats. *)
Theorem flatten_key_order (allTokens tokens : js) (prefix : string) (r : obj)
    (w : list diag) :
  flattenTokens tokens prefix [] allTokens = (Returned r, w) ->
  ~ In "__proto__" (emittedKeys tokens prefix) ->
  keys r = fold_left setKey (emittedKeys tokens prefix) []
  /\ (forall k, In k (keys r) <-> In k (emittedKeys tokens prefix))
  /\ enumerationOrder (keys r)
  /\ (Forall (fun k => Str.arrayIndex k = None) (emittedKeys tokens prefix) ->
      keys r = firstOccurrences (emittedKeys tokens prefix)
      /\ (NoDup (emittedKeys tokens prefix) -> keys r = emittedKeys tokens prefix)).
Proof.
  intros Hrun _.
  pose proof (flattenTokens_keys allTokens tokens prefix [] r w Hrun) as Hkeys.
  split; [exact Hkeys |].
  split; [intros k; rewrite Hkeys, In_fold_setKey; cbn; intuition |].
  split; [rewrite Hkeys; apply fold_setKey_ordered; constructor |].
  intros Hplain. rewrite Hkeys, fold_setKey_addKey by trivial.
  split; [reflexivity |].
  intros Hnd. now apply (fold_addKey_NoDup _ []).
Qed.

Lemma flatten_key_order_witness :
  keys [("a", JStr "red"); ("b-x", JNum 4); ("c", JStr "blue")] = ["a"; "b-x"; "c"].
Proof.
  destruct (flatten_key_order (JObj [])
              (JObj [("a", token "color" (JStr "red"));
                     ("b", JObj [("x", token "size" (JNum 4))]);
                     ("c", token "color" (JStr "blue"))]) ""
              [("a", JStr "red"); ("b-x", JNum 4); ("c", JStr "blue")] [] eq_refl)
    as (_ & _ & _ & Horder).
  - cbn. intuition discriminate.
  - apply Horder; [repeat constructor |].
    repeat constructor; cbn; rewrite ?list_elem_of_In; cbn; intuition discriminate.
Defined.

(** C6 in the words of the specification fails when a flattened key is an
    array index: the leaf [2] is met after the leaf [1-a], and listed before
    it. *)
Lemma flatten_index_key_listed_first :
  emittedKeys indexKeyNamespace "" = ["1-a"; "2"]
  /\ flattenTokens indexKeyNamespace "" [] (JObj [])
     = (Returned [("2", JStr "blue"); ("1-a", JStr "red")], [])
  /\ keys [("2", JStr "blue"); ("1-a", JStr "red")]
     <> firstOccurrences (emittedKeys indexKeyNamespace "").
Proof.
  split; [reflexivity |]. split; [reflexivity |]. vm_compute. discriminate.
Qed.

(** ** Text-Reference Rewriter *)

(** *** The scan *)

Lemma braceFree_length (a : string) :
  (String.length (braceFree a) + String.length (afterBraceFree a))%nat = String.length a.
Proof.
  induction a as [| x a IH]; [reflexivity |].
  cbn [braceFree afterBraceFree]. destruct (isBrace x); cbn [String.length]; lia.
Qed.

Lemma braceFree_run (ref rest : string) (c : ascii) :
  noBraces ref = true -> isBrace c = true ->
  braceFree (ref +:+ String c rest) = ref
  /\ afterBraceFree (ref +:+ String c rest) = String c rest.
Proof.
  intros Hnb Hc. induction ref as [| x ref IH].
  - change ("" +:+ String c rest) with (String c rest).
    cbn [braceFree afterBraceFree]. now rewrite Hc.
  - cbn [noBraces] in Hnb. apply andb_true_iff in Hnb as [Hx Hnb].
    apply negb_true_iff in Hx. rewrite append_cons. cbn [braceFree afterBraceFree].
    rewrite Hx. destruct (IH Hnb) as [-> ->]. now split.
Qed.

Lemma startsWith_close (x : ascii) (t : string) :
  Str.startsWith "}" (String x t) = Ascii.eqb "}" x.
Proof.
  unfold Str.startsWith. cbn [String.prefix].
  destruct (ascii_dec "}" x) as [<- | Hne].
  - now destruct t.
  - symmetry. now apply Ascii.eqb_neq.
Qed.

Lemma matchAt_occurrence (ref rest : string) :
  ref <> "" -> noBraces ref = true ->
  matchAt (String "{" (ref +:+ String "}" rest)) = Some ref.
Proof.
  intros Hne Hnb. unfold matchAt. cbn [Ascii.eqb Bool.eqb].
  destruct (braceFree_run ref rest "}" Hnb eq_refl) as [-> ->].
  rewrite startsWith_close. destruct (String.eqb_spec ref ""); [contradiction |].
  reflexivity.
Qed.

Lemma braceFree_before_open (a s : string) :
  braceFree (a +:+ String "{" s) = braceFree a.
Proof.
  induction a as [| x a IH]; [reflexivity |].
  rewrite append_cons. cbn [braceFree]. destruct (isBrace x); [reflexivity |].
  now rewrite IH.
Qed.

Lemma afterBraceFree_before_open (a s : string) :
  Str.startsWith "}" (afterBraceFree (a +:+ String "{" s))
  = Str.startsWith "}" (afterBraceFree a).
Proof.
  induction a as [| x a IH]; [reflexivity |].
  rewrite append_cons. cbn [afterBraceFree]. destruct (isBrace x); [| exact IH].
  now rewrite !startsWith_close.
Qed.

(** An opening brace further on does not change what is matched before it. *)
Lemma matchAt_before_open (c : ascii) (a s : string) :
  matchAt (String c (a +:+ String "{" s)) = matchAt (String c a).
Proof.
  unfold matchAt. now rewrite braceFree_before_open, afterBraceFree_before_open.
Qed.

Lemma matchAt_length (c : ascii) (a reference : string) :
  matchAt (String c a) = Some reference ->
  (String.length reference + 1 <= String.length a)%nat.
Proof.
  unfold matchAt. destruct (Ascii.eqb c "{"); [| discriminate].
  destruct (negb _ && Str.startsWith "}" (afterBraceFree a)) eqn:Hm; [| discriminate].
  intros [= <-]. apply andb_true_iff in Hm as [_ Hclose].
  pose proof (braceFree_length a) as Hlen.
  destruct (afterBraceFree a); [discriminate |]. cbn [String.length] in Hlen. lia.
Qed.

Section scanning.
Variable callback : string -> Eff string.

Lemma replaceAll_skip (a s : string) (k : nat) :
  replaceAll callback (String.length a + k) (a +:+ s) = replaceAll callback k s.
Proof.
  induction a as [| x a IH]; [reflexivity |].
  rewrite append_cons. exact IH.
Qed.

(** The text before an occurrence, the occurrence and the text after it
    are rewritten one after the other. *)
Lemma replaceAll_occurrence (ref post : string) :
  ref <> "" -> noBraces ref = true ->
  forall pre k,
    (k <= String.length pre)%nat ->
    replaceAll callback k (pre +:+ String "{" (ref +:+ String "}" post))
    = (let! a := replaceAll callback k pre in
       let! r := callback ref in
       let! b := replaceAll callback 0 post in
       ret (a +:+ r +:+ b)).
Proof.
  intros Hne Hnb. induction pre as [| c pre IH]; intros k Hk.
  - assert (k = 0)%nat as -> by (cbn in Hk; lia).
    change ("" +:+ String "{" (ref +:+ String "}" post))
      with (String "{" (ref +:+ String "}" post)).
    cbn [replaceAll]. rewrite matchAt_occurrence by trivial.
    rewrite bind_ret_l. apply bind_ext. intros r.
    rewrite (replaceAll_skip ref (String "}" post) 1). reflexivity.
  - rewrite append_cons. destruct k as [| k].
    + cbn [replaceAll]. rewrite matchAt_before_open.
      destruct (matchAt (String c pre)) as [reference |] eqn:Hm.
      * rewrite IH by (now apply matchAt_length in Hm).
        monad_norm. now rewrite append_assoc.
      * rewrite IH by lia. monad_norm.
    + cbn [replaceAll]. apply IH. cbn in Hk. lia.
Qed.

(** A text that is one reference. *)
Lemma replaceAll_single (ref : string) :
  ref <> "" -> noBraces ref = true ->
  replaceAll callback 0 ("{" +:+ ref +:+ "}") = callback ref.
Proof.
  intros Hne Hnb.
  change ("{" +:+ ref +:+ "}") with ("" +:+ String "{" (ref +:+ String "}" "")).
  rewrite replaceAll_occurrence by (trivial; cbn; lia).
  cbn [replaceAll]. rewrite bind_ret_l.
  rewrite <- (bind_ret_r (callback ref)) at 2. apply bind_ext. intros r.
  rewrite bind_ret_l. change ("" +:+ r +:+ "") with (r +:+ ""). now rewrite append_nil_r.
Qed.

Lemma replaceAll_returns :
  (forall reference, exists out w, callback reference = (Returned out, w)) ->
  forall css k, exists out w, replaceAll callback k css = (Returned out, w).
Proof.
  intros Hcb. induction css as [| c css IH]; intros k.
  - now exists "", [].
  - destruct k as [| k]; cbn [replaceAll]; [| apply IH].
    destruct (matchAt (String c css)) as [reference |].
    + destruct (Hcb reference) as (r & w1 & ->).
      destruct (IH (String.length reference + 1)%nat) as (out & w2 & Hout).
      cbn [bind]. rewrite Hout. cbn. eauto.
    + destruct (IH 0%nat) as (out & w2 & ->). cbn. eauto.
Qed.
End scanning.

Lemma resolveCSSReferences_occurrence (fuel : nat) (allTokens : js)
    (pre ref post : string) :
  ref <> "" -> noBraces ref = true ->
  resolveCSSReferences (S fuel) (pre +:+ "{" +:+ ref +:+ "}" +:+ post) allTokens
  = (let! a := resolveCSSReferences (S fuel) pre allTokens in
     let! r := replaceMatch (fun text => resolveCSSReferences fuel text allTokens)
                 allTokens ref in
     let! b := resolveCSSReferences (S fuel) post allTokens in
     ret (a +:+ r +:+ b)).
Proof.
  intros Hne Hnb. cbn [resolveCSSReferences].
  change (pre +:+ "{" +:+ ref +:+ "}" +:+ post)
    with (pre +:+ String "{" (ref +:+ String "}" post)).
  apply replaceAll_occurrence; trivial. lia.
Qed.

(** *** Stores without references *)

Lemma inert_assoc (k : string) (fields : list (string * js)) :
  forallb (fun kv => inert (snd kv)) fields = true ->
  inert (default JUndefined (assoc k fields)) = true.
Proof.
  induction fields as [| [k' v] fields IH]; [reflexivity |].
  cbn [forallb snd assoc]. intros [Hv Hrest]%andb_true_iff.
  destruct (String.eqb k' k); [exact Hv | now apply IH].
Qed.

Lemma inert_nth (elements : list js) (i : nat) :
  forallb inert elements = true -> inert (nth i elements JUndefined) = true.
Proof.
  revert i. induction elements as [| x elements IH]; intros i; [now destruct i |].
  cbn [forallb]. intros [Hx Hrest]%andb_true_iff.
  destruct i; [exact Hx | now apply IH].
Qed.

Lemma inert_character (c : ascii) : inert (JStr (String c "")) = true.
Proof.
  cbn [inert]. apply negb_true_iff, andb_false_iff.
  destruct (Ascii.eqb_spec c "{") as [-> | Hne]; [now right | left].
  unfold Str.startsWith. cbn [String.prefix].
  destruct (ascii_dec "{" c); [congruence | reflexivity].
Qed.

(** Whatever is read from a value without references is without them. *)
Lemma inert_getProp (v : js) (k : string) :
  inert v = true -> inert (getProp v k) = true.
Proof.
  destruct v; try reflexivity; cbn [getProp]; intros Hv.
  - destruct (String.eqb k "length"); [reflexivity |].
    destruct (Str.arrayIndex k); [| reflexivity].
    destruct (_ <? _)%N; [| reflexivity].
    destruct (String.get _ s); [apply inert_character | reflexivity].
  - destruct (String.eqb k "length"); [reflexivity |].
    destruct (Str.arrayIndex k); [| reflexivity].
    destruct (_ <? _)%N; [| reflexivity]. now apply inert_nth.
  - now apply inert_assoc.
Qed.

Lemma inert_asReference (v : js) : inert v = true -> asReference v = None.
Proof.
  destruct v; try reflexivity. cbn [inert asReference].
  intros H%negb_true_iff. now rewrite H.
Qed.

Lemma truthy_not_nullish (v : js) : truthy v = true -> isNullish v = false.
Proof. now destruct v. Qed.

Lemma lookupPath_inert (parts : list string) :
  forall value,
    inert value = true -> truthy value = true ->
    lookupPath value parts = Missing
    \/ exists found, lookupPath value parts = Found found /\ inert found = true.
Proof.
  induction parts as [| part rest IH]; intros value Hi Ht; [right; eauto |].
  cbn [lookupPath]. rewrite Ht, (truthy_not_nullish _ Ht). cbn [negb orb].
  destruct (truthy (getProp value part)) eqn:Hp; cbn [negb].
  - apply IH; [now apply inert_getProp | exact Hp].
  - destruct (Str.includes "-" part); [| now left].
    destruct (truthy (getProp value _) && truthy (getProp (getProp value _) _)) eqn:Hd;
      [| now left].
    apply andb_true_iff in Hd as [_ Hc].
    apply IH; [now do 2 apply inert_getProp | exact Hc].
Qed.

(** On a store without references the callback never calls the function
    again and always returns. *)
Lemma actionFor_inert (allTokens : js) (reference : string) :
  inert allTokens = true -> truthy allTokens = true ->
  exists out w, actionFor allTokens reference = Finish (Returned out, w).
Proof.
  intros Hi Ht. unfold actionFor.
  destruct (lookupPath_inert (Str.split "." reference) allTokens Hi Ht)
    as [-> | (found & -> & Hf)]; [cbn; eauto |].
  rewrite (inert_asReference _ (inert_getProp found "$value" Hf)).
  rewrite (inert_asReference _ Hf).
  destruct (truthy found && _); [cbn; eauto |].
  destruct (Str.startsWith "--" reference); [cbn; eauto |].
  destruct (String.eqb (typeof found) "string"); cbn; eauto.
Qed.

Lemma resolveCSSReferences_inert (allTokens : js) (fuel : nat) (css : string) :
  inert allTokens = true -> truthy allTokens = true ->
  exists out w, resolveCSSReferences (S fuel) css allTokens = (Returned out, w).
Proof.
  intros Hi Ht. cbn [resolveCSSReferences]. apply replaceAll_returns.
  intros reference. unfold replaceMatch.
  now destruct (actionFor_inert allTokens reference Hi Ht) as (out & w & ->); eauto.
Qed.

(** *** The fallback on a hyphenated segment *)




Lemma split_whole (sep : ascii) (s : string) :
  Str.includes sep s = false -> Str.split sep s = [s].
Proof.
  induction s as [| c s IH]; [reflexivity |].
  cbn [Str.includes Str.split]. intros [Hc Hs]%orb_false_iff.
  now rewrite Hc, IH.
Qed.

(** C2 fails on the code: the callback walks the store before it looks at
    the [--] prefix (lines 136-148 come before line 166).  In a store that
    holds no entry of the name [--name] (and none of the empty name, which
    the retry on the hyphens looks for), an occurrence of [{--name}] in a
    text is left as it is, with a diagnostic, and is not rewritten to
    [var(--name)]. *)
Theorem custom_property_reference_kept (fields : list (string * js)) (name : string)
    (fuel : nat) (pre post : string) :
  noBraces name = true ->
  Str.includes "." name = false ->
  assoc ("--" +:+ name) fields = None ->
  assoc "" fields = None ->
  resolveCSSReferences (S fuel) (pre +:+ "{" +:+ ("--" +:+ name) +:+ "}" +:+ post)
    (JObj fields)
  = (let! a := resolveCSSReferences (S fuel) pre (JObj fields) in
     let! _ := warn (CssRefNotFound ("--" +:+ name)) in
     let! b := resolveCSSReferences (S fuel) post (JObj fields) in
     ret (a +:+ ("{" +:+ ("--" +:+ name) +:+ "}") +:+ b)).
Proof.
  intros Hnb Hdot Hname Hempty.
  rewrite resolveCSSReferences_occurrence by (trivial; discriminate).
  apply bind_ext. intros a.
  assert (Hkept : replaceMatch (fun text => resolveCSSReferences fuel text (JObj fields))
                    (JObj fields) ("--" +:+ name)
                  = (let! _ := warn (CssRefNotFound ("--" +:+ name)) in
                     ret ("{" +:+ ("--" +:+ name) +:+ "}"))).
  { unfold replaceMatch, actionFor.
    rewrite split_whole by exact Hdot.
    cbn [lookupPath truthy negb orb isNullish getProp]. rewrite Hname.
    change ("--" +:+ name) with (String "-" (String "-" name)).
    cbn [default truthy negb Str.includes Ascii.eqb Bool.eqb orb Str.split].
    destruct (Str.split "-" name) as [| h t]; cbn [nth]; now rewrite Hempty. }
  rewrite Hkept. monad_norm.
Qed.

Lemma custom_property_reference_kept_witness :
  resolveCSSReferences 1 "a: {--x};" (JObj [("x", token "color" (JStr "red"))])
  = (Returned "a: {--x};", [CssRefNotFound "--x"]).
Proof.
  exact (custom_property_reference_kept [("x", token "color" (JStr "red"))] "x" 0
           "a: " ";" eq_refl eq_refl eq_refl eq_refl).
Defined.

(** The [var(...)] form is produced only for a name that the walk finds in
    the store, at a value without a [$value]. *)
Lemma custom_property_reference_found (fuel : nat) :
  resolveCSSReferences (S fuel) "{--x}" (JObj [("--x", JNum 1)])
  = (Returned "var(--x)", []).
Proof. reflexivity. Qed.

(** *** Termination without a depth ceiling *)

(** The scan calls the callback on the matches of the text and on nothing
    else. *)
Lemma replaceAll_ext (cb1 cb2 : string -> Eff string) (css : string) :
  forall k,
    (forall reference, In reference (matches k css) -> cb1 reference = cb2 reference) ->
    replaceAll cb1 k css = replaceAll cb2 k css.
Proof.
  induction css as [| c css IH]; intros k Hcb; [reflexivity |].
  destruct k as [| k]; cbn [replaceAll matches] in *; [| now apply IH].
  destruct (matchAt (String c css)) as [reference |].
  - rewrite (Hcb reference) by now left.
    apply bind_ext. intros r. rewrite (IH (String.length reference + 1)%nat); [reflexivity |].
    intros r' Hr'. apply Hcb. now right.
  - now rewrite (IH 0%nat).
Qed.

Lemma bind_finishes {A B} (m : Eff A) (f : A -> Eff B) :
  fst m <> OutOfFuel -> (forall a, fst (f a) <> OutOfFuel) -> fst (bind m f) <> OutOfFuel.
Proof.
  destruct m as [[a | |] w]; cbn; intros Hm Hf; try easy.
  specialize (Hf a). now destruct (f a).
Qed.

Lemma replaceAll_finishes (cb : string -> Eff string) (css : string) :
  forall k,
    (forall reference, In reference (matches k css) -> fst (cb reference) <> OutOfFuel) ->
    fst (replaceAll cb k css) <> OutOfFuel.
Proof.
  induction css as [| c css IH]; intros k Hcb; [easy |].
  destruct k as [| k]; cbn [replaceAll matches] in *; [| now apply IH].
  destruct (matchAt (String c css)) as [reference |].
  - apply bind_finishes; [apply Hcb; now left |]. intros r.
    apply bind_finishes; [| easy]. apply IH. intros r' Hr'. apply Hcb. now right.
  - apply bind_finishes; [now apply IH | easy].
Qed.

Lemma actionFor_finishes (allTokens : js) (reference : string) (result : Eff string) :
  actionFor allTokens reference = Finish result -> fst result <> OutOfFuel.
Proof.
  unfold actionFor. destruct (lookupPath _ _) as [found | |];
    try (intros [= <-]; easy).
  destruct (truthy found && _).
  { destruct (asReference _); intros [= <-]; easy. }
  destruct (Str.startsWith "--" reference); [intros [= <-]; easy |].
  destruct (String.eqb (typeof found) "string"); [| intros [= <-]; easy].
  destruct (asReference _); intros [= <-]; easy.
Qed.

Lemma settledMatch_mono (allTokens : js) (n m : nat) (reference : string) :
  settledMatch allTokens n reference -> (n <= m)%nat ->
  settledMatch allTokens m reference.
Proof.
  intros [Hfin Hstable] Hle. split.
  - now rewrite Hstable.
  - intros fuel Hfuel. rewrite (Hstable m Hle). apply Hstable. lia.
Qed.

Lemma settledMatch_all (allTokens : js) (l : list string) :
  (forall reference, In reference l -> exists n, settledMatch allTokens n reference) ->
  exists n, forall reference, In reference l -> settledMatch allTokens n reference.
Proof.
  induction l as [| r l IH]; intros Hall; [now exists 0%nat |].
  destruct (Hall r (or_introl eq_refl)) as [n1 H1].
  destruct IH as [n2 H2]; [intros r' Hr'; apply Hall; now right |].
  exists (Nat.max n1 n2). intros r' [<- | Hr'].
  - apply (settledMatch_mono _ n1); [exact H1 | lia].
  - apply (settledMatch_mono _ n2); [now apply H2 | lia].
Qed.

(** A text whose references all settle settles, with one unit more. *)
Lemma settled_text (allTokens : js) (text : string) :
  (forall reference, In reference (matches 0 text) ->
     exists n, settledMatch allTokens n reference) ->
  exists n, settled allTokens n text.
Proof.
  intros Hall. destruct (settledMatch_all allTokens _ Hall) as [n Hn].
  exists (S n). split.
  - cbn [resolveCSSReferences]. apply replaceAll_finishes.
    intros reference Hin. apply (Hn reference Hin).
  - intros fuel Hfuel. destruct fuel as [| fuel]; [lia |].
    cbn [resolveCSSReferences]. apply replaceAll_ext.
    intros reference Hin. apply (Hn reference Hin). lia.
Qed.

(** A reference below which the graph is acyclic settles. *)
Lemma settled_reference (allTokens : js) (reference : string) :
  acyclicFrom allTokens reference -> exists n, settledMatch allTokens n reference.
Proof.
  induction 1 as [reference _ IH].
  destruct (actionFor allTokens reference) as [result | text] eqn:Hact.
  - exists 0%nat. unfold settledMatch, replaceMatch. rewrite Hact. split; [| reflexivity].
    now apply (actionFor_finishes allTokens reference).
  - destruct (settled_text allTokens text) as [n [Hfin Hstable]].
    { intros next Hin. apply IH. now exists text. }
    exists n. unfold settledMatch, replaceMatch. rewrite Hact. now split.
Qed.

Lemma append_length (a b : string) :
  String.length (a +:+ b) = (String.length a + String.length b)%nat.
Proof.
  induction a as [| c a IH]; [reflexivity |].
  rewrite append_cons. cbn [String.length]. now rewrite IH.
Qed.

Lemma substring_append_l (a b : string) : substring 0 (String.length a) (a +:+ b) = a.
Proof.
  induction a as [| c a IH]; [now destruct b |].
  rewrite append_cons. cbn [String.length substring]. now rewrite IH.
Qed.

Lemma substring_append_r (a b : string) (n : nat) :
  substring (String.length a) n (a +:+ b) = substring 0 n b.
Proof.
  induction a as [| c a IH]; [reflexivity |].
  rewrite append_cons. cbn [String.length substring]. exact IH.
Qed.

Lemma bracket_starts (reference : string) :
  Str.startsWith "{" ("{" +:+ reference +:+ "}") = true.
Proof. exact (prefix_append "{" (reference +:+ "}")). Qed.

Lemma bracket_ends (reference : string) :
  Str.endsWith "}" ("{" +:+ reference +:+ "}") = true.
Proof.
  change ("{" +:+ reference +:+ "}") with (String "{" (reference +:+ "}")).
  unfold Str.endsWith. cbn [String.length]. rewrite append_length. cbn [String.length].
  replace (S (String.length reference + 1) - 1)%nat with (S (String.length reference)) by lia.
  cbn [substring]. rewrite substring_append_r. reflexivity.
Qed.

Lemma bracket_slice (reference : string) :
  Str.slice 1 (-1) ("{" +:+ reference +:+ "}") = reference.
Proof.
  change ("{" +:+ reference +:+ "}") with (String "{" (reference +:+ "}")).
  unfold Str.slice. cbn [String.length]. rewrite append_length. cbn [String.length].
  change (1 <? 0)%Z with false. change (-1 <? 0)%Z with true. cbv iota.
  rewrite Z.min_l, Z.max_l by lia.
  replace (Z.to_nat (Z.of_nat (S (String.length reference + 1)) + -1 - 1))
    with (String.length reference) by lia.
  change (Z.to_nat 1) with 1%nat. cbn [substring].
  apply substring_append_l.
Qed.

(** A chain of [n] links is resolved with [n] units of fuel. *)
Lemma replaceMatch_chain (allTokens : js) (n : nat) :
  forall reference final fuel,
    cssChain allTokens n reference final -> (n <= fuel)%nat ->
    replaceMatch (fun text => resolveCSSReferences fuel text allTokens)
      allTokens reference = ret final.
Proof.
  induction n as [| n IH]; intros reference final fuel Hchain Hfuel;
    unfold replaceMatch; cbn [cssChain] in Hchain.
  - now rewrite Hchain.
  - destruct Hchain as (next & -> & Hne & Hnb & Hchain).
    destruct fuel as [| fuel]; [lia |].
    cbn [resolveCSSReferences]. rewrite replaceAll_single by trivial.
    apply IH; [exact Hchain | lia].
Qed.

(** The scan of a text that is one reference finds this reference. *)
Lemma matches_skip (a s : string) (k : nat) :
  matches (String.length a + k) (a +:+ s) = matches k s.
Proof.
  induction a as [| x a IH]; [reflexivity |].
  rewrite append_cons. exact IH.
Qed.

Lemma matches_single (ref : string) :
  ref <> "" -> noBraces ref = true -> matches 0 ("{" +:+ ref +:+ "}") = [ref].
Proof.
  intros Hne Hnb.
  change ("{" +:+ ref +:+ "}") with (String "{" (ref +:+ String "}" "")).
  cbn [matches]. rewrite matchAt_occurrence by trivial.
  now rewrite (matches_skip ref (String "}" "") 1).
Qed.

(** The walk of the rewriter arrives at the node that the path names. *)
Lemma nodeAt_lookupPath (parts : list string) :
  forall store node,
    nodeAt store parts = Some node -> truthy node = true ->
    lookupPath store parts = Found node.
Proof.
  induction parts as [| part parts IH]; intros store node Hnode Htruthy.
  - now injection Hnode as ->.
  - cbn [nodeAt] in Hnode. destruct store as [| | | | | | fields]; try discriminate.
    destruct (assoc part fields) as [child |] eqn:Hchild; [| discriminate].
    cbn [lookupPath]. rewrite (getProp_own _ _ _ Hchild).
    rewrite (nodeAt_truthy child parts node Hnode Htruthy). cbn [truthy negb orb].
    now apply IH.
Qed.

(** What the callback does at a token that the path names. *)
Lemma actionFor_token (allTokens : js) (reference : string) (node value : js) :
  nodeAt allTokens (Str.split "." reference) = Some node ->
  valueField node = Some value ->
  value <> JUndefined ->
  actionFor allTokens reference
  = match asReference value with
    | Some text => Recurse text
    | None => Finish (ret (toString value))
    end.
Proof.
  intros Hnode Hvalue Hdefined.
  destruct node as [| | | | | | fields]; try discriminate. cbn [valueField] in Hvalue.
  unfold actionFor. cbv zeta.
  rewrite (nodeAt_lookupPath _ _ _ Hnode eq_refl), (getProp_own _ _ _ Hvalue).
  cbn [truthy andb]. now destruct value.
Qed.

(** A chain of the store is a chain of the rewriter, *)
Lemma storeChain_cssChain (allTokens : js) (n : nat) :
  forall reference final,
    storeChain allTokens n reference final ->
    cssChain allTokens n reference (toString final).
Proof.
  induction n as [| n IH]; intros reference final Hchain; cbn [storeChain cssChain] in *.
  - destruct Hchain as (node & Hnode & Hvalue & Hdefined & Hliteral & _).
    rewrite (actionFor_token _ _ _ _ Hnode Hvalue Hdefined).
    destruct final; try reflexivity. cbn [isReference asReference] in *. now rewrite Hliteral.
  - destruct Hchain as (node & next & Hnode & Hvalue & Hne & Hnb & Hchain).
    exists next. rewrite (actionFor_token _ _ _ _ Hnode Hvalue) by discriminate.
    cbn [asReference]. rewrite bracket_starts, bracket_ends. cbn [andb].
    repeat split; auto.
Qed.

(** and below the reference of a chain the graph is acyclic. *)
Lemma cssChain_acyclic (allTokens : js) (n : nat) :
  forall reference final,
    cssChain allTokens n reference final -> acyclicFrom allTokens reference.
Proof.
  induction n as [| n IH]; intros reference final Hchain; cbn [cssChain] in Hchain;
    constructor; intros successor (text & Hact & Hin).
  - rewrite Hchain in Hact. discriminate.
  - destruct Hchain as (next & Hnext & Hne & Hnb & Hchain).
    rewrite Hnext in Hact. injection Hact as <-.
    rewrite (matches_single next Hne Hnb) in Hin. destruct Hin as [<- | []].
    now apply (IH next final).
Qed.

(** C7.  The rewriter has no depth ceiling.  When no chain of references
    that starts in the text goes on for ever, the rewriting of the text
    finishes: some amount of fuel is enough, and more does not change the
    result.  A chain of the store through any number [n + 1] of tokens,
    each holding the reference to the next and the last one a literal, is
    such a chain, and the reference to its first token is replaced by the
    literal as it is printed, without a diagnostic. *)
Theorem rewriter_unbounded (allTokens : js) :
  (forall css,
     (forall reference, In reference (matches 0 css) -> acyclicFrom allTokens reference) ->
     exists n,
       fst (resolveCSSReferences n css allTokens) <> OutOfFuel
       /\ forall fuel, (n <= fuel)%nat ->
            resolveCSSReferences fuel css allTokens = resolveCSSReferences n css allTokens)
  /\ (forall n reference final,
        reference <> "" -> noBraces reference = true ->
        storeChain allTokens n reference final ->
        acyclicFrom allTokens reference
        /\ forall fuel, (n < fuel)%nat ->
             resolveCSSReferences fuel ("{" +:+ reference +:+ "}") allTokens
             = (Returned (toString final), [])).
Proof.
  split.
  - intros css Hacyclic. apply (settled_text allTokens css).
    intros reference Hin. now apply settled_reference, Hacyclic.
  - intros n reference final Hne Hnb Hchain.
    apply storeChain_cssChain in Hchain. split.
    + now apply (cssChain_acyclic allTokens n reference (toString final)).
    + intros fuel Hfuel. destruct fuel as [| fuel]; [lia |].
      cbn [resolveCSSReferences]. rewrite replaceAll_single by trivial.
      apply (replaceMatch_chain allTokens n); [exact Hchain | lia].
Qed.

(** On a store whose reference graph is well-founded every text is
    rewritten in finitely many calls. *)
Lemma rewriter_terminates_on_acyclic_store (allTokens : js) :
  well_founded (fun next reference => refersTo allTokens reference next) ->
  forall css, exists n, settled allTokens n css.
Proof.
  intros Hwf css. apply settled_text.
  intros reference _. apply settled_reference, Hwf.
Qed.

(** Without a ceiling a cycle is followed for ever: on the store
    [{a: {a}}] no amount of fuel lets the rewriting of [{a}] finish. *)
Lemma rewriter_follows_cycle (fuel : nat) :
  resolveCSSReferences fuel "{a}" (JObj [("a", token "color" (JStr "{a}"))])
  = (OutOfFuel, []).
Proof.
  induction fuel as [| fuel IH]; [reflexivity |].
  cbn [resolveCSSReferences].
  rewrite (replaceAll_single _ "a") by (reflexivity || discriminate).
  exact IH.
Qed.

Lemma chainStore_storeChain :
  storeChain (chainStore 11) 11 "t0" (JStr "#fff").
Proof.
  cbn [storeChain].
  eexists; exists "t1"; split; [reflexivity |]; split; [reflexivity |];
    split; [discriminate |]; split; [reflexivity |].
  eexists; exists "t2"; split; [reflexivity |]; split; [reflexivity |];
    split; [discriminate |]; split; [reflexivity |].
  eexists; exists "t3"; split; [reflexivity |]; split; [reflexivity |];
    split; [discriminate |]; split; [reflexivity |].
  eexists; exists "t4"; split; [reflexivity |]; split; [reflexivity |];
    split; [discriminate |]; split; [reflexivity |].
  eexists; exists "t5"; split; [reflexivity |]; split; [reflexivity |];
    split; [discriminate |]; split; [reflexivity |].
  eexists; exists "t6"; split; [reflexivity |]; split; [reflexivity |];
    split; [discriminate |]; split; [reflexivity |].
  eexists; exists "t7"; split; [reflexivity |]; split; [reflexivity |];
    split; [discriminate |]; split; [reflexivity |].
  eexists; exists "t8"; split; [reflexivity |]; split; [reflexivity |];
    split; [discriminate |]; split; [reflexivity |].
  eexists; exists "t9"; split; [reflexivity |]; split; [reflexivity |];
    split; [discriminate |]; split; [reflexivity |].
  eexists; exists "t10"; split; [reflexivity |]; split; [reflexivity |];
    split; [discriminate |]; split; [reflexivity |].
  eexists; exists "t11"; split; [reflexivity |]; split; [reflexivity |];
    split; [discriminate |]; split; [reflexivity |].
  eexists; split; [reflexivity |]; split; [reflexivity |].
  split; [discriminate |]. split; reflexivity.
Defined.

Lemma rewriter_unbounded_witness :
  (exists n,
     fst (resolveCSSReferences n "color: {t0};" (chainStore 1)) <> OutOfFuel
     /\ forall fuel, (n <= fuel)%nat ->
          resolveCSSReferences fuel "color: {t0};" (chainStore 1)
          = resolveCSSReferences n "color: {t0};" (chainStore 1))
  /\ resolveCSSReferences 13 "{t0}" (chainStore 11) = (Returned "#fff", []).
Proof.
  split.
  - apply (proj1 (rewriter_unbounded (chainStore 1))).
    intros reference Hin. vm_compute in Hin. destruct Hin as [<- | []].
    apply (proj1 (proj2 (rewriter_unbounded (chainStore 1)) 1%nat "t0" (JStr "#fff")
                    ltac:(discriminate) eq_refl
                    ltac:(cbn [storeChain];
                          eexists; exists "t1"; split; [reflexivity |];
                          split; [reflexivity |]; split; [discriminate |];
                          split; [reflexivity |];
                          eexists; split; [reflexivity |]; split; [reflexivity |];
                          split; [discriminate |]; split; reflexivity))).
  - apply (proj2 (proj2 (rewriter_unbounded (chainStore 11)) 11%nat "t0" (JStr "#fff")
                    ltac:(discriminate) eq_refl chainStore_storeChain) 13%nat).
    lia.
Defined.

(** ** The store is read, never written *)

Section frame.
Variable toString : Mem.heap -> Mem.ref -> string.

Lemma readsOnly_ret {A} (a : A) : readsOnly (Mem.ret a).
Proof. easy. Qed.

Lemma readsOnly_throw {A} : readsOnly (@Mem.throw A).
Proof. easy. Qed.

Lemma readsOnly_outOfFuel {A} : readsOnly (@Mem.outOfFuel A).
Proof. easy. Qed.

Lemma readsOnly_bind {A B} (m : Mem.M A) (f : A -> Mem.M B) :
  readsOnly m -> (forall a, readsOnly (f a)) -> readsOnly (Mem.bind m f).
Proof.
  intros Hm Hf h. unfold Mem.bind. specialize (Hm h).
  destruct (m h) as [[a | |] h']; cbn in *; subst; trivial. apply Hf.
Qed.

Lemma readsOnly_load (l : Mem.loc) : readsOnly (Mem.load l).
Proof. intros h. unfold Mem.load. now destruct (h !! l). Qed.

Lemma readsOnly_stringOf (v : Mem.ref) : readsOnly (Mem.stringOf toString v).
Proof. easy. Qed.

Create HintDb frame.
Hint Resolve readsOnly_ret readsOnly_throw readsOnly_outOfFuel readsOnly_load
  readsOnly_stringOf : frame.

(** Split a computation at its binds and case distinctions. *)
Ltac reads :=
  repeat first
    [ solve [auto with frame]
    | apply readsOnly_bind; [| intro]
    | match goal with
      | |- readsOnly (if ?b then _ else _) => destruct b
      | |- readsOnly (match ?x with _ => _ end) => destruct x
      end ].

Lemma readsOnly_getProp (v : Mem.ref) (k : string) : readsOnly (Mem.getProp v k).
Proof. unfold Mem.getProp. reads. Qed.
Hint Resolve readsOnly_getProp : frame.

Lemma readsOnly_andProp (v : Mem.ref) (k : string) : readsOnly (Mem.andProp v k).
Proof. unfold Mem.andProp. reads. Qed.
Hint Resolve readsOnly_andProp : frame.

Lemma readsOnly_walkPath (parts : list string) :
  forall current, readsOnly (Mem.walkPath current parts).
Proof. induction parts as [| part rest IH]; intros current; cbn; reads. Qed.
Hint Resolve readsOnly_walkPath : frame.

Lemma readsOnly_resolveWithin (budget : nat) :
  forall value allTokens, readsOnly (Mem.resolveWithin budget value allTokens).
Proof. induction budget as [| budget IH]; intros value allTokens; cbn; reads. Qed.

Lemma readsOnly_resolveColorReference (value allTokens : Mem.ref) (depth : nat) :
  readsOnly (Mem.resolveColorReference value allTokens depth).
Proof. apply readsOnly_resolveWithin. Qed.
Hint Resolve readsOnly_resolveColorReference : frame.

Lemma readsOnly_mapM {A B} (f : A -> Mem.M B) (l : list A) :
  (forall x, readsOnly (f x)) -> readsOnly (Mem.mapM f l).
Proof. intros Hf. induction l as [| x l IH]; cbn; reads. Qed.

Lemma readsOnly_orElse (v : Mem.ref) (d : string) : readsOnly (Mem.orElse toString v d).
Proof. unfold Mem.orElse. reads. Qed.
Hint Resolve readsOnly_orElse : frame.

Lemma readsOnly_shadowToString (shadow : Mem.ref) :
  readsOnly (Mem.shadowToString toString shadow).
Proof. unfold Mem.shadowToString. reads. Qed.

Lemma readsOnly_processShadowValue (value : Mem.ref) :
  readsOnly (Mem.processShadowValue toString value).
Proof.
  unfold Mem.processShadowValue. reads.
  apply readsOnly_mapM, readsOnly_shadowToString.
Qed.
Hint Resolve readsOnly_processShadowValue : frame.

Lemma readsOnly_lookupPath (parts : list string) :
  forall value, readsOnly (Mem.lookupPath value parts).
Proof. induction parts as [| part rest IH]; intros value; cbn; reads. Qed.
Hint Resolve readsOnly_lookupPath : frame.

Lemma readsOnly_replaceMatch (self : string -> Mem.M string)
    (allTokens : Mem.ref) (reference : string) :
  (forall text, readsOnly (self text)) ->
  readsOnly (Mem.replaceMatch toString self allTokens reference).
Proof. intros Hself. unfold Mem.replaceMatch. reads. Qed.

Lemma readsOnly_replaceAll (callback : string -> Mem.M string) (css : string) :
  (forall reference, readsOnly (callback reference)) ->
  forall skip, readsOnly (Mem.replaceAll callback skip css).
Proof.
  intros Hcb. induction css as [| c css IH]; intros skip; cbn; reads.
Qed.

Lemma readsOnly_resolveCSSReferences (fuel : nat) :
  forall css allTokens,
    readsOnly (Mem.resolveCSSReferences toString fuel css allTokens).
Proof.
  induction fuel as [| fuel IH]; intros css allTokens; cbn; reads.
  apply readsOnly_replaceAll. intros reference.
  apply readsOnly_replaceMatch. intros text. apply IH.
Qed.

Lemma readsOnly_objectEntries (v : Mem.ref) : readsOnly (Mem.objectEntries v).
Proof. unfold Mem.objectEntries. reads. Qed.

(** Writes. *)
Lemma keeps_reads {A} (l : Mem.loc) (m : Mem.M A) : readsOnly m -> keeps l m.
Proof. intros Hm h. now rewrite Hm. Qed.

Lemma keeps_bind {A B} (l : Mem.loc) (m : Mem.M A) (f : A -> Mem.M B) :
  keeps l m -> (forall a, keeps l (f a)) -> keeps l (Mem.bind m f).
Proof.
  intros Hm Hf h. unfold Mem.bind. specialize (Hm h).
  destruct (m h) as [[a | |] h']; cbn in *; trivial.
  now rewrite Hf.
Qed.

Lemma keeps_store (l l0 : Mem.loc) (c : Mem.cell) : l <> l0 -> keeps l (Mem.store l0 c).
Proof. intros Hne h. cbn. now apply lookup_insert_ne. Qed.

(** An assignment writes to the cell of its target and to no other. *)
Lemma keeps_setProp (l : Mem.loc) (target : Mem.ref) (k : string) (v : Mem.ref) :
  target <> Mem.Ptr l -> keeps l (Mem.setProp target k v).
Proof.
  intros Hne. destruct target as [| | b | n | s | l0]; try easy.
  assert (l <> l0) by congruence.
  apply keeps_bind; [apply keeps_reads, readsOnly_load |].
  intros c. now apply keeps_store.
Qed.

Lemma keeps_forEach {A} (l : Mem.loc) (body : A -> Mem.M unit) (xs : list A) :
  (forall x, keeps l (body x)) -> keeps l (Mem.forEach body xs).
Proof.
  intros Hbody. induction xs as [| x xs IH]; [easy |].
  cbn. apply keeps_bind; [apply Hbody | intros _; exact IH].
Qed.

Hint Resolve keeps_reads keeps_setProp readsOnly_objectEntries : frame.

Ltac frames :=
  repeat first
    [ solve [auto with frame]
    | apply keeps_bind; [| intro]
    | match goal with
      | |- keeps _ (if ?b then _ else _) => destruct b
      end ].

(** The Flattener writes to its accumulator and to nothing else. *)
Lemma keeps_flattenTokens (l : Mem.loc) (fuel : nat) :
  forall tokens prefix result allTokens,
    result <> Mem.Ptr l ->
    keeps l (Mem.flattenTokens toString fuel tokens prefix result allTokens).
Proof.
  induction fuel as [| fuel IH]; intros tokens prefix result allTokens Hne; [easy |].
  cbn [Mem.flattenTokens]. frames.
  apply keeps_forEach. intros [key value]. cbn [fst snd]. frames.
Qed.

(** With the default accumulator, a fresh object, the Flattener writes to
    no cell that existed before the call. *)
Lemma keeps_flattenTokensFresh (l : Mem.loc) (fuel : nat)
    (tokens : Mem.ref) (prefix : string) (allTokens : Mem.ref) (h : Mem.heap) :
  is_Some (h !! l) ->
  snd (Mem.flattenTokensFresh toString fuel tokens prefix allTokens h) !! l = h !! l.
Proof.
  intros Hl. unfold Mem.flattenTokensFresh, Mem.bind, Mem.alloc.
  assert (Hfresh : fresh (dom h) <> l).
  { intros <-. apply (is_fresh (dom h)). now apply elem_of_dom. }
  rewrite keeps_flattenTokens by congruence.
  now apply lookup_insert_ne.
Qed.

(** C9.  None of the four operations writes to the Token Store.  The
    resolver, the shadow materializer and the rewriter leave the whole heap
    as it is.  The Flattener writes to the object it is given as [result]
    and to no other; called with the default [result], a fresh object, it
    leaves every object that existed before the call as it was. *)
Theorem store_read_only :
  (forall value allTokens depth h,
     snd (Mem.resolveColorReference value allTokens depth h) = h)
  /\ (forall value h, snd (Mem.processShadowValue toString value h) = h)
  /\ (forall fuel css allTokens h,
        snd (Mem.resolveCSSReferences toString fuel css allTokens h) = h)
  /\ (forall fuel tokens prefix result allTokens h l,
        result <> Mem.Ptr l ->
        snd (Mem.flattenTokens toString fuel tokens prefix result allTokens h) !! l
        = h !! l)
  /\ (forall fuel tokens prefix allTokens h l,
        is_Some (h !! l) ->
        snd (Mem.flattenTokensFresh toString fuel tokens prefix allTokens h) !! l
        = h !! l).
Proof.
  split; [intros; apply readsOnly_resolveColorReference |].
  split; [intros; apply readsOnly_processShadowValue |].
  split; [intros; apply readsOnly_resolveCSSReferences |].
  split; [intros; now apply keeps_flattenTokens |].
  intros. now apply keeps_flattenTokensFresh.
Qed.
End frame.

Lemma store_read_only_witness :
  snd (Mem.flattenTokens sampleToString 2 (Mem.Ptr 0) "" (Mem.Ptr 3) (Mem.Ptr 0) sampleHeap)
    !! 0%nat
  = sampleHeap !! 0%nat.
Proof.
  apply (store_read_only sampleToString). discriminate.
Defined.

(** The accumulator is written: the call above leaves the flattened tokens
    in the object at 3.  Were the store itself passed as [result], it would
    be the object written to. *)
Lemma flatten_writes_result :
  snd (Mem.flattenTokens sampleToString 2 (Mem.Ptr 0) "" (Mem.Ptr 3) (Mem.Ptr 0) sampleHeap)
    !! 3%nat
  = Some (Mem.Cell false [("a", Mem.Str "#fff"); ("b", Mem.Str "#fff")])
  /\ snd (Mem.flattenTokens sampleToString 2 (Mem.Ptr 0) "p" (Mem.Ptr 0) (Mem.Ptr 0)
            sampleHeap) !! 0%nat
     = Some (Mem.Cell false [("a", Mem.Ptr 1); ("b", Mem.Ptr 2);
                             ("p-a", Mem.Str "#fff"); ("p-b", Mem.Str "#fff")]).
Proof. split; vm_compute; reflexivity. Qed.

(** On the sample store the heap model and the tree model compute the same
    results. *)
Lemma heap_and_tree_agree :
  fst (Mem.resolveColorReference (Mem.Str "{b}") (Mem.Ptr 0) 0 sampleHeap)
  = Returned (Mem.Str "#fff")
  /\ resolveColorReference (JStr "{b}") sampleStore 0 = (JStr "#fff", [])
  /\ flattenTokens sampleStore "" [] sampleStore
     = (Returned [("a", JStr "#fff"); ("b", JStr "#fff")], [])
  /\ fst (Mem.resolveCSSReferences sampleToString 3 "x: {b}; y: {c};" (Mem.Ptr 0) sampleHeap)
     = Returned "x: #fff; y: {c};"
  /\ fst (resolveCSSReferences 3 "x: {b}; y: {c};" sampleStore)
     = Returned "x: #fff; y: {c};".
Proof. repeat split; vm_compute; reflexivity. Qed.

(** * Further properties of the engine *)

(** ** Reference Resolver: what a call reports *)

(** X1.  Whatever the value, the store and the depth, a call of
    [resolveColorReference] emits at most one diagnostic: each of the three
    [console.warn] of the function is followed by a [return], and the two
    recursive calls are tail calls. *)
Theorem resolver_warns_at_most_once (value allTokens : js) (depth : nat) :
  (List.length (snd (resolveColorReference value allTokens depth)) <= 1)%nat.
Proof.
  unfold resolveColorReference. generalize (11 - depth)%nat. intro budget. revert value.
  induction budget as [| budget IH]; intro value; [cbn; lia |].
  cbn [resolveWithin]. destruct value; try (cbn; lia).
  destruct (negb _ || negb _); [cbn; lia |].
  destruct (walkPath _ _ _); [cbn; lia |].
  destruct (truthy j && truthy _); [apply IH |].
  destruct (truthy j && isString _ _); [cbn; lia |].
  destruct (String.eqb _ _); [apply IH | cbn; lia].
Qed.

(** The walk of lines 47-54 stops at the first segment that is missing:
    the path it reports is the segments found, followed by that segment. *)
Lemma walkPath_missing (parts : list string) :
  forall current path0 path,
    walkPath current path0 parts = inl path ->
    exists found missing rest reached,
      parts = found ++ missing :: rest
      /\ path = path0 ++ found ++ [missing]
      /\ walkPath current path0 found = inr reached
      /\ (truthy reached = false \/ truthy (getProp reached missing) = false).
Proof.
  induction parts as [| part parts IH]; intros current path0 path Hwalk; [discriminate |].
  cbn [walkPath] in Hwalk.
  destruct (negb (truthy current) || negb (truthy (getProp current part))) eqn:Hstop.
  - injection Hwalk as <-. exists [], part, parts, current. repeat split.
    apply orb_true_iff in Hstop as [H | H]; apply negb_true_iff in H; auto.
  - destruct (IH _ _ _ Hwalk) as (found & missing & rest & reached & -> & -> & Hfound & Hwhy).
    exists (part :: found), missing, rest, reached. repeat split; trivial.
    + now rewrite <- app_assoc.
    + cbn [walkPath]. now rewrite Hstop.
Qed.

(** A walk that has found the segments [found] and then meets a segment
    that names nothing stops there. *)
Lemma walkPath_stops (found : list string) :
  forall current path0 reached missing rest,
    walkPath current path0 found = inr reached ->
    truthy reached = false \/ truthy (getProp reached missing) = false ->
    walkPath current path0 (found ++ missing :: rest) = inl (path0 ++ found ++ [missing]).
Proof.
  induction found as [| part found IH]; intros current path0 reached missing rest Hwalk Hwhy.
  - injection Hwalk as ->. cbn [app walkPath].
    now destruct Hwhy as [-> | ->]; rewrite ?orb_true_r.
  - cbn [walkPath app] in *.
    destruct (negb (truthy current) || negb (truthy (getProp current part)));
      [discriminate |].
    rewrite (IH _ _ _ missing rest Hwalk Hwhy). now rewrite <- app_assoc.
Qed.

(** X2.  A reference whose path leaves the store is returned as it is, with
    one diagnostic.  When no segment of the path is the name of a built-in
    property, the walk has found the segments [found] and the next segment
    [missing] names nothing there (or something falsy), the path of the
    diagnostic is the segments found followed by the missing one: a prefix
    of the dotted path. *)
Theorem resolver_reports_missing_segment (allTokens : js) (s : string)
    (found rest : list string) (missing : string) (reached : js) :
  isReference (JStr s) = true ->
  safePath (Str.slice 1 (-1) s) = true ->
  Str.split "." (Str.slice 1 (-1) s) = found ++ missing :: rest ->
  walkPath allTokens [] found = inr reached ->
  truthy reached = false \/ truthy (getProp reached missing) = false ->
  resolveColorReference (JStr s) allTokens 0
  = (JStr s, [RefNotFound (Str.slice 1 (-1) s) (found ++ [missing])]).
Proof.
  intros Href _ Hparts Hfound Hwhy.
  rewrite resolveColorReference_eq. cbn [Nat.ltb Nat.leb toString].
  rewrite Href. cbn [negb]. cbv zeta.
  now rewrite Hparts, (walkPath_stops found _ _ _ missing rest Hfound Hwhy).
Qed.

Lemma resolver_reports_missing_segment_witness :
  resolveColorReference (JStr "{a.b.c}") (JObj [("a", JObj [])]) 0
  = (JStr "{a.b.c}", [RefNotFound "a.b.c" ["a"; "b"]]).
Proof.
  apply (resolver_reports_missing_segment (JObj [("a", JObj [])]) "{a.b.c}"
           ["a"] ["c"] "b" (JObj []));
    [reflexivity | reflexivity | reflexivity | reflexivity | now right].
Defined.

(** ** Flattener: the keys under a prefix *)

Lemma emittedKeys_extend (tokens : js) :
  forall prefix,
    prefix <> "" ->
    Forall (fun k => String.prefix (prefix +:+ "-") k = true) (emittedKeys tokens prefix).
Proof.
  assert (Hentry : forall value prefix key,
    (forall prefix, prefix <> "" ->
       Forall (fun k => String.prefix (prefix +:+ "-") k = true) (emittedKeys value prefix)) ->
    prefix <> "" ->
    Forall (fun k => String.prefix (prefix +:+ "-") k = true)
      (entryKeys (emittedKeys value) prefix key value)).
  { intros value prefix key IH Hne. unfold entryKeys.
    destruct (isLeaf value).
    - constructor; [now apply newKey_extends | constructor].
    - destruct (String.eqb (typeof value) "object"); [| constructor].
      eapply Forall_impl; [apply IH; now apply newKey_nonempty |].
      cbv beta. intros k Hk. rewrite newKey_prefixed in Hk by trivial.
      rewrite <- append_assoc, append_assoc in Hk. now apply prefix_weaken in Hk. }
  induction tokens as [| | b | n | s | elements IH | fields IH] using js_deep_ind;
    intros prefix Hne; try constructor.
  - cbn [emittedKeys]. generalize 0%N.
    induction IH as [| value elements Hvalue _ IHrest]; intro i; cbn; [constructor |].
    apply Forall_app. split; [now apply Hentry | apply IHrest].
  - cbn [emittedKeys].
    induction IH as [| [key value] fields Hvalue _ IHrest]; cbn; [constructor |].
    apply Forall_app. split; [now apply Hentry | apply IHrest].
Qed.

(** X3.  Under a non-empty prefix every key that [flattenTokens] assigns
    starts with the prefix and a hyphen: the keys of the returned object
    are those of the accumulator and keys of that form, and a property whose
    key is not of that form keeps its value. *)
Theorem flatten_keys_extend_prefix (allTokens tokens : js) (prefix : string)
    (result r : obj) (w : list diag) :
  prefix <> "" ->
  flattenTokens tokens prefix result allTokens = (Returned r, w) ->
  (forall k, In k (keys r) ->
     In k (keys result) \/ String.prefix (prefix +:+ "-") k = true)
  /\ (forall k, String.prefix (prefix +:+ "-") k = false -> assoc k r = assoc k result).
Proof.
  intros Hne Hrun. split.
  - intros k Hk. rewrite (flattenTokens_keys _ _ _ _ _ _ Hrun) in Hk.
    apply In_fold_setKey in Hk as [Hk | Hk]; [now left | right].
    pose proof (emittedKeys_extend tokens prefix Hne) as Hall.
    rewrite List.Forall_forall in Hall. now apply Hall.
  - intros k Hk. now apply (flattenTokens_frame allTokens k tokens prefix result r w).
Qed.

Lemma flatten_keys_extend_prefix_witness :
  In "effect-blur" (keys []) \/ String.prefix ("effect" +:+ "-") "effect-blur" = true.
Proof.
  apply (proj1 (flatten_keys_extend_prefix (JObj [])
                  (JObj [("blur", token "dimension" (JStr "4px"))]) "effect" []
                  [("effect-blur", JStr "4px")] []
                  ltac:(discriminate) eq_refl) "effect-blur").
  cbn. left. reflexivity.
Defined.

(** A key that contains a hyphen is no array index. *)
Lemma uint_of_string_hyphen (k : string) :
  Str.includes "-" k = true -> NilEmpty.uint_of_string k = None.
Proof.
  induction k as [| c k IH]; [discriminate |].
  cbn [Str.includes NilEmpty.uint_of_string]. intro H.
  apply orb_true_iff in H as [H | H].
  - apply Ascii.eqb_eq in H. subst c.
    now destruct (NilEmpty.uint_of_string k).
  - now rewrite (IH H).
Qed.

Lemma arrayIndex_hyphen (k : string) : Str.includes "-" k = true -> Str.arrayIndex k = None.
Proof. intro H. unfold Str.arrayIndex. now rewrite uint_of_string_hyphen. Qed.

Lemma prefix_split (a : string) : forall k, String.prefix a k = true -> exists b, k = a +:+ b.
Proof.
  induction a as [| c a IH]; intros k Hk.
  - now exists k.
  - destruct k as [| c' k]; [discriminate |]. cbn [String.prefix] in Hk.
    destruct (ascii_dec c c') as [<- |]; [| discriminate].
    destruct (IH _ Hk) as [b ->]. now exists b.
Qed.

Lemma includes_append (c : ascii) (a b : string) :
  Str.includes c (a +:+ b) = Str.includes c a || Str.includes c b.
Proof.
  induction a as [| x a IH]; [reflexivity |].
  rewrite append_cons. cbn [Str.includes]. now rewrite IH, orb_assoc.
Qed.

Lemma extended_key_no_index (prefix k : string) :
  String.prefix (prefix +:+ "-") k = true -> Str.arrayIndex k = None.
Proof.
  intro Hk. apply prefix_split in Hk as [b ->]. apply arrayIndex_hyphen.
  rewrite !includes_append. cbn [Str.includes]. cbn. now rewrite orb_true_r.
Qed.

(** X4.  Under a non-empty prefix no flattened key is an array index, so
    the returned object lists its keys in the order of the traversal, each
    at the place of its first occurrence. *)
Theorem flatten_prefixed_keys_in_traversal_order (allTokens tokens : js)
    (prefix : string) (r : obj) (w : list diag) :
  prefix <> "" ->
  flattenTokens tokens prefix [] allTokens = (Returned r, w) ->
  keys r = firstOccurrences (emittedKeys tokens prefix)
  /\ Forall (fun k => Str.arrayIndex k = None) (keys r).
Proof.
  intros Hne Hrun.
  assert (Hplain : Forall (fun k => Str.arrayIndex k = None) (emittedKeys tokens prefix)).
  { eapply Forall_impl; [apply emittedKeys_extend; exact Hne |].
    cbv beta. intros k Hk. now apply (extended_key_no_index prefix). }
  rewrite (flattenTokens_keys _ _ _ _ _ _ Hrun). unfold firstOccurrences.
  rewrite fold_setKey_addKey by exact Hplain. split; [reflexivity |].
  rewrite List.Forall_forall. intros k Hk.
  rewrite <- fold_setKey_addKey in Hk by exact Hplain.
  apply In_fold_setKey in Hk as [[] | Hk].
  rewrite List.Forall_forall in Hplain. now apply Hplain.
Qed.

Lemma flatten_prefixed_keys_in_traversal_order_witness :
  keys [("set-1-a", JStr "red"); ("set-2", JStr "blue")]
  = firstOccurrences (emittedKeys indexKeyNamespace "set")
  /\ Forall (fun k => Str.arrayIndex k = None)
       (keys [("set-1-a", JStr "red"); ("set-2", JStr "blue")]).
Proof.
  apply (flatten_prefixed_keys_in_traversal_order (JObj []) indexKeyNamespace "set"
           [("set-1-a", JStr "red"); ("set-2", JStr "blue")] []).
  - discriminate.
  - reflexivity.
Defined.

(** ** Flattener: the values under a key *)

Lemma assoc_overwrite_eq (k : string) (v : js) (o : obj) :
  hasKey k o = true -> assoc k (overwrite k v o) = Some v.
Proof.
  unfold hasKey. induction o as [| [k' v'] o IH]; [discriminate |].
  cbn [existsb overwrite fst]. destruct (String.eqb k' k) eqn:Hk; cbn [assoc orb].
  - now rewrite String.eqb_refl.
  - rewrite Hk. exact IH.
Qed.

Lemma assoc_insertIndex_eq (k : string) (i : N) (v : js) (o : obj) :
  hasKey k o = false -> assoc k (insertIndex i k v o) = Some v.
Proof.
  unfold hasKey. induction o as [| [k' v'] o IH]; cbn [existsb insertIndex fst]; intro H.
  - cbn. now rewrite String.eqb_refl.
  - apply orb_false_iff in H as [Hk Hrest].
    destruct (Str.arrayIndex k') as [j |]; [destruct (j <? i)%N |];
      cbn [assoc]; rewrite ?Hk, ?String.eqb_refl; auto.
Qed.

Lemma assoc_app_eq (k : string) (v : js) (o : obj) :
  hasKey k o = false -> assoc k (o ++ [(k, v)]) = Some v.
Proof.
  unfold hasKey. induction o as [| [k' v'] o IH]; cbn [existsb app fst assoc]; intro H.
  - now rewrite String.eqb_refl.
  - apply orb_false_iff in H as [Hk Hrest]. rewrite Hk. auto.
Qed.

(** Reading a property after its assignment gives the value assigned. *)
Lemma assoc_setProp_eq (k : string) (v : js) (o : obj) : assoc k (setProp o k v) = Some v.
Proof.
  unfold setProp. destruct (hasKey k o) eqn:Hk.
  - now apply assoc_overwrite_eq.
  - destruct (Str.arrayIndex k); [now apply assoc_insertIndex_eq | now apply assoc_app_eq].
Qed.

Lemma keys_setProp_present (o : obj) (k : string) (v : js) :
  hasKey k o = true -> keys (setProp o k v) = keys o.
Proof. intro Hk. unfold setProp. rewrite Hk. apply keys_overwrite. Qed.

(** X5.  When two leaves of a namespace flatten to the same key, the later
    one wins: on plain documents (no key that is the name of a built-in
    property, such as [__proto__]), after the last entry of a namespace, a
    leaf, has been processed, its key holds its materialized value.  If an earlier entry
    had already produced the key, the key keeps its place in the
    enumeration and only the value changes. *)
Theorem flatten_last_leaf_wins (allTokens : js) (before : list (string * js))
    (key : string) (value : js) (prefix : string) (result r : obj) (w : list diag) :
  plainDocument (JObj (before ++ [(key, value)])) = true ->
  plainDocument allTokens = true ->
  isLeaf value = true ->
  flattenTokens (JObj (before ++ [(key, value)])) prefix result allTokens = (Returned r, w) ->
  assoc (newKey prefix key) r = Some (fst (materialize value allTokens))
  /\ exists r0 w0,
       flattenTokens (JObj before) prefix result allTokens = (Returned r0, w0)
       /\ (forall k, k <> newKey prefix key -> assoc k r = assoc k r0)
       /\ (hasKey (newKey prefix key) r0 = true -> keys r = keys r0).
Proof.
  intros _ _ Hleaf Hrun.
  rewrite flattenTokens_obj, forEntries_app in Hrun.
  apply bind_returned in Hrun as (r0 & w0 & w1 & Hbefore & Hlast & ->).
  cbn [forEntries] in Hlast. rewrite bind_ret_r, flattenEntry_leaf in Hlast by trivial.
  injection Hlast as <- _. split; [apply assoc_setProp_eq |].
  exists r0, w0. rewrite flattenTokens_obj. repeat split; trivial.
  - intros k Hk. now apply assoc_setProp_ne.
  - apply keys_setProp_present.
Qed.

Lemma flatten_last_leaf_wins_witness :
  assoc (newKey "" "a-b") [("a-b", JStr "#222")]
  = Some (fst (materialize (token "color" (JStr "#222")) (JObj []))).
Proof.
  apply (flatten_last_leaf_wins (JObj [])
           [("a", JObj [("b", token "color" (JStr "#111"))])] "a-b"
           (token "color" (JStr "#222")) "" [] [("a-b", JStr "#222")] []);
    reflexivity.
Defined.

Lemma hasKey_absent (k : string) (o : obj) : ~ In k (keys o) -> hasKey k o = false.
Proof.
  unfold hasKey, keys. induction o as [| [k' v'] o IH]; [reflexivity |].
  cbn [map existsb fst In]. intro H. apply orb_false_iff. split.
  - apply String.eqb_neq. intro. apply H. now left.
  - apply IH. intro. apply H. now right.
Qed.

Lemma flat_entries (allTokens : js) (fields : list (string * js)) :
  Forall (fun kv => isLeaf (snd kv) = true /\ Str.arrayIndex (fst kv) = None) fields ->
  forall result : obj,
    NoDup (keys result ++ map fst fields) ->
    forEntries
      (fun key value result =>
         flattenEntry (fun p r => flattenTokens value p r allTokens)
           allTokens "" key value result)
      fields result
    = (Returned (result ++ map (fun kv => (fst kv, fst (materialize (snd kv) allTokens))) fields),
       flat_map (fun kv => snd (materialize (snd kv) allTokens)) fields).
Proof.
  induction 1 as [| [key value] fields [Hleaf Hplain] _ IH]; intros result Hnodup.
  - cbn. now rewrite app_nil_r.
  - cbn [forEntries map flat_map fst snd] in *.
    rewrite flattenEntry_leaf by trivial. cbn [newKey String.eqb negb].
    assert (Hnew : hasKey key result = false).
    { apply hasKey_absent. intro Hin.
      apply NoDup_app in Hnodup as (_ & Hapart & _).
      apply (Hapart key); [now apply list_elem_of_In | apply elem_of_cons; now left]. }
    assert (Hset : setProp result key (fst (materialize value allTokens))
                   = result ++ [(key, fst (materialize value allTokens))]).
    { unfold setProp. now rewrite Hnew, Hplain. }
    rewrite Hset. unfold bind at 1. rewrite IH.
    + now rewrite <- app_assoc.
    + unfold keys in *. rewrite map_app, <- app_assoc. exact Hnodup.
Qed.

(** X6.  A flat namespace is flattened entry by entry: on plain documents
    (no key that is the name of a built-in property, such as [__proto__],
    and no reference through such a name), when every entry is a leaf and
    the keys are distinct and none of them is an array index, the returned
    object has the keys of the namespace, in its order, each with the
    materialized value of its leaf, and the diagnostics are those of the
    leaves in that order. *)
Theorem flatten_flat_namespace (allTokens : js) (fields : list (string * js)) :
  plainDocument (JObj fields) = true ->
  plainDocument allTokens = true ->
  Forall (fun kv => isLeaf (snd kv) = true /\ Str.arrayIndex (fst kv) = None) fields ->
  NoDup (map fst fields) ->
  flattenTokens (JObj fields) "" [] allTokens
  = (Returned (map (fun kv => (fst kv, fst (materialize (snd kv) allTokens))) fields),
     flat_map (fun kv => snd (materialize (snd kv) allTokens)) fields).
Proof.
  intros _ _ Hflat Hnodup. rewrite flattenTokens_obj.
  now rewrite (flat_entries allTokens fields Hflat []).
Qed.

Lemma flatten_flat_namespace_witness :
  flattenTokens (JObj [("radius", token "dimension" (JStr "4px"));
                       ("ink", token "color" (JStr "{missing}"))]) "" [] (JObj [])
  = (Returned [("radius", JStr "4px"); ("ink", JStr "{missing}")],
     [RefNotFound "missing" ["missing"]]).
Proof.
  apply (flatten_flat_namespace (JObj [])
           [("radius", token "dimension" (JStr "4px"));
            ("ink", token "color" (JStr "{missing}"))]).
  - reflexivity.
  - reflexivity.
  - repeat constructor.
  - repeat (apply NoDup_cons_2;
            [rewrite list_elem_of_In; cbn; intuition discriminate |]).
    apply NoDup_nil_2.
Defined.

(** ** Flattener: when it throws *)

Section outcomes.
Context {A : Type} (body : string -> A -> obj -> Eff obj) (ok : A -> bool).

Lemma forEntries_outcome (entries : list (string * A)) :
  Forall (fun kv => forall r,
            if ok (snd kv)
            then exists r' w, body (fst kv) (snd kv) r = (Returned r', w)
            else exists w, body (fst kv) (snd kv) r = (TypeError, w)) entries ->
  forall r,
    if forallb (fun kv => ok (snd kv)) entries
    then exists r' w, forEntries body entries r = (Returned r', w)
    else exists w, forEntries body entries r = (TypeError, w).
Proof.
  induction 1 as [| [key value] entries Hhead _ IH]; intro r.
  - cbn. now exists r, [].
  - cbn [forallb forEntries fst snd] in *. specialize (Hhead r).
    destruct (ok value); cbn [andb].
    + destruct Hhead as (r1 & w1 & ->). specialize (IH r1). unfold bind.
      destruct (forallb _ entries).
      * destruct IH as (r2 & w2 & ->). now exists r2, (w1 ++ w2).
      * destruct IH as (w2 & ->). now exists (w1 ++ w2).
    + destruct Hhead as (w1 & ->). now exists w1.
Qed.

Lemma forElements_outcome (elements : list A) :
  Forall (fun value => forall key r,
            if ok value
            then exists r' w, body key value r = (Returned r', w)
            else exists w, body key value r = (TypeError, w)) elements ->
  forall i r,
    if forallb ok elements
    then exists r' w, forElements body i elements r = (Returned r', w)
    else exists w, forElements body i elements r = (TypeError, w).
Proof.
  induction 1 as [| value elements Hhead _ IH]; intros i r.
  - cbn. now exists r, [].
  - cbn [forallb forElements] in *. specialize (Hhead (Str.ofN i) r).
    destruct (ok value); cbn [andb].
    + destruct Hhead as (r1 & w1 & ->). specialize (IH (N.succ i) r1). unfold bind.
      destruct (forallb ok elements).
      * destruct IH as (r2 & w2 & ->). now exists r2, (w1 ++ w2).
      * destruct IH as (w2 & ->). now exists (w1 ++ w2).
    + destruct Hhead as (w1 & ->). now exists w1.
Qed.
End outcomes.

Lemma flattenEntry_outcome (allTokens : js) (value : js) :
  (forall prefix result,
     if traversable value
     then exists r w, flattenTokens value prefix result allTokens = (Returned r, w)
     else exists w, flattenTokens value prefix result allTokens = (TypeError, w)) ->
  forall prefix key result,
    if entryTraversable (traversable value) value
    then exists r w,
           flattenEntry (fun p r => flattenTokens value p r allTokens)
             allTokens prefix key value result = (Returned r, w)
    else exists w,
           flattenEntry (fun p r => flattenTokens value p r allTokens)
             allTokens prefix key value result = (TypeError, w).
Proof.
  intros IH prefix key result. unfold entryTraversable.
  destruct (isNullish value) eqn:Hnn; cbn [negb andb].
  { unfold flattenEntry. rewrite Hnn. now exists []. }
  destruct (isLeaf value) eqn:Hleaf; cbn [orb].
  { rewrite flattenEntry_leaf by trivial. eauto. }
  destruct (String.eqb (typeof value) "object") eqn:Hobj; cbn [negb orb].
  - rewrite flattenEntry_nested by trivial. apply IH.
  - rewrite flattenEntry_skipped by trivial. now exists result, [].
Qed.

Lemma flattenTokens_outcome (allTokens : js) (tokens : js) :
  forall prefix result,
    if traversable tokens
    then exists r w, flattenTokens tokens prefix result allTokens = (Returned r, w)
    else exists w, flattenTokens tokens prefix result allTokens = (TypeError, w).
Proof.
  induction tokens as [| | b | n | s | elements IH | fields IH] using js_deep_ind;
    intros prefix result; cbn [traversable flattenTokens];
    try (now exists []); try (now exists result, []).
  - apply (forElements_outcome _ (fun value => entryTraversable (traversable value) value)).
    eapply Forall_impl; [exact IH |]. cbv beta.
    intros value Hvalue key r. now apply flattenEntry_outcome.
  - apply (forEntries_outcome _ (fun value => entryTraversable (traversable value) value)).
    eapply Forall_impl; [exact IH |]. cbv beta.
    intros [key value] Hvalue r. now apply flattenEntry_outcome.
Qed.



(** ** Flattener: namespaces without references *)

Lemma bind_silent {A B} (m : Eff A) (f : A -> Eff B) :
  snd m = [] -> (forall a, snd (f a) = []) -> snd (bind m f) = [].
Proof.
  destruct m as [[a | |] w]; cbn; intros -> Hf; trivial.
  specialize (Hf a). now destruct (f a).
Qed.

Lemma inert_not_reference (v : js) : inert v = true -> isReference v = false.
Proof. destruct v; trivial. cbn. now intros ->%negb_true_iff. Qed.

Lemma materialize_inert (value allTokens allTokens' : js) :
  inert value = true ->
  materialize value allTokens = materialize value allTokens'
  /\ snd (materialize value allTokens) = [].
Proof.
  intro Hinert. unfold materialize, resolveColorReference. cbn [Nat.sub].
  destruct (isString "color" (getProp value "$type")).
  - rewrite !resolveWithin_literal
      by (apply inert_not_reference; now apply inert_getProp).
    now split.
  - now destruct (isString "shadow" (getProp value "$type")).
Qed.

Lemma flattenEntry_inert (allTokens allTokens' : js) (value : js) :
  inert value = true ->
  (forall prefix result,
     flattenTokens value prefix result allTokens
     = flattenTokens value prefix result allTokens'
     /\ snd (flattenTokens value prefix result allTokens) = []) ->
  forall prefix key result,
    flattenEntry (fun p r => flattenTokens value p r allTokens)
      allTokens prefix key value result
    = flattenEntry (fun p r => flattenTokens value p r allTokens')
        allTokens' prefix key value result
    /\ snd (flattenEntry (fun p r => flattenTokens value p r allTokens)
              allTokens prefix key value result) = [].
Proof.
  intros Hinert IH prefix key result.
  destruct (isNullish value) eqn:Hnn.
  { unfold flattenEntry. rewrite Hnn. now split. }
  destruct (isLeaf value) eqn:Hleaf.
  { rewrite !flattenEntry_leaf by trivial.
    destruct (materialize_inert value allTokens allTokens' Hinert) as [-> Hsilent].
    split; [reflexivity |].
    destruct (materialize_inert value allTokens' allTokens Hinert) as [_ Hsilent'].
    exact Hsilent'. }
  destruct (String.eqb (typeof value) "object") eqn:Hobj.
  - rewrite !flattenEntry_nested by trivial. apply IH.
  - rewrite !flattenEntry_skipped by trivial. now split.
Qed.

Section silentLoops.
Context {A : Type} (body1 body2 : string -> A -> obj -> Eff obj).

Lemma forEntries_silent_ext (entries : list (string * A)) :
  Forall (fun kv => forall r,
            body1 (fst kv) (snd kv) r = body2 (fst kv) (snd kv) r
            /\ snd (body1 (fst kv) (snd kv) r) = []) entries ->
  forall r,
    forEntries body1 entries r = forEntries body2 entries r
    /\ snd (forEntries body1 entries r) = [].
Proof.
  induction 1 as [| [key value] entries Hhead _ IH]; intro r; [now split |].
  cbn [forEntries fst snd] in *. destruct (Hhead r) as [Heq Hsilent]. split.
  - rewrite Heq. apply bind_ext. intro a. apply IH.
  - apply bind_silent; [exact Hsilent | intro a; apply IH].
Qed.

Lemma forElements_silent_ext (elements : list A) :
  Forall (fun value => forall key r,
            body1 key value r = body2 key value r
            /\ snd (body1 key value r) = []) elements ->
  forall i r,
    forElements body1 i elements r = forElements body2 i elements r
    /\ snd (forElements body1 i elements r) = [].
Proof.
  induction 1 as [| value elements Hhead _ IH]; intros i r; [now split |].
  cbn [forElements] in *. destruct (Hhead (Str.ofN i) r) as [Heq Hsilent]. split.
  - rewrite Heq. apply bind_ext. intro a. apply IH.
  - apply bind_silent; [exact Hsilent | intro a; apply IH].
Qed.
End silentLoops.

(** X8.  The store is consulted for references only: a namespace in which
    no string has the form [{...}] is flattened to the same result against
    any two stores, and without a diagnostic. *)
Theorem flatten_reference_free_namespace (tokens allTokens allTokens' : js)
    (prefix : string) (result : obj) :
  inert tokens = true ->
  flattenTokens tokens prefix result allTokens
  = flattenTokens tokens prefix result allTokens'
  /\ snd (flattenTokens tokens prefix result allTokens) = [].
Proof.
  revert prefix result.
  induction tokens as [| | b | n | s | elements IH | fields IH] using js_deep_ind;
    intros prefix result Hinert; try (now split).
  - cbn [flattenTokens inert] in *. apply forElements_silent_ext.
    rewrite List.Forall_forall in *. intros value Hin key r.
    rewrite forallb_forall in Hinert.
    apply flattenEntry_inert; [now apply Hinert |].
    intros p r0. apply IH; [exact Hin | now apply Hinert].
  - cbn [flattenTokens inert] in *. apply forEntries_silent_ext.
    rewrite List.Forall_forall in *. intros [key value] Hin r.
    rewrite forallb_forall in Hinert.
    apply flattenEntry_inert; [now apply (Hinert (key, value)) |].
    intros p r0. apply (IH (key, value)); [exact Hin | now apply (Hinert (key, value))].
Qed.

Lemma flatten_reference_free_namespace_witness :
  flattenTokens (JObj [("a", token "color" (JStr "#fff"))]) "" [] (JObj [])
  = flattenTokens (JObj [("a", token "color" (JStr "#fff"))]) "" [] JNull
  /\ snd (flattenTokens (JObj [("a", token "color" (JStr "#fff"))]) "" [] (JObj [])) = [].
Proof.
  apply (flatten_reference_free_namespace (JObj [("a", token "color" (JStr "#fff"))])).
  reflexivity.
Defined.

(** ** Text-Reference Rewriter: texts without a match *)

Lemma replaceAll_no_match (callback : string -> Eff string) (css : string) :
  matches 0 css = [] -> replaceAll callback 0 css = ret css.
Proof.
  induction css as [| c css IH]; [reflexivity |].
  cbn [replaceAll matches]. destruct (matchAt (String c css)); [discriminate |].
  intro H. rewrite (IH H). reflexivity.
Qed.

Lemma noBraces_no_match (css : string) : noBraces css = true -> matches 0 css = [].
Proof.
  induction css as [| c css IH]; [reflexivity |].
  cbn [noBraces matches]. intros [Hc Hrest]%andb_true_iff.
  apply negb_true_iff in Hc. unfold isBrace in Hc. apply orb_false_iff in Hc as [Hopen _].
  unfold matchAt. rewrite Hopen. now apply IH.
Qed.

(** X9.  A text in which the pattern has no match is returned as it is,
    whatever the store, without a diagnostic; one level of calls is
    enough.  A text without braces is such a text. *)
Theorem rewriter_keeps_text_without_match (css : string) :
  (noBraces css = true -> matches 0 css = [])
  /\ (matches 0 css = [] ->
      forall fuel allTokens,
        resolveCSSReferences (S fuel) css allTokens = (Returned css, [])).
Proof.
  split; [apply noBraces_no_match |].
  intros H fuel allTokens. cbn [resolveCSSReferences]. now apply replaceAll_no_match.
Qed.

Lemma rewriter_keeps_text_without_match_witness :
  resolveCSSReferences 1 "  --gap: 4px; /* {} */" JNull
  = (Returned "  --gap: 4px; /* {} */", []).
Proof.
  apply (proj2 (rewriter_keeps_text_without_match "  --gap: 4px; /* {} */")).
  reflexivity.
Defined.

(** ** Text-Reference Rewriter: exceptions *)

Lemma lookupPath_not_thrown (parts : list string) :
  forall value, isNullish value = false -> lookupPath value parts <> Thrown.
Proof.
  induction parts as [| part parts IH]; intros value Hvalue; [easy |].
  cbn [lookupPath].
  destruct (negb (truthy value) || negb (truthy (getProp value part))) eqn:Hmiss.
  - destruct (Str.includes "-" part); [| easy]. rewrite Hvalue.
    destruct (truthy (getProp value _) && truthy (getProp (getProp value _) _)) eqn:Hhit;
      [| easy].
    apply andb_true_iff in Hhit as [_ Hchild].
    apply IH. now apply truthy_not_nullish.
  - apply orb_false_iff in Hmiss as [_ Hnext]. apply negb_false_iff in Hnext.
    apply IH. now apply truthy_not_nullish.
Qed.

Lemma actionFor_not_thrown (allTokens : js) (reference : string) (result : Eff string) :
  isNullish allTokens = false ->
  actionFor allTokens reference = Finish result -> fst result <> TypeError.
Proof.
  intro Hstore. unfold actionFor.
  pose proof (lookupPath_not_thrown (Str.split "." reference) allTokens Hstore) as Hwalk.
  destruct (lookupPath _ _) as [found | |]; [| intros [= <-]; easy | easy].
  destruct (truthy found && _).
  { destruct (asReference _); intros [= <-]; easy. }
  destruct (Str.startsWith "--" reference); [intros [= <-]; easy |].
  destruct (String.eqb (typeof found) "string"); [| intros [= <-]; easy].
  destruct (asReference _); intros [= <-]; easy.
Qed.

Lemma bind_not_thrown {A B} (m : Eff A) (f : A -> Eff B) :
  fst m <> TypeError -> (forall a, fst (f a) <> TypeError) -> fst (bind m f) <> TypeError.
Proof.
  destruct m as [[a | |] w]; cbn; intros Hm Hf; try easy.
  specialize (Hf a). now destruct (f a).
Qed.

Lemma replaceAll_not_thrown (callback : string -> Eff string) (css : string) :
  (forall reference, fst (callback reference) <> TypeError) ->
  forall k, fst (replaceAll callback k css) <> TypeError.
Proof.
  intro Hcb. induction css as [| c css IH]; intro k; [easy |].
  destruct k as [| k]; cbn [replaceAll]; [| apply IH].
  destruct (matchAt (String c css)) as [reference |].
  - apply bind_not_thrown; [apply Hcb |]. intro r.
    apply bind_not_thrown; [apply IH | easy].
  - apply bind_not_thrown; [apply IH | easy].
Qed.

(** X10.  Against a store that is neither [null] nor [undefined] the
    rewriter never throws, whatever the text, as long as no reference of
    the text or of the store goes through the name of a built-in property
    and no object of the store has such a name for a key: the walk reads
    properties of the store and of truthy values found in it only, and
    what it finds can be printed. *)
Theorem rewriter_never_throws (allTokens : js) (fuel : nat) (css : string) :
  isNullish allTokens = false ->
  plainNames allTokens = true ->
  safeStore allTokens = true ->
  safeText css = true ->
  fst (resolveCSSReferences fuel css allTokens) <> TypeError.
Proof.
  intros Hstore _ _ _. revert css.
  induction fuel as [| fuel IH]; intro css; [easy |].
  cbn [resolveCSSReferences]. apply replaceAll_not_thrown. intro reference.
  unfold replaceMatch.
  destruct (actionFor allTokens reference) as [result | text] eqn:Hact.
  - now apply (actionFor_not_thrown allTokens reference).
  - apply IH.
Qed.

Lemma rewriter_never_throws_witness :
  fst (resolveCSSReferences 2 "{a-b.c}" (JObj [("a", JNull)])) <> TypeError.
Proof.
  apply (rewriter_never_throws (JObj [("a", JNull)]) 2 "{a-b.c}"); reflexivity.
Defined.

(** ** The two resolution paths agree *)

(** Where the resolver's walk arrives, the rewriter's walk arrives too. *)
Lemma walkPath_lookupPath (parts : list string) :
  forall current path reached,
    walkPath current path parts = inr reached -> lookupPath current parts = Found reached.
Proof.
  induction parts as [| part parts IH]; intros current path reached Hwalk.
  - now injection Hwalk as <-.
  - cbn [walkPath lookupPath] in *.
    destruct (negb (truthy current) || negb (truthy (getProp current part)));
      [discriminate | eauto].
Qed.

Lemma truthy_defined (v : js) :
  truthy v = true -> String.eqb (typeof v) "undefined" = false.
Proof. now destruct v. Qed.

(** On a plain reference, the rewriter goes on from the value from which
    the resolver goes on. *)
Lemma follow_actionFor (allTokens : js) (reference : string) (next : js) :
  plainReference reference = true ->
  follow allTokens (JStr ("{" +:+ reference +:+ "}")) = Some next ->
  actionFor allTokens reference
  = match asReference next with
    | Some text => Recurse text
    | None => Finish (ret (toString next))
    end.
Proof.
  intros Hplain. unfold follow.
  rewrite bracket_starts, bracket_ends, bracket_slice. cbn [andb].
  destruct (walkPath allTokens [] (Str.split "." reference)) as [| current] eqn:Hwalk;
    [discriminate |].
  apply walkPath_lookupPath in Hwalk. unfold actionFor. cbv zeta. rewrite Hwalk.
  destruct (truthy current && truthy (getProp current "$value")) eqn:Hvalue.
  { intros [= <-]. apply andb_true_iff in Hvalue as [-> Hv].
    now rewrite (truthy_defined _ Hv). }
  destruct (truthy current && isString "color" (getProp current "$type"));
    [discriminate |].
  destruct (String.eqb (typeof current) "string") eqn:Hstring; [| discriminate].
  intros [= <-]. destruct current as [| | | | s | |]; try discriminate.
  change (getProp (JStr s) "$value") with JUndefined. cbn [typeof]. rewrite andb_false_r.
  unfold plainReference in Hplain.
  apply andb_true_iff in Hplain as [_ Hcustom]. apply negb_true_iff in Hcustom.
  rewrite Hcustom. reflexivity.
Qed.

Lemma linked_cssChain (allTokens : js) (n : nat) :
  forall reference final,
    plainReference reference = true ->
    linked allTokens n reference final -> cssChain allTokens n reference final.
Proof.
  induction n as [| n IH]; intros reference final Hplain Hlinked; cbn [linked cssChain] in *.
  - destruct Hlinked as [Hfollow Hliteral].
    rewrite (follow_actionFor _ _ _ Hplain Hfollow).
    cbn [asReference isReference toString] in *. now rewrite Hliteral.
  - destruct Hlinked as (next & Hfollow & Hnext & Hlinked). exists next.
    rewrite (follow_actionFor _ _ _ Hplain Hfollow). cbn [asReference].
    rewrite bracket_starts, bracket_ends. cbn [andb].
    pose proof Hnext as Hparts. unfold plainReference in Hparts.
    apply andb_true_iff in Hparts as [[Hne Hnb]%andb_true_iff _].
    apply negb_true_iff, String.eqb_neq in Hne. repeat split; auto.
Qed.

Lemma linked_followN (allTokens : js) (n : nat) :
  forall reference final,
    linked allTokens n reference final ->
    followN allTokens (S n) (JStr ("{" +:+ reference +:+ "}")) = Some (JStr final).
Proof.
  induction n as [| n IH]; intros reference final Hlinked; cbn [linked] in Hlinked.
  - destruct Hlinked as [Hfollow _]. cbn [followN]. now rewrite Hfollow.
  - destruct Hlinked as (next & Hfollow & _ & Hlinked).
    change (followN allTokens (S (S n)) (JStr ("{" +:+ reference +:+ "}")))
      with (match follow allTokens (JStr ("{" +:+ reference +:+ "}")) with
            | Some next => followN allTokens (S n) next
            | None => None
            end).
    rewrite Hfollow. now apply IH.
Qed.

(** X11.  Within the depth ceiling the two resolution paths agree.  When
    the resolver follows a reference through [n] further plain references
    and then reaches a string that is no reference, with [n + 1] links
    within the ceiling of the resolver, the resolver returns that string,
    and the rewriter replaces the reference by the same string; neither
    emits a diagnostic. *)
Theorem resolution_paths_agree (allTokens : js) (n : nat) (reference final : string) :
  plainReference reference = true ->
  linked allTokens n reference final ->
  (n < 10)%nat ->
  resolveColorReference (JStr ("{" +:+ reference +:+ "}")) allTokens 0 = (JStr final, [])
  /\ forall fuel, (n < fuel)%nat ->
       resolveCSSReferences fuel ("{" +:+ reference +:+ "}") allTokens
       = (Returned final, []).
Proof.
  intros Hplain Hlinked Hn. split.
  - apply (resolveWithin_chain allTokens (S n)); [now apply linked_followN | | cbn; lia].
    clear Hplain Hn. revert reference Hlinked.
    induction n as [| n IH]; intros reference Hlinked; cbn [linked] in Hlinked.
    + now destruct Hlinked.
    + destruct Hlinked as (next & _ & _ & Hlinked). now apply (IH next).
  - intros fuel Hfuel. destruct fuel as [| fuel]; [lia |].
    pose proof Hplain as Hparts. unfold plainReference in Hparts.
    apply andb_true_iff in Hparts as [[Hne Hnb]%andb_true_iff _].
    apply negb_true_iff, String.eqb_neq in Hne.
    cbn [resolveCSSReferences]. rewrite replaceAll_single by trivial.
    apply (replaceMatch_chain allTokens n); [now apply linked_cssChain | lia].
Qed.

Lemma resolution_paths_agree_witness :
  resolveColorReference (JStr ("{" +:+ "b" +:+ "}")) sampleStore 0 = (JStr "#fff", [])
  /\ resolveCSSReferences 2 ("{" +:+ "b" +:+ "}") sampleStore = (Returned "#fff", []).
Proof.
  assert (Hlinked : linked sampleStore 1 "b" "#fff").
  { exists "a". repeat split; reflexivity. }
  split.
  - apply (proj1 (resolution_paths_agree sampleStore 1 "b" "#fff" eq_refl Hlinked
                    ltac:(lia))).
  - apply (proj2 (resolution_paths_agree sampleStore 1 "b" "#fff" eq_refl Hlinked
                    ltac:(lia)) 2%nat).
    lia.
Defined.

(** ** Declarations and the final pass *)

Lemma declarations_from (tokens : obj) :
  forall css,
    fold_left (fun css kv => css +:+ declaration (fst kv) (snd kv)) tokens css
    = css +:+ generateCSSVariables tokens.
Proof.
  unfold generateCSSVariables.
  induction tokens as [| [key value] tokens IH]; intro css; cbn [fold_left fst snd].
  - now rewrite append_nil_r.
  - rewrite IH, (IH ("" +:+ declaration key value)), append_assoc. reflexivity.
Qed.

Lemma generateCSSVariables_cons (key : string) (value : js) (tokens : obj) :
  generateCSSVariables ((key, value) :: tokens)
  = declaration key value +:+ generateCSSVariables tokens.
Proof.
  unfold generateCSSVariables at 1. cbn [fold_left fst snd]. apply declarations_from.
Qed.

Lemma generateCSSVariables_app (tokens tokens' : obj) :
  generateCSSVariables (tokens ++ tokens')
  = generateCSSVariables tokens +:+ generateCSSVariables tokens'.
Proof.
  induction tokens as [| [key value] tokens IH]; [reflexivity |].
  cbn [app]. now rewrite !generateCSSVariables_cons, IH, append_assoc.
Qed.

Lemma noBraces_append (a b : string) :
  noBraces (a +:+ b) = noBraces a && noBraces b.
Proof.
  induction a as [| c a IH]; [reflexivity |].
  rewrite append_cons. cbn [noBraces]. now rewrite IH, andb_assoc.
Qed.

Lemma token_type (type : string) (value : js) :
  getProp (token type value) "$type" = JStr type.
Proof. reflexivity. Qed.

Lemma token_value (type : string) (value : js) :
  getProp (token type value) "$value" = value.
Proof. reflexivity. Qed.

Lemma setProp_empty (k : string) (v : js) : setProp [] k v = [(k, v)].
Proof. unfold setProp. cbn [hasKey existsb]. now destruct (Str.arrayIndex k). Qed.

(** X12.  A reference in a token that is not a color is left to the final
    pass, which resolves it.  [flattenTokens] emits the value of such a
    leaf as it is, under its key (which is not [__proto__]); in the
    declarations that [generateCSSVariables] prints for the flattened
    object, [resolveCSSReferences] then replaces the reference by the
    literal at the end of the chain of tokens that it names in the store,
    and goes on with the declarations that follow. *)
Theorem deferred_reference_resolved_by_final_pass (allTokens : js) (key type : string)
    (reference : string) (final : js) (n fuel : nat) :
  type <> "" -> type <> "color" -> type <> "shadow" ->
  key <> "__proto__" ->
  noBraces key = true ->
  reference <> "" -> noBraces reference = true ->
  storeChain allTokens n reference final -> (n <= fuel)%nat ->
  flattenTokens (JObj [(key, token type (JStr ("{" +:+ reference +:+ "}")))]) "" []
    allTokens
  = ret [(key, JStr ("{" +:+ reference +:+ "}"))]
  /\ forall rest,
       resolveCSSReferences (S fuel)
         (generateCSSVariables ((key, JStr ("{" +:+ reference +:+ "}")) :: rest)) allTokens
       = (let! tail := resolveCSSReferences (S fuel) (generateCSSVariables rest) allTokens in
          ret (declaration key final +:+ tail)).
Proof.
  intros Htype Hcolor Hshadow _ Hkey Hne Hnb Hchain Hfuel.
  apply storeChain_cssChain in Hchain. split.
  - rewrite flattenTokens_obj. cbn [forEntries]. rewrite bind_ret_r.
    rewrite flattenEntry_leaf.
    + unfold materialize. rewrite token_type, token_value.
      cbn [isString]. apply String.eqb_neq in Hcolor, Hshadow.
      rewrite Hcolor, Hshadow. cbn [fst snd newKey String.eqb negb].
      now rewrite setProp_empty.
    + unfold isLeaf. rewrite token_type, token_value.
      cbn [truthy]. apply String.eqb_neq in Htype. rewrite Htype. reflexivity.
  - intro rest. rewrite generateCSSVariables_cons. unfold declaration at 1.
    cbn [toString].
    replace (("  --" +:+ key +:+ ": " +:+ ("{" +:+ reference +:+ "}") +:+ ";" +:+ newline)
             +:+ generateCSSVariables rest)
      with (("  --" +:+ key +:+ ": ") +:+ "{" +:+ reference +:+ "}"
            +:+ (";" +:+ newline +:+ generateCSSVariables rest))
      by (now rewrite !append_assoc).
    rewrite resolveCSSReferences_occurrence by trivial.
    assert (Hpre : resolveCSSReferences (S fuel) ("  --" +:+ key +:+ ": ") allTokens
                   = ret ("  --" +:+ key +:+ ": ")).
    { cbn [resolveCSSReferences]. apply replaceAll_no_match, noBraces_no_match.
      rewrite !noBraces_append, Hkey. reflexivity. }
    rewrite Hpre, bind_ret_l.
    rewrite (replaceMatch_chain allTokens n reference (toString final) fuel Hchain Hfuel),
      bind_ret_l.
    change (";" +:+ newline +:+ generateCSSVariables rest)
      with (String ";" (String "010" (generateCSSVariables rest))).
    cbn [resolveCSSReferences replaceAll matchAt Ascii.eqb Bool.eqb].
    rewrite !bind_assoc. apply bind_ext. intro tail. rewrite !bind_ret_l.
    unfold declaration. f_equal.
    rewrite !append_assoc. reflexivity.
Qed.

Lemma deferred_reference_resolved_by_final_pass_witness :
  flattenTokens (JObj [("gap", token "dimension" (JStr ("{" +:+ "b" +:+ "}")))]) "" []
    sampleStore
  = ret [("gap", JStr ("{" +:+ "b" +:+ "}"))]
  /\ resolveCSSReferences 2
       (generateCSSVariables [("gap", JStr ("{" +:+ "b" +:+ "}"))]) sampleStore
     = (let! tail := resolveCSSReferences 2 (generateCSSVariables []) sampleStore in
        ret (declaration "gap" (JStr "#fff") +:+ tail)).
Proof.
  assert (Hchain : storeChain sampleStore 1 "b" (JStr "#fff")).
  { cbn [storeChain]. eexists; exists "a".
    split; [reflexivity |]. split; [reflexivity |]. split; [discriminate |].
    split; [reflexivity |].
    eexists. split; [reflexivity |]. split; [reflexivity |]. split; [discriminate |].
    split; reflexivity. }
  split.
  - apply (proj1 (deferred_reference_resolved_by_final_pass sampleStore "gap" "dimension"
                    "b" (JStr "#fff") 1 1 ltac:(discriminate) ltac:(discriminate)
                    ltac:(discriminate) ltac:(discriminate) eq_refl ltac:(discriminate)
                    eq_refl Hchain ltac:(lia))).
  - apply (proj2 (deferred_reference_resolved_by_final_pass sampleStore "gap" "dimension"
                    "b" (JStr "#fff") 1 1 ltac:(discriminate) ltac:(discriminate)
                    ltac:(discriminate) ltac:(discriminate) eq_refl ltac:(discriminate)
                    eq_refl Hchain ltac:(lia)) []).
Defined.

(** ** The store: merging the documents *)

Lemma assoc_absent (k : string) (l : list (string * js)) :
  ~ In k (map fst l) -> assoc k l = None.
Proof.
  induction l as [| [k' v'] l IH]; [reflexivity |].
  cbn [map fst In assoc]. intro H.
  destruct (String.eqb_spec k' k) as [-> | _]; [exfalso; apply H; now left |].
  apply IH. intro. apply H. now right.
Qed.

Lemma assign_lookup (entries : list (string * js)) :
  NoDup (map fst entries) ->
  forall (target : obj) (k : string),
    assoc k (fold_left (fun o kv => setProp o (fst kv) (snd kv)) entries target)
    = match assoc k entries with
      | Some v => Some v
      | None => assoc k target
      end.
Proof.
  induction entries as [| [k0 v0] entries IH]; intros Hnodup target k; [reflexivity |].
  cbn [map fst] in Hnodup. apply NoDup_cons in Hnodup as [Hfresh Hnodup].
  cbn [fold_left fst snd assoc]. rewrite (IH Hnodup).
  destruct (String.eqb_spec k0 k) as [-> | Hne].
  - rewrite assoc_absent by (now rewrite <- list_elem_of_In).
    apply assoc_setProp_eq.
  - destruct (assoc k entries); [reflexivity |].
    apply assoc_setProp_ne. congruence.
Qed.

Lemma assign_keys (entries : list (string * js)) :
  forall target : obj,
    keys (fold_left (fun o kv => setProp o (fst kv) (snd kv)) entries target)
    = fold_left setKey (map fst entries) (keys target).
Proof.
  induction entries as [| [k0 v0] entries IH]; intro target; [reflexivity |].
  cbn [fold_left map fst snd]. now rewrite IH, keys_setProp.
Qed.

(** X13.  [Object.assign] merges at the top level only, and the source
    wins: after [Object.assign(target, source)], for a source that is no
    string and has no key [__proto__] (assigning it would change the
    prototype of the target and add no key), a key of the source holds the
    value that the source has for it, whole, whatever the target held;
    every other key holds what it held.  The keys of the result are those
    of the target and those of the source. *)
Theorem object_assign_source_wins (target : obj) (source : js) :
  typeof source <> "string" ->
  NoDup (map fst (ownEntries source)) ->
  ~ In "__proto__" (map fst (ownEntries source)) ->
  (forall k,
     assoc k (objectAssign target source)
     = match assoc k (ownEntries source) with
       | Some v => Some v
       | None => assoc k target
       end)
  /\ (forall k,
        In k (keys (objectAssign target source))
        <-> In k (keys target) \/ In k (map fst (ownEntries source))).
Proof.
  intros _ Hnodup _. unfold objectAssign. split.
  - intro k. now apply assign_lookup.
  - intro k. rewrite assign_keys. apply In_fold_setKey.
Qed.

Lemma object_assign_source_wins_witness :
  assoc "color" (objectAssign [("color", JObj [("red", JStr "#f00")])]
                   (JObj [("color", JObj [("blue", JStr "#00f")])]))
  = Some (JObj [("blue", JStr "#00f")]).
Proof.
  refine (proj1 (object_assign_source_wins [("color", JObj [("red", JStr "#f00")])]
                   (JObj [("color", JObj [("blue", JStr "#00f")])]) _ _ _) "color").
  - discriminate.
  - apply NoDup_cons_2; [rewrite list_elem_of_In; cbn; tauto | apply NoDup_nil_2].
  - cbn. intuition discriminate.
Defined.

Section loaded.
Variable directory : string -> option js.

Lemma loadFiles_app (before after : list js) (allTokens : obj) :
  loadFiles directory (before ++ after) allTokens
  = (let? store := loadFiles directory before allTokens in
     loadFiles directory after store).
Proof.
  revert allTokens. induction before as [| file before IH]; intro allTokens; [reflexivity |].
  cbn [app loadFiles]. destruct (readTokenFile directory file); [reflexivity |].
  cbn [bindLoad]. apply IH.
Qed.

(** X14.  Among the files of a mode the last one wins: when no document
    of the directory has a key [__proto__] at its top level and the list of
    files ends with a readable file whose document is an object, every
    top-level key of that document holds, in the store that the loop of
    [loadAllTokens] leaves, the value that the document has for it, and
    every other key holds what the files before it left. *)
Theorem load_last_document_wins (fileList : list js) (name : string)
    (document : list (string * js)) (allTokens store : obj) :
  (forall file tokens,
     directory file = Some tokens -> ~ In "__proto__" (map fst (ownEntries tokens))) ->
  directory name = Some (JObj document) ->
  NoDup (map fst document) ->
  loadFiles directory (fileList ++ [JStr name]) allTokens = inr store ->
  exists earlier,
    loadFiles directory fileList allTokens = inr earlier
    /\ forall k,
         assoc k store
         = match assoc k document with
           | Some v => Some v
           | None => assoc k earlier
           end.
Proof.
  intros _ Hread Hnodup Hload. rewrite loadFiles_app in Hload.
  destruct (loadFiles directory fileList allTokens) as [| earlier]; [discriminate |].
  cbn [bindLoad loadFiles readTokenFile] in Hload. rewrite Hread in Hload.
  cbn [bindLoad] in Hload. injection Hload as <-.
  exists earlier. split; [reflexivity |]. intro k.
  unfold objectAssign. cbn [ownEntries]. now apply assign_lookup.
Qed.
End loaded.

Lemma load_last_document_wins_witness :
  exists earlier,
    loadFiles (fun name => if String.eqb name "a.json" then Some (JObj [("x", JNum 1)])
                           else if String.eqb name "b.json" then Some (JObj [("x", JNum 2)])
                           else None)
      [JStr "a.json"] [] = inr earlier
    /\ forall k,
         assoc k [("x", JNum 2)]
         = match assoc k [("x", JNum 2)] with
           | Some v => Some v
           | None => assoc k earlier
           end.
Proof.
  apply (load_last_document_wins
           (fun name => if String.eqb name "a.json" then Some (JObj [("x", JNum 1)])
                        else if String.eqb name "b.json" then Some (JObj [("x", JNum 2)])
                        else None)
           [JStr "a.json"] "b.json" [("x", JNum 2)] [] [("x", JNum 2)]).
  - intros file tokens. cbv beta.
    destruct (String.eqb file "a.json");
      [| destruct (String.eqb file "b.json"); [| discriminate]];
      intros [= <-]; cbn; intuition discriminate.
  - reflexivity.
  - apply NoDup_cons_2; [rewrite list_elem_of_In; cbn; tauto | apply NoDup_nil_2].
  - reflexivity.
Defined.

(** ** The store: where its properties come from *)

Lemma assign_provenance (entries : list (string * js)) :
  forall (target : obj) (k : string) (v : js),
    assoc k (fold_left (fun o kv => setProp o (fst kv) (snd kv)) entries target) = Some v ->
    In (k, v) entries \/ assoc k target = Some v.
Proof.
  induction entries as [| [k0 v0] entries IH]; intros target k v Hk; [now right |].
  cbn [fold_left fst snd] in Hk. apply IH in Hk as [Hin | Hk]; [left; now right |].
  destruct (String.eqb_spec k k0) as [-> | Hne].
  - rewrite assoc_setProp_eq in Hk. injection Hk as ->. left. now left.
  - rewrite assoc_setProp_ne in Hk by trivial. now right.
Qed.

Section provenance.
Variable directory : string -> option js.

Lemma loadedWell_read {A} (m : Load A) (f : A -> Load obj) :
  (forall name, m <> inl (ReadFailure name)) ->
  (forall a, m = inr a -> loadedWell directory (f a)) ->
  loadedWell directory (bindLoad m f).
Proof.
  intros Hpure Hf. destruct m as [[| name |] | a]; cbn [bindLoad loadedWell]; trivial.
  - now destruct (Hpure name).
  - now apply Hf.
Qed.

Lemma loadedWell_then (m : Load obj) (f : obj -> Load obj) :
  loadedWell directory m ->
  (forall store, fromDocuments directory store -> loadedWell directory (f store)) ->
  loadedWell directory (bindLoad m f).
Proof.
  intros Hm Hf. destruct m as [[| name |] | store]; cbn [bindLoad loadedWell] in *; auto.
Qed.

Lemma member_pure (v : js) (k name : string) : member v k <> inl (ReadFailure name).
Proof. unfold member. now destruct (isNullish v). Qed.

Lemma objectKeys_pure (v : js) (name : string) : objectKeys v <> inl (ReadFailure name).
Proof. unfold objectKeys. now destruct (isNullish v). Qed.

Lemma iterate_pure (v : js) (name : string) : iterate v <> inl (ReadFailure name).
Proof. now destruct v. Qed.

Lemma loadFiles_well (fileList : list js) :
  forall allTokens,
    fromDocuments directory allTokens ->
    loadedWell directory (loadFiles directory fileList allTokens).
Proof.
  induction fileList as [| file fileList IH]; intros allTokens Hstore; [exact Hstore |].
  cbn [loadFiles]. unfold readTokenFile.
  destruct file as [| | | | name | |]; try exact I.
  destruct (directory name) as [tokens |] eqn:Hread; [| exact Hread].
  cbn [bindLoad]. apply IH. intros k v Hk.
  apply assign_provenance in Hk as [Hin | Hk]; [| now apply Hstore].
  now exists name, tokens.
Qed.

Lemma loadModes_well (modes : js) (names : list string) :
  forall allTokens,
    fromDocuments directory allTokens ->
    loadedWell directory (loadModes directory modes names allTokens).
Proof.
  induction names as [| name names IH]; intros allTokens Hstore; [exact Hstore |].
  cbn [loadModes]. apply loadedWell_read; [intro; apply iterate_pure |].
  intros fileList _. apply loadedWell_then; [now apply loadFiles_well | exact IH].
Qed.

Lemma loadCollection_well (collection : js) (allTokens : obj) :
  fromDocuments directory allTokens ->
  loadedWell directory (loadCollection directory collection allTokens).
Proof.
  intro Hstore. unfold loadCollection.
  apply loadedWell_read; [intro; apply member_pure |]. intros modes _.
  apply loadedWell_read; [intro; apply objectKeys_pure |]. intros names _.
  now apply loadModes_well.
Qed.

Lemma loadAllTokens_well (manifest : js) :
  loadedWell directory (loadAllTokens directory manifest).
Proof.
  unfold loadAllTokens.
  apply loadedWell_read; [intro; apply member_pure |]. intros collections _.
  apply loadedWell_read; [intro; apply member_pure |]. intros palette _.
  apply loadedWell_then; [apply loadCollection_well; intros k v [=] |].
  intros store1 Hstore1.
  apply loadedWell_read; [intro; apply member_pure |]. intros theme _.
  apply loadedWell_then; [now apply loadCollection_well |]. intros store2 Hstore2.
  apply loadedWell_read; [intro; apply member_pure |]. intros token _.
  apply loadedWell_then; [now apply loadCollection_well |]. intros store3 Hstore3.
  apply loadedWell_read; [intro; apply member_pure |]. intros effect _.
  destruct (negb (isNullish effect) && truthy (getProp effect "modes"));
    [now apply loadCollection_well | exact Hstore3].
Qed.

(** X15.  The store that [loadAllTokens] returns is a shallow union of the
    documents: each of its properties is a top-level property of one
    document of the directory, with the value which that document gives
    it.  When the call fails on a file, that file cannot be read. *)
Theorem loaded_store_comes_from_documents (manifest : js) :
  (forall store,
     loadAllTokens directory manifest = inr store ->
     forall k v,
       assoc k store = Some v ->
       exists name tokens, directory name = Some tokens /\ In (k, v) (ownEntries tokens))
  /\ (forall name,
        loadAllTokens directory manifest = inl (ReadFailure name) ->
        directory name = None).
Proof.
  pose proof (loadAllTokens_well manifest) as Hwell. split.
  - intros store Hload. now rewrite Hload in Hwell.
  - intros name Hload. now rewrite Hload in Hwell.
Qed.
End provenance.

Lemma loaded_store_comes_from_documents_witness :
  exists name tokens,
    sampleDirectory name = Some tokens /\ In ("gray", JStr "#888") (ownEntries tokens).
Proof.
  eapply (proj1 (loaded_store_comes_from_documents sampleDirectory sampleManifest)).
  - vm_compute. reflexivity.
  - reflexivity.
Defined.

(** ** Size sets: from the file name to the prefix *)

Lemma substring_whole (s : string) : substring 0 (String.length s) s = s.
Proof. rewrite <- (append_nil_r s) at 2. rewrite substring_append_l. reflexivity. Qed.

Lemma removeFirst_eq (pattern s : string) :
  removeFirst pattern s
  = if String.prefix pattern s
    then substring (String.length pattern) (String.length s - String.length pattern) s
    else match s with
         | "" => ""
         | String c s' => String c (removeFirst pattern s')
         end.
Proof. now destruct s. Qed.

Lemma removeFirst_head (pattern s : string) : removeFirst pattern (pattern +:+ s) = s.
Proof.
  rewrite removeFirst_eq, prefix_append, append_length, substring_append_r.
  replace (String.length pattern + String.length s - String.length pattern)%nat
    with (String.length s) by lia.
  apply substring_whole.
Qed.

Lemma removeFirst_tail (c : ascii) (pattern name : string) :
  Str.includes c name = false ->
  removeFirst (String c pattern) (name +:+ String c pattern) = name.
Proof.
  induction name as [| x name IH]; intro Hname.
  - change ("" +:+ String c pattern) with (String c pattern).
    rewrite <- (append_nil_r (String c pattern)) at 2. apply removeFirst_head.
  - cbn [Str.includes] in Hname. apply orb_false_iff in Hname as [Hx Hname].
    rewrite append_cons, removeFirst_eq. cbn [String.prefix].
    destruct (ascii_dec c x) as [-> | _]; [now rewrite Ascii.eqb_refl in Hx |].
    now rewrite IH.
Qed.

Lemma endsWith_append (a p : string) : Str.endsWith p (a +:+ p) = true.
Proof.
  unfold Str.endsWith. rewrite append_length.
  replace (String.length a + String.length p - String.length p)%nat
    with (String.length a) by lia.
  rewrite substring_append_r, substring_whole, String.eqb_refl, andb_true_r.
  apply Nat.leb_le. lia.
Qed.

(** X16.  The name of a size set is read back from its file name: for a
    name without a dot, the file [set.<name>.tokens.json] passes the
    filter of [generateSizeSetCSS], its set name is [<name>], and every
    variable that the file contributes is named [set-<name>-...]. *)
Theorem size_set_name_round_trip (name : string) :
  Str.includes "." name = false ->
  isSizeSetFile ("set." +:+ name +:+ ".tokens.json") = true
  /\ setName ("set." +:+ name +:+ ".tokens.json") = name
  /\ forall tokens allTokens r w,
       flattenTokens tokens (sizeSetPrefix ("set." +:+ name +:+ ".tokens.json")) []
         allTokens = (Returned r, w) ->
       forall k, In k (keys r) -> String.prefix ("set-" +:+ name +:+ "-") k = true.
Proof.
  intro Hname.
  assert (Hset : setName ("set." +:+ name +:+ ".tokens.json") = name).
  { unfold setName. rewrite removeFirst_head.
    now apply (removeFirst_tail "." "tokens.json"). }
  split; [| split; [exact Hset |]].
  - unfold isSizeSetFile. apply andb_true_iff. split.
    + apply prefix_append.
    + rewrite <- append_assoc. apply endsWith_append.
  - intros tokens allTokens r w Hrun k Hk. unfold sizeSetPrefix in Hrun.
    rewrite Hset in Hrun.
    rewrite (flattenTokens_keys _ _ _ _ _ _ Hrun) in Hk.
    apply In_fold_setKey in Hk as [[] | Hk].
    assert (Hne : "set-" +:+ name <> "") by discriminate.
    pose proof (emittedKeys_extend tokens ("set-" +:+ name) Hne) as Hall.
    rewrite List.Forall_forall in Hall. apply Hall in Hk.
    now rewrite append_assoc in Hk.
Qed.

Lemma size_set_name_round_trip_witness :
  isSizeSetFile ("set." +:+ "size" +:+ ".tokens.json") = true
  /\ setName ("set." +:+ "size" +:+ ".tokens.json") = "size".
Proof.
  split.
  - apply (proj1 (size_set_name_round_trip "size" eq_refl)).
  - apply (proj1 (proj2 (size_set_name_round_trip "size" eq_refl))).
Defined.

(** * Properties of the generation *)

(** ** Effects of the generators *)

Lemma bindGen_completed {A B} (m : Gen A) (f : A -> Gen B) (b : B) (w : list diag) :
  bindGen m f = (Completed b, w) ->
  exists a w1 w2, m = (Completed a, w1) /\ f a = (Completed b, w2) /\ w = w1 ++ w2.
Proof.
  destruct m as [[a | e |] w1]; cbn [bindGen]; try discriminate.
  destruct (f a) as [r w2] eqn:Hf. intros [= -> <-]. now exists a, w1, w2.
Qed.

Lemma ofLoad_completed {A} (m : Load A) (a : A) (w : list diag) :
  ofLoad m = (Completed a, w) -> m = inr a /\ w = [].
Proof. destruct m; cbn; [discriminate |]. now intros [= -> <-]. Qed.

Lemma ofEff_completed {A} (m : Eff A) (a : A) (w : list diag) :
  ofEff m = (Completed a, w) -> m = (Returned a, w).
Proof. destruct m as [[r | |] w']; cbn; try discriminate. now intros [= -> ->]. Qed.

Lemma get_completed (v : js) (k : string) (x : js) (w : list diag) :
  get v k = (Completed x, w) -> isNullish v = false /\ x = getProp v k /\ w = [].
Proof.
  unfold get, member. destruct (isNullish v); cbn; [discriminate |].
  now intros [= <- <-].
Qed.

Lemma readIn_completed (directory : string -> option js) (file tokens : js)
    (w : list diag) :
  readIn directory file = (Completed tokens, w) ->
  exists name, file = JStr name /\ directory name = Some tokens /\ w = [].
Proof.
  unfold readIn, readTokenFile. destruct file as [| | | | name | |]; try discriminate.
  destruct (directory name) as [found |] eqn:Hread; cbn; [| discriminate].
  intros [= <- <-]. now exists name.
Qed.

(** One step of a generator that completed: the first call completed, and
    so did what follows it. *)
Tactic Notation "gen_step" hyp(H) ident(a) ident(Ha) :=
  let w1 := fresh "w" in
  let w2 := fresh "w" in
  apply bindGen_completed in H as (a & w1 & w2 & Ha & H & ->).

Lemma first_file (directory : string -> option js) (files file tokens : js)
    (w w' : list diag) :
  get files "0" = (Completed file, w) ->
  readIn directory file = (Completed tokens, w') ->
  firstFileReadable directory files.
Proof.
  intros Hget Hread. apply get_completed in Hget as (_ & -> & _).
  apply readIn_completed in Hread as (name & Hname & Hdoc & _).
  now exists name, tokens.
Qed.

(** ** What a run needs *)

Section requirements.
Variable directory : string -> option js.
Variable listing : option (list string).
Variable manifestFile : option js.

Lemma themeColor_requires (manifest : js) (css : string) (w : list diag) :
  generateThemeColorCSS directory manifest = (Completed css, w) ->
  firstFileReadable directory
    (getProp (getProp (getProp (getProp manifest "collections") "theme") "modes") "💙 Blue")
  /\ firstFileReadable directory
       (getProp (getProp (getProp (getProp manifest "collections") "palette") "modes")
          "brand").
Proof.
  unfold generateThemeColorCSS. cbv zeta. intro H.
  gen_step H collections Hcollections. gen_step H theme Htheme.
  gen_step H modes Hmodes. gen_step H blue Hblue.
  gen_step H blueFile HblueFile. gen_step H blueTheme HblueTheme.
  gen_step H allTokens Hstore. gen_step H flattened Hflattened.
  gen_step H palette Hpalette. gen_step H paletteModes HpaletteModes.
  gen_step H brand Hbrand. gen_step H brandFile HbrandFile.
  gen_step H brandPalette HbrandPalette.
  apply get_completed in Hcollections as (_ & -> & _).
  apply get_completed in Htheme as (_ & -> & _).
  apply get_completed in Hmodes as (_ & -> & _).
  apply get_completed in Hblue as (_ & -> & _).
  apply get_completed in Hpalette as (_ & -> & _).
  apply get_completed in HpaletteModes as (_ & -> & _).
  apply get_completed in Hbrand as (_ & -> & _).
  split; eapply first_file; eassumption.
Qed.

Lemma mode_requires (manifest : js) (mode : string) (file tokens : js) (w1 w2 w3 w4 w5 w6 : list diag)
    (collections token modes files : js) :
  get manifest "collections" = (Completed collections, w1) ->
  get collections "token" = (Completed token, w2) ->
  get token "modes" = (Completed modes, w3) ->
  get modes mode = (Completed files, w4) ->
  get files "0" = (Completed file, w5) ->
  readIn directory file = (Completed tokens, w6) ->
  firstFileReadable directory
    (getProp (getProp (getProp (getProp manifest "collections") "token") "modes") mode).
Proof.
  intros Hcollections Htoken Hmodes Hfiles Hfile Hread.
  apply get_completed in Hcollections as (_ & -> & _).
  apply get_completed in Htoken as (_ & -> & _).
  apply get_completed in Hmodes as (_ & -> & _).
  apply get_completed in Hfiles as (_ & -> & _).
  eapply first_file; eassumption.
Qed.

Lemma lightMode_requires (manifest : js) (css : string) (w : list diag) :
  generateLightModeCSS directory manifest = (Completed css, w) ->
  firstFileReadable directory
    (getProp (getProp (getProp (getProp manifest "collections") "token") "modes") "light").
Proof.
  unfold generateLightModeCSS. cbv zeta. intro H.
  gen_step H collections Hcollections. gen_step H tokenModes Htoken.
  gen_step H modes Hmodes. gen_step H light Hlight.
  gen_step H file Hfile. gen_step H tokens Hread.
  eapply mode_requires; eassumption.
Qed.

Lemma darkMode_requires (manifest : js) (css : string) (w : list diag) :
  generateDarkModeCSS directory manifest = (Completed css, w) ->
  firstFileReadable directory
    (getProp (getProp (getProp (getProp manifest "collections") "token") "modes") "dark").
Proof.
  unfold generateDarkModeCSS. cbv zeta. intro H.
  gen_step H collections Hcollections. gen_step H tokenModes Htoken.
  gen_step H modes Hmodes. gen_step H dark Hdark.
  gen_step H file Hfile. gen_step H tokens Hread.
  eapply mode_requires; eassumption.
Qed.

Lemma palette_requires (manifest : js) (css : string) (w : list diag) :
  generatePaletteCSS directory manifest = (Completed css, w) ->
  firstFileReadable directory
    (getProp (getProp (getProp (getProp manifest "collections") "palette") "modes")
       "neutral").
Proof.
  unfold generatePaletteCSS. cbv zeta. intro H.
  gen_step H collections Hcollections. gen_step H palette Hpalette.
  gen_step H modes Hmodes. gen_step H brand Hbrand.
  gen_step H brandFile HbrandFile. gen_step H brandPalette HbrandPalette.
  gen_step H neutral Hneutral. gen_step H css1 Hcss1.
  gen_step H neutralModes HneutralModes. gen_step H neutralFile HneutralFile.
  gen_step H neutralPalette HneutralPalette.
  apply get_completed in Hcollections as (_ & -> & _).
  apply get_completed in Hpalette as (_ & -> & _).
  apply get_completed in Hmodes as (_ & -> & _).
  apply get_completed in HneutralModes as (_ & -> & _).
  eapply first_file; eassumption.
Qed.

Lemma effectStyles_requires (manifest : js) (css : string) (w : list diag) :
  generateEffectStylesCSS directory manifest = (Completed css, w) ->
  exists effectStyles, directory "effect.styles.tokens.json" = Some effectStyles.
Proof.
  unfold generateEffectStylesCSS. cbv zeta. intro H.
  gen_step H effectStyles Hread.
  apply readIn_completed in Hread as (name & [= <-] & Hdoc & _).
  now exists effectStyles.
Qed.

(** X18.  What [generateCSS] needs in order to complete.  The manifest must
    be readable; it must name a theme called "💙 Blue", the modes [light]
    and [dark] and the palettes [brand] and [neutral], each with a first
    file that can be read; the directory must be listable; and the file
    [effect.styles.tokens.json] must be readable, although [loadAllTokens]
    treats the effect collection as optional.  If any of these is missing,
    no style sheet is produced. *)
Theorem generateCSS_requirements (fuel : nat) (css : string) (w : list diag) :
  generateCSS directory listing manifestFile fuel = (Completed css, w) ->
  exists manifest,
    manifestFile = Some manifest
    /\ firstFileReadable directory
         (getProp (getProp (getProp (getProp manifest "collections") "theme") "modes")
            "💙 Blue")
    /\ firstFileReadable directory
         (getProp (getProp (getProp (getProp manifest "collections") "token") "modes")
            "light")
    /\ firstFileReadable directory
         (getProp (getProp (getProp (getProp manifest "collections") "token") "modes")
            "dark")
    /\ firstFileReadable directory
         (getProp (getProp (getProp (getProp manifest "collections") "palette") "modes")
            "brand")
    /\ firstFileReadable directory
         (getProp (getProp (getProp (getProp manifest "collections") "palette") "modes")
            "neutral")
    /\ (exists effectStyles, directory "effect.styles.tokens.json" = Some effectStyles)
    /\ (exists names, listing = Some names).
Proof.
  unfold generateCSS. destruct manifestFile as [manifest |]; [| discriminate].
  cbv zeta. intro H.
  gen_step H themeColor HthemeColor. gen_step H lightMode HlightMode.
  gen_step H darkMode HdarkMode. gen_step H palette Hpalette.
  gen_step H effectStyles HeffectStyles. gen_step H sizeSet HsizeSet.
  exists manifest. split; [reflexivity |].
  destruct (themeColor_requires _ _ _ HthemeColor) as [Hblue Hbrand].
  repeat split; trivial.
  - now apply lightMode_requires in HlightMode.
  - now apply darkMode_requires in HdarkMode.
  - now apply palette_requires in Hpalette.
  - now apply effectStyles_requires in HeffectStyles.
  - unfold generateSizeSetCSS in HsizeSet. destruct listing as [names |]; [| discriminate].
    now exists names.
Qed.
End requirements.

(** ** The final pass on a section that is already resolved *)

Lemma split_head (c sep : ascii) (body : string) :
  Ascii.eqb c sep = false ->
  exists h t, Str.split sep (String c body) = String c h :: t.
Proof.
  intro Hc. cbn [Str.split]. rewrite Hc.
  destruct (Str.split sep body) as [| h t]; eauto.
Qed.

Lemma assoc_plainKeys (fields : list (string * js)) (x : string) :
  plainKeys fields -> assoc (String "010" x) fields = None.
Proof.
  induction 1 as [| [k v] fields Hk _ IH]; [reflexivity |].
  cbn [assoc]. destruct (String.eqb_spec k (String "010" x)) as [-> | _]; [| exact IH].
  cbn in Hk. now destruct x.
Qed.

Lemma lookupPath_line_feed (fields : list (string * js)) (body : string) :
  plainKeys fields ->
  lookupPath (JObj fields) (Str.split "." (String "010" body)) = Missing.
Proof.
  intro Hplain.
  destruct (split_head "010" "." body eq_refl) as (h & t & ->).
  cbn [lookupPath truthy getProp negb orb].
  rewrite (assoc_plainKeys fields h Hplain). cbn [default truthy negb].
  destruct (Str.includes "-" (String "010" h)); [| reflexivity].
  destruct (split_head "010" "-" h eq_refl) as (h' & t' & ->).
  cbn [nth isNullish getProp]. rewrite (assoc_plainKeys fields h' Hplain). reflexivity.
Qed.

Lemma declarations_completed (tokens : js) (prefix : string) (allTokens : obj)
    (css : string) (w : list diag) :
  declarations tokens prefix allTokens = (Completed css, w) ->
  exists flattened,
    flattenTokens tokens prefix [] (JObj allTokens) = (Returned flattened, w)
    /\ css = generateCSSVariables flattened.
Proof.
  unfold declarations. intro H. gen_step H flattened Hflattened.
  apply ofEff_completed in Hflattened. injection H as <- <-.
  exists flattened. now rewrite app_nil_r.
Qed.

Section resolvedBlock.
Variable directory : string -> option js.

(** X17.  The final pass takes a resolved block for a reference.  The text
    of a light-mode section whose declarations hold no brace is, wherever
    it stands in the style sheet, matched by the pattern from its opening
    brace to its closing brace; against a store none of whose keys begins
    with a line feed, the pass looks the block body up, reports it as a
    reference that is not found, and leaves the block as it is. *)
Theorem final_pass_reports_resolved_block (manifest : js) (css : string)
    (w : list diag) :
  generateLightModeCSS directory manifest = (Completed css, w) ->
  exists flattened : obj,
    css = ("/* 亮色模式变量 */" +:+ newline +:+ ":root {" +:+ newline)
            +:+ generateCSSVariables flattened +:+ "}" +:+ newline
    /\ forall fields fuel pre post,
         noBraces (generateCSSVariables flattened) = true ->
         plainKeys fields ->
         resolveCSSReferences (S fuel) (pre +:+ css +:+ post) (JObj fields)
         = (let! a := resolveCSSReferences (S fuel)
                        (pre +:+ "/* 亮色模式变量 */" +:+ newline +:+ ":root ")
                        (JObj fields) in
            let! _ := warn (CssRefNotFound (newline +:+ generateCSSVariables flattened)) in
            let! b := resolveCSSReferences (S fuel) (newline +:+ post) (JObj fields) in
            ret (a +:+ ("{" +:+ (newline +:+ generateCSSVariables flattened) +:+ "}")
                   +:+ b)).
Proof.
  unfold generateLightModeCSS. cbv zeta. intro H.
  gen_step H collections Hcollections. gen_step H tokenModes Htoken.
  gen_step H modes Hmodes. gen_step H light Hlight.
  gen_step H file Hfile. gen_step H lightTokens Hread.
  gen_step H allTokens Hstore. gen_step H flattenedTokens Hflattened.
  injection H as <- _.
  apply declarations_completed in Hflattened as (flattened & _ & ->).
  exists flattened. split; [reflexivity |].
  intros fields fuel pre post Hnb Hplain.
  set (decls := generateCSSVariables flattened) in *.
  assert (Hshape :
    pre +:+ (("/* 亮色模式变量 */" +:+ newline +:+ ":root {" +:+ newline)
               +:+ decls +:+ "}" +:+ newline) +:+ post
    = (pre +:+ "/* 亮色模式变量 */" +:+ newline +:+ ":root ")
        +:+ "{" +:+ (newline +:+ decls) +:+ "}" +:+ (newline +:+ post)).
  { rewrite !append_assoc. reflexivity. }
  rewrite Hshape.
  rewrite resolveCSSReferences_occurrence;
    [| discriminate | rewrite noBraces_append; now rewrite Hnb].
  apply bind_ext. intro a.
  unfold replaceMatch, actionFor. cbv zeta.
  change (newline +:+ decls) with (String "010" decls).
  rewrite (lookupPath_line_feed fields decls Hplain).
  rewrite !bind_assoc. apply bind_ext. intros []. rewrite bind_ret_l. reflexivity.
Qed.
End resolvedBlock.

Lemma final_pass_reports_resolved_block_witness :
  exists flattened : obj,
    sampleLightSection
    = ("/* 亮色模式变量 */" +:+ newline +:+ ":root {" +:+ newline)
        +:+ generateCSSVariables flattened +:+ "}" +:+ newline.
Proof.
  destruct (final_pass_reports_resolved_block sampleDirectory sampleManifest
              sampleLightSection [] ltac:(vm_compute; reflexivity))
    as (flattened & Hshape & _).
  now exists flattened.
Defined.

Lemma generateCSS_requirements_witness :
  exists effectStyles, sampleDirectory "effect.styles.tokens.json" = Some effectStyles.
Proof.
  edestruct (generateCSS_requirements sampleDirectory sampleListing (Some sampleManifest) 3)
    as (manifest & _ & _ & _ & _ & _ & _ & Heffect & _).
  - vm_compute. reflexivity.
  - exact Heffect.
Defined.

(** ** The generation finishes *)

Lemma bindGen_finished {A B} (m : Gen A) (f : A -> Gen B) :
  fst m <> Unfinished -> (forall a, fst (f a) <> Unfinished) ->
  fst (bindGen m f) <> Unfinished.
Proof.
  destruct m as [[a | e |] w]; cbn; intros Hm Hf; try easy.
  specialize (Hf a). now destruct (f a).
Qed.

Lemma ofLoad_finished {A} (m : Load A) : fst (ofLoad m) <> Unfinished.
Proof. now destruct m. Qed.

Lemma ofEff_finished {A} (m : Eff A) : fst m <> OutOfFuel -> fst (ofEff m) <> Unfinished.
Proof. now destruct m as [[a | |] w]. Qed.

Lemma flattenTokens_finishes (tokens : js) (prefix : string) (result : obj)
    (allTokens : js) :
  fst (flattenTokens tokens prefix result allTokens) <> OutOfFuel.
Proof.
  pose proof (flattenTokens_outcome allTokens tokens prefix result) as H.
  destruct (traversable tokens).
  - now destruct H as (r & w & ->).
  - now destruct H as (w & ->).
Qed.

Lemma paletteDeclarations_finishes (name : string) (group : js) (css : string) :
  fst (paletteDeclarations name group css) <> OutOfFuel.
Proof.
  unfold paletteDeclarations. destruct (truthy group); [| easy].
  generalize (ownEntries group) as entries. intro entries. revert css.
  induction entries as [| [shade value] entries IH]; intro css; [easy |].
  cbn [paletteEntries]. apply bind_finishes; [| exact IH].
  unfold paletteEntry. destruct (isNullish value); [easy |].
  now destruct (isString "color" (getProp value "$type")).
Qed.

Lemma alphaDeclarations_finishes (alpha : js) (colorNames : list string) :
  forall css, fst (alphaDeclarations alpha colorNames css) <> OutOfFuel.
Proof.
  induction colorNames as [| colorName colorNames IH]; intro css; [easy |].
  cbn [alphaDeclarations]. apply bind_finishes; [| exact IH].
  apply paletteDeclarations_finishes.
Qed.

Create HintDb finishes.
#[local] Hint Resolve ofLoad_finished ofEff_finished flattenTokens_finishes
  paletteDeclarations_finishes alphaDeclarations_finishes : finishes.

Ltac finishes :=
  repeat first
    [ solve [auto with finishes]
    | easy
    | apply bindGen_finished; [| intro]
    | match goal with
      | |- fst (if ?b then _ else _) <> Unfinished => destruct b
      | |- fst (match ?x with _ => _ end) <> Unfinished => destruct x
      end ].

Section finished.
Variable directory : string -> option js.
Variable listing : option (list string).

Lemma get_finished (v : js) (k : string) : fst (get v k) <> Unfinished.
Proof. unfold get. finishes. Qed.

Lemma readIn_finished (file : js) : fst (readIn directory file) <> Unfinished.
Proof. unfold readIn. finishes. Qed.

Lemma declarations_finished (tokens : js) (prefix : string) (allTokens : obj) :
  fst (declarations tokens prefix allTokens) <> Unfinished.
Proof. unfold declarations. finishes. Qed.

#[local] Hint Resolve get_finished readIn_finished declarations_finished : finishes.

Lemma themeBlocks_finished (themes : list (string * js)) (allTokens : obj) :
  forall css, fst (themeBlocks directory themes allTokens css) <> Unfinished.
Proof.
  induction themes as [| [themeName files] themes IH]; intro css; [easy |].
  cbn [themeBlocks]. cbv zeta. finishes.
Qed.

Lemma sizeSets_finished (sizeSetFiles : list string) (allTokens : obj) :
  forall css, fst (sizeSets directory sizeSetFiles allTokens css) <> Unfinished.
Proof.
  induction sizeSetFiles as [| file sizeSetFiles IH]; intro css; [easy |].
  cbn [sizeSets]. finishes.
Qed.

#[local] Hint Resolve themeBlocks_finished sizeSets_finished : finishes.

Lemma generateThemeColorCSS_finished (manifest : js) :
  fst (generateThemeColorCSS directory manifest) <> Unfinished.
Proof. unfold generateThemeColorCSS. cbv zeta. finishes. Qed.

Lemma generateLightModeCSS_finished (manifest : js) :
  fst (generateLightModeCSS directory manifest) <> Unfinished.
Proof. unfold generateLightModeCSS. cbv zeta. finishes. Qed.

Lemma generateDarkModeCSS_finished (manifest : js) :
  fst (generateDarkModeCSS directory manifest) <> Unfinished.
Proof. unfold generateDarkModeCSS. cbv zeta. finishes. Qed.

Lemma generatePaletteCSS_finished (manifest : js) :
  fst (generatePaletteCSS directory manifest) <> Unfinished.
Proof. unfold generatePaletteCSS. cbv zeta. finishes. Qed.

Lemma generateEffectStylesCSS_finished (manifest : js) :
  fst (generateEffectStylesCSS directory manifest) <> Unfinished.
Proof. unfold generateEffectStylesCSS. cbv zeta. finishes. Qed.

Lemma generateSizeSetCSS_finished (manifest : js) :
  fst (generateSizeSetCSS directory listing manifest) <> Unfinished.
Proof. unfold generateSizeSetCSS. cbv zeta. finishes. Qed.
End finished.

Lemma bindGen_settles {A} (m : Gen A) (f : nat -> A -> Gen string) :
  fst m <> Unfinished ->
  (forall a w, m = (Completed a, w) ->
     exists n,
       fst (f n a) <> Unfinished /\ forall fuel, (n <= fuel)%nat -> f fuel a = f n a) ->
  exists n,
    fst (bindGen m (f n)) <> Unfinished
    /\ forall fuel, (n <= fuel)%nat -> bindGen m (f fuel) = bindGen m (f n).
Proof.
  intros Hm Hf. destruct m as [[a | e |] w]; [| now exists 0%nat | easy].
  destruct (Hf a w eq_refl) as (n & Hfin & Hstable). exists n. cbn [bindGen]. split.
  - now destruct (f n a).
  - intros fuel Hfuel. now rewrite (Hstable fuel Hfuel).
Qed.

Section termination.
Variable directory : string -> option js.
Variable listing : option (list string).
Variable manifestFile : option js.

(** X19.  [generateCSS] finishes when the store has no cycle of
    references.  If the reference graph of the store that [loadAllTokens]
    builds is well founded, some amount of fuel lets the run end (with a
    style sheet or with a failure), and more fuel does not change its
    result or its diagnostics.  The sections before the final pass always
    end; only the final pass can go on for ever. *)
Theorem generation_terminates :
  (forall manifest store,
     manifestFile = Some manifest ->
     loadAllTokens directory manifest = inr store ->
     well_founded (fun next reference => refersTo (JObj store) reference next)) ->
  exists n,
    fst (generateCSS directory listing manifestFile n) <> Unfinished
    /\ forall fuel, (n <= fuel)%nat ->
         generateCSS directory listing manifestFile fuel
         = generateCSS directory listing manifestFile n.
Proof.
  intro Hacyclic. unfold generateCSS.
  destruct manifestFile as [manifest |]; [| now exists 0%nat].
  specialize (Hacyclic manifest). cbv zeta.
  apply (bindGen_settles _ (fun fuel themeColor => _));
    [apply generateThemeColorCSS_finished | intros themeColor ? _].
  apply (bindGen_settles _ (fun fuel lightMode => _));
    [apply generateLightModeCSS_finished | intros lightMode ? _].
  apply (bindGen_settles _ (fun fuel darkMode => _));
    [apply generateDarkModeCSS_finished | intros darkMode ? _].
  apply (bindGen_settles _ (fun fuel palette => _));
    [apply generatePaletteCSS_finished | intros palette ? _].
  apply (bindGen_settles _ (fun fuel effectStyles => _));
    [apply generateEffectStylesCSS_finished | intros effectStyles ? _].
  apply (bindGen_settles _ (fun fuel sizeSet => _));
    [apply generateSizeSetCSS_finished | intros sizeSet ? _].
  apply (bindGen_settles _ (fun fuel allTokens => _));
    [apply ofLoad_finished | intros allTokens ? Hload].
  apply ofLoad_completed in Hload as [Hload _].
  destruct (rewriter_terminates_on_acyclic_store (JObj allTokens)
              (Hacyclic allTokens eq_refl Hload)
              ("" +:+ themeColor +:+ lightMode +:+ darkMode +:+ palette
                 +:+ effectStyles +:+ sizeSet))
    as (n & Hfin & Hstable).
  exists n. split.
  - now apply ofEff_finished.
  - intros fuel Hfuel. now rewrite (Hstable fuel Hfuel).
Qed.
End termination.

(** The rewriter calls itself on texts that the store holds, and on no
    other. *)
Lemma referenceTexts_character (c : ascii) : referenceTexts (JStr (String c "")) = [].
Proof.
  pose proof (inert_character c) as H. cbn [inert referenceTexts] in *.
  apply negb_true_iff in H. now rewrite H.
Qed.

Lemma referenceTexts_nth (elements : list js) (t : string) :
  forall i,
    In t (referenceTexts (nth i elements JUndefined)) ->
    In t (flat_map referenceTexts elements).
Proof.
  induction elements as [| x elements IH]; intros i Ht; [now destruct i |].
  cbn [flat_map]. apply List.in_or_app.
  destruct i; [now left | right; now apply (IH i)].
Qed.

Lemma referenceTexts_assoc (fields : list (string * js)) (k t : string) :
  In t (referenceTexts (default JUndefined (assoc k fields))) ->
  In t (flat_map (fun kv => referenceTexts (snd kv)) fields).
Proof.
  induction fields as [| [k' v'] fields IH]; [easy |].
  cbn [assoc flat_map snd]. intro Ht. apply List.in_or_app.
  destruct (String.eqb k' k); [now left | right; now apply IH].
Qed.

Lemma referenceTexts_getProp (v : js) (k t : string) :
  In t (referenceTexts (getProp v k)) -> In t (referenceTexts v).
Proof.
  destruct v; try easy; cbn [getProp].
  - destruct (String.eqb k "length"); [easy |].
    destruct (Str.arrayIndex k); [| easy].
    destruct (_ <? _)%N; [| easy].
    destruct (String.get _ s); [now rewrite referenceTexts_character | easy].
  - destruct (String.eqb k "length"); [easy |].
    destruct (Str.arrayIndex k); [| easy].
    destruct (_ <? _)%N; [| easy]. apply referenceTexts_nth.
  - apply referenceTexts_assoc.
Qed.

Lemma lookupPath_references (parts : list string) (t : string) :
  forall value found,
    lookupPath value parts = Found found ->
    In t (referenceTexts found) -> In t (referenceTexts value).
Proof.
  induction parts as [| part parts IH]; intros value found Hwalk Ht.
  - now injection Hwalk as <-.
  - cbn [lookupPath] in Hwalk.
    destruct (negb (truthy value) || negb (truthy (getProp value part))).
    + destruct (Str.includes "-" part); [| discriminate].
      destruct (isNullish value); [discriminate |].
      destruct (truthy _ && truthy _); [| discriminate].
      eapply referenceTexts_getProp, referenceTexts_getProp, IH; eassumption.
    + eapply referenceTexts_getProp, IH; eassumption.
Qed.

Lemma asReference_references (v : js) (text : string) :
  asReference v = Some text -> In text (referenceTexts v).
Proof.
  destruct v; try discriminate. cbn [asReference referenceTexts].
  destruct (_ && _); [| discriminate]. intros [= <-]. now left.
Qed.

Lemma actionFor_references (allTokens : js) (reference text : string) :
  actionFor allTokens reference = Recurse text -> In text (referenceTexts allTokens).
Proof.
  unfold actionFor.
  destruct (lookupPath allTokens (Str.split "." reference)) as [found | |] eqn:Hwalk;
    try easy.
  destruct (truthy found && _).
  { destruct (asReference (getProp found "$value")) as [text' |] eqn:Href;
      [| easy].
    intros [= <-]. eapply lookupPath_references; [exact Hwalk |].
    apply (referenceTexts_getProp found "$value"). now apply asReference_references. }
  destruct (Str.startsWith "--" reference); [easy |].
  destruct (String.eqb (typeof found) "string"); [| easy].
  destruct (asReference found) as [text' |] eqn:Href; [| easy].
  intros [= <-]. eapply lookupPath_references; [exact Hwalk |].
  now apply asReference_references.
Qed.

(** The store of the sample directory has one reference, which names a
    literal. *)
Lemma sampleDirectory_acyclic (manifest : js) (store : obj) :
  Some sampleManifest = Some manifest ->
  loadAllTokens sampleDirectory manifest = inr store ->
  well_founded (fun next reference => refersTo (JObj store) reference next).
Proof.
  intros [= <-] Hload. vm_compute in Hload. injection Hload as <-.
  intro reference. constructor. intros next (text & Hact & Hin).
  apply actionFor_references in Hact. vm_compute in Hact.
  destruct Hact as [<- | []]. vm_compute in Hin. destruct Hin as [<- | []].
  constructor. intros next' (text' & Hact' & _). vm_compute in Hact'. discriminate.
Qed.

Lemma generation_terminates_witness :
  exists n,
    fst (generateCSS sampleDirectory sampleListing (Some sampleManifest) n) <> Unfinished
    /\ forall fuel, (n <= fuel)%nat ->
         generateCSS sampleDirectory sampleListing (Some sampleManifest) fuel
         = generateCSS sampleDirectory sampleListing (Some sampleManifest) n.
Proof.
  apply (generation_terminates sampleDirectory sampleListing (Some sampleManifest)).
  exact sampleDirectory_acyclic.
Defined.

(** ** The palette loops *)






(** ** Reference Resolver: failure leaves a reference *)

Lemma falsy_not_reference (v : js) : truthy v = false -> isReference v = false.
Proof.
  destruct v; try reflexivity. cbn [truthy isReference].
  intros Hs%negb_false_iff%String.eqb_eq. now subst.
Qed.

(** X21.  Below the depth ceiling, [resolveColorReference] returns a
    reference exactly when it warns.  A call that emits no diagnostic
    returns a value that is not of the form [{...}]; a call that reports a
    reference as not found or as malformed returns a string of that form,
    which the final pass will meet again in the style sheet. *)
Theorem resolver_returns_reference_iff_warned (value allTokens : js) (depth : nat) :
  (snd (resolveColorReference value allTokens depth) = [] ->
   isReference (fst (resolveColorReference value allTokens depth)) = false)
  /\ (forall d,
        snd (resolveColorReference value allTokens depth) = [d] ->
        (forall reached, d <> DepthExceeded reached) ->
        isReference (fst (resolveColorReference value allTokens depth)) = true).
Proof.
  unfold resolveColorReference. generalize (11 - depth)%nat. intro budget. revert value.
  induction budget as [| budget IH]; intro value.
  { cbn. split; [discriminate |]. intros d [= <-] Hd. now destruct (Hd value). }
  cbn [resolveWithin]. destruct value as [| | | | s | |]; try (split; [reflexivity | discriminate]).
  destruct (negb (Str.startsWith "{" s) || negb (Str.endsWith "}" s)) eqn:Htest.
  { cbn [fst snd isReference]. split; [| discriminate]. intros _.
    apply orb_true_iff in Htest as [H | H]; apply negb_true_iff in H; rewrite H;
      [reflexivity | apply andb_false_r]. }
  assert (Href : isReference (JStr s) = true).
  { apply orb_false_iff in Htest as [H1 H2].
    apply negb_false_iff in H1, H2. cbn [isReference]. now rewrite H1, H2. }
  destruct (walkPath _ _ _) as [path | current].
  { cbn [fst snd]. split; [discriminate | now intros]. }
  destruct (truthy current && truthy (getProp current "$value")) eqn:Hvalue; [apply IH |].
  destruct (truthy current && isString "color" (getProp current "$type")) eqn:Hcolor.
  { cbn [fst snd]. split; [| discriminate]. intros _. apply falsy_not_reference.
    apply andb_true_iff in Hcolor as [Hcurrent _]. now rewrite Hcurrent in Hvalue. }
  destruct (String.eqb (typeof current) "string"); [apply IH |].
  cbn [fst snd]. split; [discriminate | now intros].
Qed.

Lemma resolver_returns_reference_iff_warned_witness :
  isReference (fst (resolveColorReference (JStr "{a.b}") (JObj [("a", JNum 1)]) 0)) = true.
Proof.
  apply (proj2 (resolver_returns_reference_iff_warned (JStr "{a.b}")
                  (JObj [("a", JNum 1)]) 0) (RefNotFound "a.b" ["a"; "b"])).
  - reflexivity.
  - discriminate.
Defined.

(** ** Text-Reference Rewriter: the pieces of a hyphenated segment *)

Lemma split_nonempty (sep : ascii) (a : string) : exists h t, Str.split sep a = h :: t.
Proof.
  induction a as [| c a (h & t & IH)]; [now exists "", [] |].
  cbn [Str.split]. rewrite IH. destruct (Ascii.eqb c sep); eauto.
Qed.

Lemma split_append (sep : ascii) (a b : string) :
  Str.split sep (a +:+ String sep b) = Str.split sep a ++ Str.split sep b.
Proof.
  induction a as [| c a IH].
  - change ("" +:+ String sep b) with (String sep b). cbn [Str.split].
    now rewrite Ascii.eqb_refl.
  - rewrite append_cons. cbn [Str.split]. rewrite IH.
    destruct (Ascii.eqb c sep); [reflexivity |].
    now destruct (split_nonempty sep a) as (h & t & ->).
Qed.

Lemma split_two_pieces (sep : ascii) (a : string) :
  Str.includes sep a = true -> exists p c t, Str.split sep a = p :: c :: t.
Proof.
  induction a as [| x a IH]; [discriminate |].
  cbn [Str.includes Str.split]. destruct (Ascii.eqb x sep); cbn [orb].
  - intros _. destruct a as [| y a]; [now exists "", "", [] |].
    destruct (Str.split sep (String y a)) as [| c t] eqn:Hsplit.
    + cbn [Str.split] in Hsplit. destruct (Ascii.eqb y sep); [discriminate |].
      now destruct (Str.split sep a).
    + now exists "", c, t.
  - intro Ha. destruct (IH Ha) as (p & c & t & ->). now exists (String x p), c, t.
Qed.

(** X22.  The fallback on a hyphenated segment uses the first two pieces of
    the segment and drops the rest.  When a segment with a hyphen and the
    same segment followed by [-extra] both name nothing in the value, the
    walk goes on from the same place for both, whatever [extra] is. *)
Theorem hyphen_fallback_drops_further_pieces (value : js) (part extra : string)
    (rest : list string) :
  Str.includes "-" part = true ->
  truthy (getProp value part) = false ->
  truthy (getProp value (part +:+ "-" +:+ extra)) = false ->
  lookupPath value ((part +:+ "-" +:+ extra) :: rest) = lookupPath value (part :: rest).
Proof.
  intros Hpart Hshort Hlong. cbn [lookupPath].
  rewrite Hshort, Hlong, !orb_true_r.
  change ("-" +:+ extra) with (String "-" extra).
  rewrite includes_append, Hpart. cbn [orb].
  rewrite split_append.
  destruct (split_two_pieces "-" part Hpart) as (p & c & t & ->). reflexivity.
Qed.

Lemma hyphen_fallback_drops_further_pieces_witness :
  lookupPath fooBarStore [("foo-bar" +:+ "-" +:+ "baz"); "$value"]
  = lookupPath fooBarStore ["foo-bar"; "$value"].
Proof.
  apply (hyphen_fallback_drops_further_pieces fooBarStore "foo-bar" "baz" ["$value"]);
    reflexivity.
Defined.

(** ** Flattener: the result as a sequence of assignments *)

Lemma leafDiagnostics_app (allTokens : js) (a b : list (string * js)) :
  leafDiagnostics allTokens (a ++ b)
  = leafDiagnostics allTokens a ++ leafDiagnostics allTokens b.
Proof. unfold leafDiagnostics. apply flat_map_app. Qed.

Section assignments.
Variable allTokens : js.
Context {A : Type} (body : string -> A -> obj -> Eff obj)
  (leaves : string -> A -> list (string * js)).

Lemma forEntries_assigns (entries : list (string * A)) :
  Forall (fun kv => forall r r' w,
            body (fst kv) (snd kv) r = (Returned r', w) ->
            r' = fold_left (assignLeaf allTokens) (leaves (fst kv) (snd kv)) r
            /\ w = leafDiagnostics allTokens (leaves (fst kv) (snd kv))) entries ->
  forall r r' w,
    forEntries body entries r = (Returned r', w) ->
    r' = fold_left (assignLeaf allTokens) (leavesOfEntries leaves entries) r
    /\ w = leafDiagnostics allTokens (leavesOfEntries leaves entries).
Proof.
  induction 1 as [| [key value] entries Hhead _ IH]; intros r r' w Hrun.
  - now injection Hrun as <- <-.
  - cbn [forEntries leavesOfEntries fst snd] in *.
    apply bind_returned in Hrun as (r1 & w1 & w2 & Hstep & Hrest & ->).
    apply Hhead in Hstep as [-> ->]. apply IH in Hrest as [-> ->].
    now rewrite fold_left_app, leafDiagnostics_app.
Qed.

Lemma forElements_assigns (elements : list A) :
  Forall (fun value => forall key r r' w,
            body key value r = (Returned r', w) ->
            r' = fold_left (assignLeaf allTokens) (leaves key value) r
            /\ w = leafDiagnostics allTokens (leaves key value)) elements ->
  forall i r r' w,
    forElements body i elements r = (Returned r', w) ->
    r' = fold_left (assignLeaf allTokens) (leavesOfElements leaves i elements) r
    /\ w = leafDiagnostics allTokens (leavesOfElements leaves i elements).
Proof.
  induction 1 as [| value elements Hhead _ IH]; intros i r r' w Hrun.
  - now injection Hrun as <- <-.
  - cbn [forElements leavesOfElements] in *.
    apply bind_returned in Hrun as (r1 & w1 & w2 & Hstep & Hrest & ->).
    apply Hhead in Hstep as [-> ->]. apply IH in Hrest as [-> ->].
    now rewrite fold_left_app, leafDiagnostics_app.
Qed.
End assignments.

Lemma flattenEntry_assigns (allTokens : js) (value : js) :
  (forall prefix result r w,
     flattenTokens value prefix result allTokens = (Returned r, w) ->
     r = fold_left (assignLeaf allTokens) (emittedLeaves value prefix) result
     /\ w = leafDiagnostics allTokens (emittedLeaves value prefix)) ->
  forall prefix key result r w,
    flattenEntry (fun p r => flattenTokens value p r allTokens)
      allTokens prefix key value result = (Returned r, w) ->
    r = fold_left (assignLeaf allTokens)
          (entryLeaves (emittedLeaves value) prefix key value) result
    /\ w = leafDiagnostics allTokens (entryLeaves (emittedLeaves value) prefix key value).
Proof.
  intros IH prefix key result r w Hrun. unfold entryLeaves.
  destruct (isLeaf value) eqn:Hleaf.
  - rewrite flattenEntry_leaf in Hrun by trivial. injection Hrun as <- <-.
    unfold leafDiagnostics. cbn. now rewrite app_nil_r.
  - destruct (isNullish value) eqn:Hnn.
    { unfold flattenEntry in Hrun. rewrite Hnn in Hrun. discriminate. }
    destruct (String.eqb (typeof value) "object") eqn:Hobj.
    + rewrite flattenEntry_nested in Hrun by trivial. now apply IH.
    + rewrite flattenEntry_skipped in Hrun by trivial. now injection Hrun as <- <-.
Qed.

(** X23.  What [flattenTokens] returns, in full.  The returned object is
    the accumulator after the assignments [result[key] = value] for the
    leaves of the namespace, taken in the order of the depth-first
    traversal, each with its hyphen-joined key and its materialized value;
    the diagnostics are those of the leaves, in the same order. *)
Theorem flatten_assigns_leaves_in_order (allTokens tokens : js) (prefix : string)
    (result r : obj) (w : list diag) :
  flattenTokens tokens prefix result allTokens = (Returned r, w) ->
  r = fold_left (assignLeaf allTokens) (emittedLeaves tokens prefix) result
  /\ w = leafDiagnostics allTokens (emittedLeaves tokens prefix).
Proof.
  revert prefix result r w.
  induction tokens as [| | b | n | s | elements IH | fields IH] using js_deep_ind;
    intros prefix result r w Hrun; try discriminate;
    try (now injection Hrun as <- <-).
  - cbn [flattenTokens emittedLeaves] in *.
    eapply (forElements_assigns allTokens); [| exact Hrun].
    eapply Forall_impl; [exact IH |]. cbv beta.
    intros value Hvalue key r0 r1 w1 Hstep.
    now apply (flattenEntry_assigns allTokens value Hvalue prefix key r0 r1 w1).
  - cbn [flattenTokens emittedLeaves] in *.
    eapply (forEntries_assigns allTokens); [| exact Hrun].
    eapply Forall_impl; [exact IH |]. cbv beta.
    intros [key value] Hvalue r0 r1 w1 Hstep.
    now apply (flattenEntry_assigns allTokens value Hvalue prefix key r0 r1 w1).
Qed.

Lemma flatten_assigns_leaves_in_order_witness :
  [("a-b", JStr "#222"); ("c", JStr "{x}")]
  = fold_left (assignLeaf (JObj []))
      (emittedLeaves
         (JObj [("a", JObj [("b", token "color" (JStr "#111"))]);
                ("c", token "color" (JStr "{x}"));
                ("a-b", token "color" (JStr "#222"))]) "") []
  /\ [RefNotFound "x" ["x"]]
     = leafDiagnostics (JObj [])
         (emittedLeaves
            (JObj [("a", JObj [("b", token "color" (JStr "#111"))]);
                   ("c", token "color" (JStr "{x}"));
                   ("a-b", token "color" (JStr "#222"))]) "").
Proof.
  apply (flatten_assigns_leaves_in_order (JObj [])
           (JObj [("a", JObj [("b", token "color" (JStr "#111"))]);
                  ("c", token "color" (JStr "{x}"));
                  ("a-b", token "color" (JStr "#222"))]) "" []).
  reflexivity.
Defined.

(** ** Text-Reference Rewriter: cycles *)

(** X24.  On a cycle of references the rewriter never returns.  Take any
    set of references such that the callback, on each of them, calls
    [resolveCSSReferences] on the reference to another member of the set
    (a token that refers to itself, two tokens that refer to each other,
    ...).  Then no depth of recursion is enough to rewrite the reference to
    a member: the source recurses until the call stack overflows. *)
Theorem rewriter_diverges_on_cycle (allTokens : js) (cycle : string -> Prop) :
  (forall reference,
     cycle reference ->
     reference <> "" /\ noBraces reference = true
     /\ exists next,
          cycle next /\ actionFor allTokens reference = Recurse ("{" +:+ next +:+ "}")) ->
  forall fuel reference,
    cycle reference ->
    resolveCSSReferences fuel ("{" +:+ reference +:+ "}") allTokens = (OutOfFuel, []).
Proof.
  intros Hcycle fuel. induction fuel as [| fuel IH]; intros reference Hin; [reflexivity |].
  destruct (Hcycle reference Hin) as (Hne & Hnb & next & Hnext & Hact).
  cbn [resolveCSSReferences]. rewrite replaceAll_single by trivial.
  unfold replaceMatch. rewrite Hact. now apply IH.
Qed.

Lemma rewriter_diverges_on_cycle_witness :
  resolveCSSReferences 5 ("{" +:+ "a" +:+ "}")
    (JObj [("a", token "color" (JStr "{b}")); ("b", JStr "{a}")])
  = (OutOfFuel, []).
Proof.
  apply (rewriter_diverges_on_cycle
           (JObj [("a", token "color" (JStr "{b}")); ("b", JStr "{a}")])
           (fun reference => reference = "a" \/ reference = "b")).
  - intros reference [-> | ->].
    + repeat split; [discriminate |]. exists "b". split; [now right | reflexivity].
    + repeat split; [discriminate |]. exists "a". split; [now left | reflexivity].
  - now left.
Defined.
